(** * The agent loop of packages/agent (agent-loop.ts, advisor.ts, types.ts)

    A shallow embedding of the turn-based agent driver: the message and
    event model, the event stream, the tool dispatcher, the advisor
    runner and the two entry points, followed by the properties that
    the specification states about them. *)

From Stdlib Require Import ZArith String List Bool Lia.
From stdpp Require Import base option list.
Import ListNotations.
Local Open Scope string_scope.
Local Open Scope list_scope.

Set Warnings "-register-all".

(** ** Messages (types.ts, and the message types of pi-ai it re-uses) *)

(** JSON payloads that the loop only passes around (tool arguments,
    tool-result details, schemas) are kept as their serialized text. *)
Definition Json := string.
Definition emptyObject : Json := "{}".

Inductive StopReason := SR_stop | SR_length | SR_toolUse | SR_error | SR_aborted.

Record ToolCall := mkToolCall {
  tc_id : string;
  tc_name : string;
  tc_arguments : Json }.

Inductive AssistantContent :=
| TextBlock (text : string)
| ThinkingBlock (thinking : string)
| ToolCallBlock (toolCall : ToolCall).

Record AssistantMessage := mkAssistantMessage {
  am_content : list AssistantContent;
  am_stopReason : StopReason;
  am_model : string;
  am_timestamp : Z }.

Inductive ResultContent :=
| TextContent (text : string)
| ImageContent (data mimeType : string).

Record ToolResultMessage := mkToolResultMessage {
  toolCallId : string;
  toolName : string;
  tr_content : list ResultContent;
  tr_details : Json;
  isError : bool;
  tr_timestamp : Z }.

Inductive UserContent :=
| UserText (text : string)
| UserBlocks (blocks : list ResultContent).

Record UserMessage := mkUserMessage {
  um_content : UserContent;
  um_timestamp : Z }.

Record AdvisorMessage := mkAdvisorMessage {
  advisorName : string;
  adv_content : string;
  adv_modelId : string;
  adv_timestamp : Z }.

(** [AgentMessage = Message | CustomAgentMessages[...]]: the three LLM
    roles, the advisor message, and app-defined extensions. *)
Inductive AgentMessage :=
| MUser (m : UserMessage)
| MAssistant (m : AssistantMessage)
| MToolResult (m : ToolResultMessage)
| MAdvisor (m : AdvisorMessage)
| MCustom (role : string) (payload : Json).

(** The LLM-side [Message] union of pi-ai. *)
Inductive Message :=
| LUser (m : UserMessage)
| LAssistant (m : AssistantMessage)
| LToolResult (m : ToolResultMessage).

Record AgentToolResult := mkAgentToolResult {
  content : list ResultContent;
  details : Json }.

Definition isAssistant (m : AgentMessage) : bool :=
  match m with MAssistant _ => true | _ => false end.

Definition isToolResult (m : AgentMessage) : bool :=
  match m with MToolResult _ => true | _ => false end.

(** [message.content.filter((c) => c.type === "toolCall")] *)
Fixpoint toolCallsOf (cs : list AssistantContent) : list ToolCall :=
  match cs with
  | [] => []
  | ToolCallBlock tc :: rest => tc :: toolCallsOf rest
  | _ :: rest => toolCallsOf rest
  end.

Definition isErrorStop (r : StopReason) : bool :=
  match r with SR_error | SR_aborted => true | _ => false end.

(** ** Events (types.ts) *)

Inductive UpdateKind :=
| text_start | text_delta | text_end
| thinking_start | thinking_delta | thinking_end
| toolcall_start | toolcall_delta | toolcall_end.

(** The adapter's events, as far as the loop inspects them. *)
Inductive AssistantMessageEvent :=
| AME_start (partial : AssistantMessage)
| AME_update (kind : UpdateKind) (partial : AssistantMessage)
| AME_done (message : AssistantMessage)
| AME_error (error : AssistantMessage).

Inductive AgentEvent :=
| agent_start
| agent_end (messages : list AgentMessage)
| turn_start
| turn_end (message : AgentMessage) (toolResults : list ToolResultMessage)
| message_start (message : AgentMessage)
| message_update (message : AgentMessage) (assistantMessageEvent : AssistantMessageEvent)
| message_end (message : AgentMessage)
| tool_execution_start (toolCallId toolName : string) (args : Json)
| tool_execution_update (toolCallId toolName : string) (args : Json)
    (partialResult : AgentToolResult)
| tool_execution_end (toolCallId toolName : string) (result : AgentToolResult)
    (isError : bool)
| advisor_start (advisorName toolName : string)
| advisor_event (advisorName : string) (event : AgentEvent)
| advisor_end (advisorName content : string)
| advisor_error (advisorName error : string).

Definition isAgentEnd (e : AgentEvent) : bool :=
  match e with agent_end _ => true | _ => false end.

Definition isAdvisorError (e : AgentEvent) : bool :=
  match e with advisor_error _ _ => true | _ => false end.

(** ** The event stream *)

Module EventStream.

(** Modelled from the spec: the [EventStream] class of pi-ai, which
    agent-loop.ts imports: a queue of events, sealed by [end] with the
    value that [result()] yields. *)
Record t := mk {
  queue : list AgentEvent;
  sealed : bool;
  finalResult : option (list AgentMessage) }.

(** Modelled from the spec: a new stream is empty and open. *)
Definition create : t := mk [] false None.

(** Modelled from the spec: [push] keeps insertion order, and is
    discarded once the stream is sealed. *)
Definition push (e : AgentEvent) (s : t) : t :=
  if sealed s then s else mk (queue s ++ [e]) false (finalResult s).

(** Modelled from the spec: [end(v)] seals the stream on [v]. *)
Definition end_ (v : list AgentMessage) (s : t) : t :=
  if sealed s then s else mk (queue s) true (Some v).

Definition pushAll (es : list AgentEvent) (s : t) : t :=
  fold_left (fun acc e => push e acc) es s.

End EventStream.

(** ** Values thrown by callbacks *)

(** What a [catch (e)] clause can receive: an [Error] object, or any
    other value, kept as its [String(e)] rendering. *)
Inductive JsValue :=
| JsError (message : string)
| JsOther (rendering : string).

(** [e instanceof Error ? e.message : String(e)] *)
Definition errorText (e : JsValue) : string :=
  match e with JsError m => m | JsOther s => s end.

(** How a call to a caller-supplied function ends once awaited: it
    returns (or its promise resolves), throws before returning, or
    returns a promise that rejects. *)
Inductive Completion (A : Type) :=
| Returns (a : A)
| ThrowsSync (e : JsValue)
| Rejects (e : JsValue).
Arguments Returns {A} a.
Arguments ThrowsSync {A} e.
Arguments Rejects {A} e.

Inductive ThinkingLevel := TL_off | TL_minimal | TL_low | TL_medium | TL_high | TL_xhigh.

Record Model := mkModel {
  model_id : string;
  provider : string }.

Definition AbortSignal := nat.

(** Message arrays and event streams are JavaScript objects that are
    shared by reference; they live in two stores and are named by
    their index. *)
Abbreviation loc := nat.
Abbreviation sid := nat.

(** The caller-supplied functions and the adapter that the loop calls,
    recorded in call order. *)
Inductive Call :=
| CallGetSteeringMessages
| CallGetFollowUpMessages
| CallTransformContext
| CallConvertToLlm
| CallGetApiKey (provider : string)
| CallStreamFn (modelId : string)
| CallToolExecute (toolName toolCallId : string)
| CallTrigger (advisorName : string)
| CallCreateContext (advisorName : string)
| CallExtractResult (advisorName : string).

Definition isPoll (c : Call) : bool :=
  match c with
  | CallGetSteeringMessages | CallGetFollowUpMessages => true
  | _ => false
  end.

Definition isToolExecute (c : Call) : bool :=
  match c with CallToolExecute _ _ => true | _ => false end.

Definition isStreamFn (c : Call) : bool :=
  match c with CallStreamFn _ => true | _ => false end.

(** ** The loop, over an abstract outside world

    [W] is the state of everything outside the loop: the model
    provider, the tools' side effects, the caller's message queues, the
    clock. A caller-supplied function is a function of that state that
    returns how the call completes and the next state. *)

Section AgentLoop.

Context {W : Type}.

Definition Oracle (A : Type) : Type := W -> Completion A * W.

(** [AgentTool] (types.ts). [execute] also yields the partial results it
    hands to [onUpdate] before it completes. *)
Record AgentTool := mkAgentTool {
  tool_name : string;
  tool_label : string;
  tool_description : string;
  tool_parameters : Json;
  execute : string -> Json -> option AbortSignal ->
            W -> (list AgentToolResult * Completion AgentToolResult) * W }.

(** [AgentContext] (types.ts); [messages] is a reference to an array. *)
Record AgentContext := mkAgentContext {
  systemPrompt : string;
  messages : loc;
  tools : option (list AgentTool) }.

Record AdvisorTriggerParams := mkTriggerParams {
  tp_messages : list AgentMessage;
  tp_toolName : string;
  tp_toolArgs : Json;
  tp_toolResult : ToolResultMessage }.

Record CreateContextParams := mkCreateContextParams {
  cp_systemPrompt : string;
  cp_messages : list AgentMessage;
  cp_toolName : string;
  cp_toolArgs : Json;
  cp_toolResult : ToolResultMessage }.

Record AdvisorContext := mkAdvisorContext {
  ac_systemPrompt : string;
  ac_messages : list AgentMessage }.

(** [AdvisorConfig] (types.ts), recursive through [advisors]. *)
Inductive AdvisorConfig := mkAdvisorConfig {
  adv_name : string;
  adv_model : Model;
  trigger : AdvisorTriggerParams -> Oracle bool;
  adv_tools : option (list AgentTool);
  adv_advisors : option (list AdvisorConfig);
  createContext : CreateContextParams -> Oracle AdvisorContext;
  extractResult : option (list AgentMessage -> Oracle string);
  adv_convertToLlm : option (list AgentMessage -> Oracle (list Message));
  adv_apiKey : option string;
  adv_getApiKey : option (string -> Oracle (option string));
  thinkingLevel : option ThinkingLevel }.

(** [AgentLoopConfig] (types.ts). *)
Record AgentLoopConfig := mkAgentLoopConfig {
  model : Model;
  convertToLlm : list AgentMessage -> Oracle (list Message);
  transformContext : option (list AgentMessage -> option AbortSignal ->
                             Oracle (list AgentMessage));
  getApiKey : option (string -> Oracle (option string));
  apiKey : option string;
  getSteeringMessages : option (Oracle (list AgentMessage));
  getFollowUpMessages : option (Oracle (list AgentMessage));
  advisors : option (list AdvisorConfig);
  reasoning : option ThinkingLevel }.

(** The LLM [Context] and the options handed to the stream function:
    [{ ...config, apiKey: resolvedApiKey, signal }]. *)
Record LlmContext := mkLlmContext {
  llm_systemPrompt : string;
  llm_messages : list Message;
  llm_tools : option (list AgentTool) }.

Record StreamOptions := mkStreamOptions {
  opt_config : AgentLoopConfig;
  opt_apiKey : option string;
  opt_signal : option AbortSignal }.

(** What the adapter hands back: the events the response iterates
    over, and the message that [response.result()] resolves to. *)
Record StreamResponse := mkStreamResponse {
  resp_events : list AssistantMessageEvent;
  resp_result : AssistantMessage }.

Definition StreamFn : Type :=
  Model -> LlmContext -> StreamOptions -> Oracle StreamResponse.

(** Imported from pi-ai and the runtime, hence parameters here. *)
Variable Date_now : W -> Z * W.
Variable validateToolArguments : AgentTool -> ToolCall -> JsValue + Json.
Variable streamSimple : StreamFn.

(** *** State and the monad of the loop *)

Record State := mkState {
  world : W;
  calls : list Call;
  arrays : list (list AgentMessage);
  streams : list EventStream.t }.

Definition setWorld (w : W) (st : State) : State :=
  mkState w (calls st) (arrays st) (streams st).
Definition addCall (c : Call) (st : State) : State :=
  mkState (world st) (calls st ++ [c]) (arrays st) (streams st).
Definition setArrays (a : list (list AgentMessage)) (st : State) : State :=
  mkState (world st) (calls st) a (streams st).
Definition setStreams (s : list EventStream.t) (st : State) : State :=
  mkState (world st) (calls st) (arrays st) s.

(** How an asynchronous body ends: it returns, it throws (its promise
    rejects), it waits forever on something that never settles, or the
    model ran out of fuel. *)
Inductive Outcome (A : Type) :=
| Done (a : A)
| Threw (e : JsValue)
| Hung
| OutOfFuel.
Arguments Done {A} a.
Arguments Threw {A} e.
Arguments Hung {A}.
Arguments OutOfFuel {A}.

Definition M (A : Type) : Type := State -> Outcome A * State.

Definition ret {A} (a : A) : M A := fun st => (Done a, st).

Definition bind {A B} (m : M A) (k : A -> M B) : M B := fun st =>
  match m st with
  | (Done a, st') => k a st'
  | (Threw e, st') => (Threw e, st')
  | (Hung, st') => (Hung, st')
  | (OutOfFuel, st') => (OutOfFuel, st')
  end.

Notation "x <- m ;; k" := (bind m (fun x => k))
  (at level 100, m at next level, right associativity).
Notation "m ;; k" := (bind m (fun _ => k))
  (at level 100, right associativity).

Definition throw {A} (e : JsValue) : M A := fun st => (Threw e, st).
Definition hang {A} : M A := fun st => (Hung, st).
Definition outOfFuel {A} : M A := fun st => (OutOfFuel, st).

(** [try { m } catch (e) { h e }] *)
Definition tryCatch {A} (m : M A) (h : JsValue -> M A) : M A := fun st =>
  match m st with
  | (Threw e, st') => h e st'
  | r => r
  end.

(** Running a caller-supplied function, and awaiting what it gave:
    a synchronous throw and a rejected promise both surface as an
    exception at the [await]. *)
Definition perform {A} (c : Call) (f : W -> A * W) : M A := fun st =>
  let '(a, w') := f (world st) in (Done a, addCall c (setWorld w' st)).

Definition await {A} (r : Completion A) : M A :=
  match r with
  | Returns a => ret a
  | ThrowsSync e => throw e
  | Rejects e => throw e
  end.

(** [await f(...)] on a caller-supplied function. *)
Definition extcall {A} (c : Call) (f : Oracle A) : M A :=
  r <- perform c f ;; await r.

(** [Date.now()] *)
Definition now : M Z := fun st =>
  let '(t, w') := Date_now (world st) in (Done t, setWorld w' st).

(** [stream.push(e)], [stream.end(v)], [new EventStream(...)] *)
Definition pushEvent (s : sid) (e : AgentEvent) : M unit := fun st =>
  (Done tt, setStreams (alter (EventStream.push e) s (streams st)) st).

Definition endStream (s : sid) (v : list AgentMessage) : M unit := fun st =>
  (Done tt, setStreams (alter (EventStream.end_ v) s (streams st)) st).

Definition createAgentStream (st : State) : sid * State :=
  (List.length (streams st),
   setStreams (streams st ++ [EventStream.create]) st).

(** An array literal or spread creates a new array. *)
Definition newArray (v : list AgentMessage) : M loc := fun st =>
  (Done (List.length (arrays st)), setArrays (arrays st ++ [v]) st).

Definition readArray (l : loc) : M (list AgentMessage) := fun st =>
  (Done (arrays st !!! l), st).

(** [arr.push(m)] *)
Definition arrayPush (l : loc) (m : AgentMessage) : M unit := fun st =>
  (Done tt, setArrays (alter (fun a => a ++ [m]) l (arrays st)) st).

(** [arr[arr.length - 1] = m] *)
Definition arraySetLast (l : loc) (m : AgentMessage) : M unit := fun st =>
  (Done tt,
   setArrays (alter (fun a => <[List.length a - 1 := m]> a) l (arrays st)) st).

Fixpoint forEach {A} (xs : list A) (body : A -> M unit) : M unit :=
  match xs with
  | [] => ret tt
  | x :: rest => body x ;; forEach rest body
  end.

#[local] Instance EventStream_inhabited : Inhabited EventStream.t :=
  populate EventStream.create.

Definition readQueue (s : sid) : M (list AgentEvent) := fun st =>
  (Done (EventStream.queue (streams st !!! s)), st).

(** [await stream.result()]: settles once the stream has been ended. *)
Definition streamResult (s : sid) : M (list AgentMessage) := fun st =>
  match EventStream.finalResult (streams st !!! s) with
  | Some v => (Done v, st)
  | None => (Hung, st)
  end.

Definition nonEmpty {A} (l : list A) : bool :=
  match l with [] => false | _ => true end.

(** *** streamAssistantResponse *)

(** [a || b] on optional strings: [undefined] and [""] are falsy. *)
Definition orElse (a b : option string) : option string :=
  match a with
  | Some EmptyString => b
  | Some k => Some k
  | None => b
  end.

(** The [for await (const event of response)] loop. *)
Fixpoint consumeEvents (context : AgentContext) (stream : sid)
    (response : StreamResponse) (events : list AssistantMessageEvent)
    (partialMessage : option AssistantMessage) (addedPartial : bool)
    : M AssistantMessage :=
  match events with
  | [] => ret (resp_result response)
  | event :: rest =>
    match event with
    | AME_start partial =>
        arrayPush (messages context) (MAssistant partial) ;;
        pushEvent stream (message_start (MAssistant partial)) ;;
        consumeEvents context stream response rest (Some partial) true
    | AME_update _ partial =>
        match partialMessage with
        | Some _ =>
            arraySetLast (messages context) (MAssistant partial) ;;
            pushEvent stream (message_update (MAssistant partial) event) ;;
            consumeEvents context stream response rest (Some partial) addedPartial
        | None =>
            consumeEvents context stream response rest None addedPartial
        end
    | AME_done _ | AME_error _ =>
        let finalMessage := resp_result response in
        (if addedPartial
         then arraySetLast (messages context) (MAssistant finalMessage)
         else arrayPush (messages context) (MAssistant finalMessage)) ;;
        (if addedPartial
         then ret tt
         else pushEvent stream (message_start (MAssistant finalMessage))) ;;
        pushEvent stream (message_end (MAssistant finalMessage)) ;;
        ret finalMessage
    end
  end.

Definition streamAssistantResponse (context : AgentContext)
    (config : AgentLoopConfig) (signal : option AbortSignal) (stream : sid)
    (streamFn : option StreamFn) : M AssistantMessage :=
  messages0 <- readArray (messages context) ;;
  messages1 <- match transformContext config with
               | Some f => extcall CallTransformContext (f messages0 signal)
               | None => ret messages0
               end ;;
  llmMessages <- extcall CallConvertToLlm (convertToLlm config messages1) ;;
  let llmContext := mkLlmContext (systemPrompt context) llmMessages (tools context) in
  let streamFunction := default streamSimple streamFn in
  key <- match getApiKey config with
         | Some g => extcall (CallGetApiKey (provider (model config)))
                             (g (provider (model config)))
         | None => ret None
         end ;;
  let resolvedApiKey := orElse key (apiKey config) in
  response <- extcall (CallStreamFn (model_id (model config)))
                (streamFunction (model config) llmContext
                   (mkStreamOptions config resolvedApiKey signal)) ;;
  consumeEvents context stream response (resp_events response) None false.

(** *** Tool dispatch *)

(** [context.tools?.find((t) => t.name === toolCall.name)] *)
Definition findTool (ts : option (list AgentTool)) (name : string)
    : option AgentTool :=
  match ts with
  | None => None
  | Some l => List.find (fun t => String.eqb (tool_name t) name) l
  end.

(** The body of the [try] block of [executeToolCalls]. *)
Definition invokeTool (tool : option AgentTool) (toolCall : ToolCall)
    (signal : option AbortSignal) (stream : sid) : M AgentToolResult :=
  match tool with
  | None => throw (JsError ("Tool " ++ tc_name toolCall ++ " not found")%string)
  | Some tool =>
    match validateToolArguments tool toolCall with
    | inl e => throw e
    | inr validatedArgs =>
        r <- perform (CallToolExecute (tc_name toolCall) (tc_id toolCall))
               (execute tool (tc_id toolCall) validatedArgs signal) ;;
        forEach (fst r) (fun partialResult =>
          pushEvent stream
            (tool_execution_update (tc_id toolCall) (tc_name toolCall)
               (tc_arguments toolCall) partialResult)) ;;
        await (snd r)
    end
  end.

(** The [try]/[catch] of [executeToolCalls]: the result and [isError]. *)
Definition runTool (tool : option AgentTool) (toolCall : ToolCall)
    (signal : option AbortSignal) (stream : sid) : M (AgentToolResult * bool) :=
  tryCatch
    (result <- invokeTool tool toolCall signal stream ;; ret (result, false))
    (fun e => ret (mkAgentToolResult [TextContent (errorText e)] emptyObject, true)).

(** One iteration of the dispatcher's loop up to the tool result's
    [message_end]: lines 308-365 of agent-loop.ts. *)
Definition dispatchToolCall (context : AgentContext) (newMessages : loc)
    (toolCall : ToolCall) (signal : option AbortSignal) (stream : sid)
    : M ToolResultMessage :=
  let tool := findTool (tools context) (tc_name toolCall) in
  pushEvent stream
    (tool_execution_start (tc_id toolCall) (tc_name toolCall) (tc_arguments toolCall)) ;;
  r <- runTool tool toolCall signal stream ;;
  pushEvent stream
    (tool_execution_end (tc_id toolCall) (tc_name toolCall) (fst r) (snd r)) ;;
  timestamp <- now ;;
  let toolResultMessage :=
    mkToolResultMessage (tc_id toolCall) (tc_name toolCall)
      (content (fst r)) (details (fst r)) (snd r) timestamp in
  arrayPush (messages context) (MToolResult toolResultMessage) ;;
  arrayPush newMessages (MToolResult toolResultMessage) ;;
  pushEvent stream (message_start (MToolResult toolResultMessage)) ;;
  pushEvent stream (message_end (MToolResult toolResultMessage)) ;;
  ret toolResultMessage.

Definition skippedText : string := "Skipped due to queued user message.".

Definition skipToolCall (toolCall : ToolCall) (stream : sid) : M ToolResultMessage :=
  let result := mkAgentToolResult [TextContent skippedText] emptyObject in
  pushEvent stream
    (tool_execution_start (tc_id toolCall) (tc_name toolCall) (tc_arguments toolCall)) ;;
  pushEvent stream
    (tool_execution_end (tc_id toolCall) (tc_name toolCall) result true) ;;
  timestamp <- now ;;
  let toolResultMessage :=
    mkToolResultMessage (tc_id toolCall) (tc_name toolCall)
      (content result) emptyObject true timestamp in
  pushEvent stream (message_start (MToolResult toolResultMessage)) ;;
  pushEvent stream (message_end (MToolResult toolResultMessage)) ;;
  ret toolResultMessage.

(** The [for (const skipped of remainingCalls)] loop. *)
Fixpoint skipRemaining (context : AgentContext) (newMessages : loc)
    (remainingCalls : list ToolCall) (stream : sid)
    (results : list ToolResultMessage) : M (list ToolResultMessage) :=
  match remainingCalls with
  | [] => ret results
  | skipped :: rest =>
      skippedResult <- skipToolCall skipped stream ;;
      arrayPush (messages context) (MToolResult skippedResult) ;;
      arrayPush newMessages (MToolResult skippedResult) ;;
      skipRemaining context newMessages rest stream (results ++ [skippedResult])
  end.

(** *** advisor.ts *)

Definition advisorTag (name body : string) : string :=
  ("[Advisor: " ++ name ++ "] " ++ body)%string.

Definition defaultAdvisorConvertToLlm (ms : list AgentMessage) : list Message :=
  flat_map (fun m =>
    match m with
    | MAdvisor a =>
        [LUser (mkUserMessage
                  (UserBlocks [TextContent (advisorTag (advisorName a) (adv_content a))])
                  (adv_timestamp a))]
    | MUser u => [LUser u]
    | MAssistant a => [LAssistant a]
    | MToolResult r => [LToolResult r]
    | MCustom _ _ => []
    end) ms.

Fixpoint textsOf (cs : list AssistantContent) : list string :=
  match cs with
  | [] => []
  | TextBlock t :: rest => t :: textsOf rest
  | _ :: rest => textsOf rest
  end.

Fixpoint lastAssistant (ms : list AgentMessage) : option AssistantMessage :=
  match ms with
  | [] => None
  | m :: rest =>
    match lastAssistant rest with
    | Some a => Some a
    | None => match m with MAssistant a => Some a | _ => None end
    end
  end.

Definition newline : string := String (Ascii.ascii_of_nat 10) EmptyString.

Definition defaultExtractResult (ms : list AgentMessage) : string :=
  match lastAssistant ms with
  | Some a => String.concat newline (textsOf (am_content a))
  | None => EmptyString
  end.

Definition createAdvisorMessage (name modelId body : string) : M AdvisorMessage :=
  timestamp <- now ;; ret (mkAdvisorMessage name body modelId timestamp).

(** *** Advisors and the dispatcher, over the entry point they recurse into *)

(** What [agentLoop] gives its caller: the stream it returns at once,
    and how the asynchronous body it started ends. *)
Definition AgentLoopFn : Type :=
  list AgentMessage -> AgentContext -> AgentLoopConfig ->
  option AbortSignal -> option StreamFn -> State -> (sid * Outcome unit) * State.

Section Loop.

Variable nestedLoop : AgentLoopFn.

(** The [advisorConfig] literal of [runAdvisor]. *)
Definition advisorConfigOf (advisor : AdvisorConfig) : AgentLoopConfig :=
  {| model := adv_model advisor;
     convertToLlm :=
       match adv_convertToLlm advisor with
       | Some f => f
       | None => fun ms w => (Returns (defaultAdvisorConvertToLlm ms), w)
       end;
     transformContext := None;
     getApiKey := adv_getApiKey advisor;
     apiKey := adv_apiKey advisor;
     getSteeringMessages := None;
     getFollowUpMessages := None;
     advisors := adv_advisors advisor;
     reasoning :=
       match thinkingLevel advisor with
       | Some TL_off => None
       | Some level => Some level
       | None => None
       end |}.

Definition spawn (run : State -> (sid * Outcome unit) * State)
    : M (sid * Outcome unit) := fun st =>
  let '(r, st') := run st in (Done r, st').

(** The end of [for await (const event of advisorStream)]: reached when
    the child's body has ended its stream; a child whose body threw
    never ends it. *)
Definition awaitEnd (out : Outcome unit) : M unit :=
  match out with
  | Done _ => ret tt
  | Threw _ => hang
  | Hung => hang
  | OutOfFuel => outOfFuel
  end.

Definition runAdvisor (advisor : AdvisorConfig) (params : CreateContextParams)
    (parentStream : sid) (signal : option AbortSignal)
    (streamFn : option StreamFn) : M (option AdvisorMessage) :=
  tryCatch
    (advisorCtx <- extcall (CallCreateContext (adv_name advisor))
                     (createContext advisor params) ;;
     emptyLog <- newArray [] ;;
     let advisorAgentContext :=
       mkAgentContext (ac_systemPrompt advisorCtx) emptyLog (adv_tools advisor) in
     let advisorConfig := advisorConfigOf advisor in
     started <- spawn (nestedLoop (ac_messages advisorCtx) advisorAgentContext
                         advisorConfig signal streamFn) ;;
     let advisorStream := fst started in
     events <- readQueue advisorStream ;;
     forEach events (fun event =>
       pushEvent parentStream (advisor_event (adv_name advisor) event)) ;;
     awaitEnd (snd started) ;;
     resultMessages <- streamResult advisorStream ;;
     body <- match extractResult advisor with
             | Some f => extcall (CallExtractResult (adv_name advisor))
                           (f resultMessages)
             | None => ret (defaultExtractResult resultMessages)
             end ;;
     match body with
     | EmptyString => ret None
     | _ =>
         m <- createAdvisorMessage (adv_name advisor)
                (model_id (adv_model advisor)) body ;;
         ret (Some m)
     end)
    (fun err =>
       pushEvent parentStream
         (advisor_error (adv_name advisor) (errorText err)) ;;
       ret None).

(** The [for (const advisor of advisors)] loop of [handleAdvisors]. *)
Fixpoint handleAdvisorsLoop (advisors : list AdvisorConfig)
    (context : AgentContext) (newMessages : loc) (toolCall : ToolCall)
    (toolResult : ToolResultMessage) (stream : sid)
    (signal : option AbortSignal) (streamFn : option StreamFn) : M unit :=
  match advisors with
  | [] => ret tt
  | advisor :: rest =>
      seen <- readArray (messages context) ;;
      triggered <- extcall (CallTrigger (adv_name advisor))
                     (trigger advisor
                        (mkTriggerParams seen (tc_name toolCall)
                           (tc_arguments toolCall) toolResult)) ;;
      (if triggered : bool then
         pushEvent stream (advisor_start (adv_name advisor) (tc_name toolCall)) ;;
         copy <- readArray (messages context) ;;
         advisorMsg <- runAdvisor advisor
                         (mkCreateContextParams (systemPrompt context) copy
                            (tc_name toolCall) (tc_arguments toolCall) toolResult)
                         stream signal streamFn ;;
         match advisorMsg with
         | Some m =>
             arrayPush (messages context) (MAdvisor m) ;;
             arrayPush newMessages (MAdvisor m) ;;
             pushEvent stream (message_start (MAdvisor m)) ;;
             pushEvent stream (message_end (MAdvisor m)) ;;
             pushEvent stream (advisor_end (adv_name advisor) (adv_content m))
         | None => ret tt
         end
       else ret tt) ;;
      handleAdvisorsLoop rest context newMessages toolCall toolResult
        stream signal streamFn
  end.

Definition handleAdvisors (advisors : option (list AdvisorConfig))
    (context : AgentContext) (newMessages : loc) (toolCall : ToolCall)
    (toolResult : ToolResultMessage) (stream : sid)
    (signal : option AbortSignal) (streamFn : option StreamFn) : M unit :=
  match advisors with
  | None => ret tt
  | Some l =>
      handleAdvisorsLoop l context newMessages toolCall toolResult
        stream signal streamFn
  end.

(** The [for (let index ...)] loop of [executeToolCalls], from the
    current index on; [results] are the results so far. *)
Fixpoint executeToolCallsFrom (context : AgentContext) (newMessages : loc)
    (toolCalls : list ToolCall) (config : AgentLoopConfig)
    (signal : option AbortSignal) (stream : sid) (streamFn : option StreamFn)
    (results : list ToolResultMessage)
    : M (list ToolResultMessage * option (list AgentMessage)) :=
  match toolCalls with
  | [] => ret (results, None)
  | toolCall :: remainingCalls =>
      toolResultMessage <- dispatchToolCall context newMessages toolCall
                             signal stream ;;
      handleAdvisors (advisors config) context newMessages toolCall
        toolResultMessage stream signal streamFn ;;
      match getSteeringMessages config with
      | Some poll =>
          steering <- extcall CallGetSteeringMessages poll ;;
          if nonEmpty steering then
            skipped <- skipRemaining context newMessages remainingCalls stream
                         (results ++ [toolResultMessage]) ;;
            ret (skipped, Some steering)
          else
            executeToolCallsFrom context newMessages remainingCalls config
              signal stream streamFn (results ++ [toolResultMessage])
      | None =>
          executeToolCallsFrom context newMessages remainingCalls config
            signal stream streamFn (results ++ [toolResultMessage])
      end
  end.

Definition executeToolCalls (context : AgentContext) (newMessages : loc)
    (assistantMessage : AssistantMessage) (config : AgentLoopConfig)
    (signal : option AbortSignal) (stream : sid) (streamFn : option StreamFn)
    : M (list ToolResultMessage * option (list AgentMessage)) :=
  executeToolCallsFrom context newMessages
    (toolCallsOf (am_content assistantMessage)) config signal stream streamFn [].

(** *** runLoop *)

(** [(await config.getSteeringMessages?.()) || []] and its sibling. *)
Definition pollMessages (c : Call) (f : option (Oracle (list AgentMessage)))
    : M (list AgentMessage) :=
  match f with
  | Some poll => extcall c poll
  | None => ret []
  end.

Definition injectPending (context : AgentContext) (newMessages : loc)
    (stream : sid) (pendingMessages : list AgentMessage) : M unit :=
  forEach pendingMessages (fun message =>
    pushEvent stream (message_start message) ;;
    pushEvent stream (message_end message) ;;
    arrayPush (messages context) message ;;
    arrayPush newMessages message).

(** [stream.push({ type: "agent_end", messages: newMessages });
     stream.end(newMessages)] *)
Definition finish (newMessages : loc) (stream : sid) : M unit :=
  collected <- readArray newMessages ;;
  pushEvent stream (agent_end collected) ;;
  endStream stream collected.

(** The two nested [while] loops of [runLoop], entered at the test of
    the inner loop. One unit of fuel pays for one turn, or for one
    restart of the outer loop on follow-up messages. *)
Fixpoint runLoopFrom (fuel : nat) (currentContext : AgentContext)
    (newMessages : loc) (config : AgentLoopConfig)
    (signal : option AbortSignal) (stream : sid) (streamFn : option StreamFn)
    (firstTurn hasMoreToolCalls : bool) (pendingMessages : list AgentMessage)
    (steeringAfterTools : option (list AgentMessage)) {struct fuel} : M unit :=
  if hasMoreToolCalls || nonEmpty pendingMessages then
    match fuel with
    | O => outOfFuel
    | S fuel' =>
        (if firstTurn then ret tt else pushEvent stream turn_start) ;;
        injectPending currentContext newMessages stream pendingMessages ;;
        message <- streamAssistantResponse currentContext config signal
                     stream streamFn ;;
        arrayPush newMessages (MAssistant message) ;;
        if isErrorStop (am_stopReason message) then
          pushEvent stream (turn_end (MAssistant message) []) ;;
          finish newMessages stream
        else
          let hasMore := nonEmpty (toolCallsOf (am_content message)) in
          r <- (if hasMore then
                  executeToolCalls currentContext newMessages message config
                    signal stream streamFn
                else ret ([], steeringAfterTools)) ;;
          pushEvent stream (turn_end (MAssistant message) (fst r)) ;;
          match snd r with
          | Some (m :: ms) =>
              runLoopFrom fuel' currentContext newMessages config signal
                stream streamFn false hasMore (m :: ms) None
          | other =>
              pending <- pollMessages CallGetSteeringMessages
                           (getSteeringMessages config) ;;
              runLoopFrom fuel' currentContext newMessages config signal
                stream streamFn false hasMore pending other
          end
    end
  else
    followUpMessages <- pollMessages CallGetFollowUpMessages
                          (getFollowUpMessages config) ;;
    if nonEmpty followUpMessages then
      match fuel with
      | O => outOfFuel
      | S fuel' =>
          runLoopFrom fuel' currentContext newMessages config signal
            stream streamFn firstTurn true followUpMessages None
      end
    else finish newMessages stream.

Definition runLoop (fuel : nat) (currentContext : AgentContext)
    (newMessages : loc) (config : AgentLoopConfig)
    (signal : option AbortSignal) (stream : sid) (streamFn : option StreamFn)
    : M unit :=
  pendingMessages <- pollMessages CallGetSteeringMessages
                       (getSteeringMessages config) ;;
  runLoopFrom fuel currentContext newMessages config signal stream streamFn
    true true pendingMessages None.

(** *** The entry points *)

(** The body of [agentLoop]'s [(async () => { ... })()]. *)
Definition agentLoopBody (fuel : nat) (prompts : list AgentMessage)
    (context : AgentContext) (config : AgentLoopConfig)
    (signal : option AbortSignal) (stream : sid) (streamFn : option StreamFn)
    : M unit :=
  newMessages <- newArray prompts ;;
  old <- readArray (messages context) ;;
  copied <- newArray (old ++ prompts) ;;
  let currentContext :=
    mkAgentContext (systemPrompt context) copied (tools context) in
  pushEvent stream agent_start ;;
  pushEvent stream turn_start ;;
  forEach prompts (fun prompt =>
    pushEvent stream (message_start prompt) ;;
    pushEvent stream (message_end prompt)) ;;
  runLoop fuel currentContext newMessages config signal stream streamFn.

Definition agentLoopWith (fuel : nat) : AgentLoopFn :=
  fun prompts context config signal streamFn st =>
    let '(stream, st0) := createAgentStream st in
    let '(out, st') :=
      agentLoopBody fuel prompts context config signal stream streamFn st0 in
    ((stream, out), st').

(** The body of [agentLoopContinue]'s asynchronous part. *)
Definition agentLoopContinueBody (fuel : nat) (context : AgentContext)
    (config : AgentLoopConfig) (signal : option AbortSignal) (stream : sid)
    (streamFn : option StreamFn) : M unit :=
  newMessages <- newArray [] ;;
  let currentContext :=
    mkAgentContext (systemPrompt context) (messages context) (tools context) in
  pushEvent stream agent_start ;;
  pushEvent stream turn_start ;;
  runLoop fuel currentContext newMessages config signal stream streamFn.

(** [agentLoopContinue]: [inl] is the exception thrown to the caller
    before a stream exists. *)
Definition agentLoopContinueWith (fuel : nat) (context : AgentContext)
    (config : AgentLoopConfig) (signal : option AbortSignal)
    (streamFn : option StreamFn) (st : State)
    : JsValue + (sid * Outcome unit) * State :=
  let logged := arrays st !!! messages context in
  if Nat.eqb (List.length logged) 0 then
    inl (JsError "Cannot continue: no messages in context")
  else
    match last logged with
    | Some (MAssistant _) =>
        inl (JsError "Cannot continue from message role: assistant")
    | _ =>
        let '(stream, st0) := createAgentStream st in
        let '(out, st') :=
          agentLoopContinueBody fuel context config signal stream streamFn st0 in
        inr ((stream, out), st')
    end.

End Loop.

(** A nested run that has no fuel left. *)
Definition noFuel : AgentLoopFn :=
  fun _ _ _ _ _ st => ((List.length (streams st), OutOfFuel), st).

(** [agentLoop], with [fuel] bounding the turns of the run and the
    nesting of advisor runs. *)
Fixpoint agentLoop (fuel : nat) : AgentLoopFn :=
  agentLoopWith
    (match fuel with O => noFuel | S fuel' => agentLoop fuel' end) fuel.

Definition agentLoopContinue (fuel : nat) :=
  agentLoopContinueWith
    (match fuel with O => noFuel | S fuel' => agentLoop fuel' end) fuel.

(** ** Reasoning about runs *)

(** *** Event streams *)

Lemma pushAll_app (a b : list AgentEvent) (es : EventStream.t) :
  EventStream.pushAll (a ++ b) es = EventStream.pushAll b (EventStream.pushAll a es).
Proof. unfold EventStream.pushAll. apply fold_left_app. Qed.

Lemma pushAll_sealed (evs : list AgentEvent) (es : EventStream.t) :
  EventStream.sealed es = true -> EventStream.pushAll evs es = es.
Proof.
  induction evs as [|e evs IH]; intros Hs; [reflexivity|].
  cbn. unfold EventStream.push at 2. rewrite Hs. apply IH, Hs.
Qed.

Lemma pushAll_open (evs : list AgentEvent) (es : EventStream.t) :
  EventStream.sealed es = false ->
  EventStream.pushAll evs es =
  EventStream.mk (EventStream.queue es ++ evs) false (EventStream.finalResult es).
Proof.
  revert es. induction evs as [|e evs IH]; intros es Hs.
  - cbn. rewrite app_nil_r. destruct es; cbn in *; congruence.
  - cbn. unfold EventStream.push at 2. rewrite Hs.
    rewrite IH by reflexivity. cbn. now rewrite <- app_assoc.
Qed.

Lemma end_sealed (v : list AgentMessage) (es : EventStream.t) :
  EventStream.sealed (EventStream.end_ v es) = true.
Proof. unfold EventStream.end_. destruct (EventStream.sealed es) eqn:E; [exact E|reflexivity]. Qed.

Lemma push_sealed (e : AgentEvent) (es : EventStream.t) :
  EventStream.sealed (EventStream.push e es) = EventStream.sealed es.
Proof. unfold EventStream.push. destruct (EventStream.sealed es) eqn:E; [exact E|reflexivity]. Qed.

Definition quietEvents (evs : list AgentEvent) : Prop :=
  Forall (fun e => isAgentEnd e = false) evs.

(** A stream that only received events other than [agent_end]. *)
Definition quietStep (es es' : EventStream.t) : Prop :=
  exists evs, es' = EventStream.pushAll evs es /\ quietEvents evs.

(** A stream as a run drives it: events other than [agent_end], then
    possibly the closing [agent_end] and the seal. *)
Definition runStep (es es' : EventStream.t) : Prop :=
  quietStep es es' \/
  exists evs v,
    es' = EventStream.end_ v
            (EventStream.push (agent_end v) (EventStream.pushAll evs es)) /\
    quietEvents evs.

#[local] Instance quietStep_preorder : PreOrder quietStep.
Proof.
  split.
  - intros es. exists []. split; [reflexivity|constructor].
  - intros a b c [e1 [-> H1]] [e2 [-> H2]]. exists (e1 ++ e2). split.
    + now rewrite pushAll_app.
    + apply Forall_app; split; assumption.
Qed.

Lemma finished_stable (v : list AgentMessage) (x es' : EventStream.t) :
  runStep (EventStream.end_ v x) es' -> es' = EventStream.end_ v x.
Proof.
  pose proof (end_sealed v x) as Hs.
  intros [[evs [-> _]]|[evs [v' [-> _]]]].
  - now apply pushAll_sealed.
  - rewrite (pushAll_sealed evs) by exact Hs.
    unfold EventStream.push. rewrite Hs.
    unfold EventStream.end_ at 1. now rewrite Hs.
Qed.

#[local] Instance runStep_preorder : PreOrder runStep.
Proof.
  split.
  - intros es. left. reflexivity.
  - intros a b c Hab Hbc. destruct Hab as [Hq|[evs [v [-> Hq]]]].
    + destruct Hbc as [Hq'|[evs' [v' [-> Hq']]]].
      * left. etransitivity; eassumption.
      * destruct Hq as [evs [-> Hq]]. right. exists (evs ++ evs'), v'. split.
        -- now rewrite pushAll_app.
        -- apply Forall_app; split; assumption.
    + apply finished_stable in Hbc. subst c. right. exists evs, v. split; [reflexivity|assumption].
Qed.

Lemma quietStep_push (e : AgentEvent) (es : EventStream.t) :
  isAgentEnd e = false -> quietStep es (EventStream.push e es).
Proof. intros H. exists [e]. split; [reflexivity|]. constructor; [assumption|constructor]. Qed.

Lemma runStep_push (e : AgentEvent) (es : EventStream.t) :
  isAgentEnd e = false -> runStep es (EventStream.push e es).
Proof. intros H. left. now apply quietStep_push. Qed.

Lemma runStep_finish (v : list AgentMessage) (es : EventStream.t) :
  runStep es (EventStream.end_ v (EventStream.push (agent_end v) es)).
Proof. right. exists [], v. split; [reflexivity|constructor]. Qed.

(** *** Frames: what a computation may change *)

Definition callsExt (ok : Call -> Prop) (st st' : State) : Prop :=
  exists cs, calls st' = calls st ++ cs /\ Forall ok cs.

(** Arrays that exist stay, and grow at the end; outside [L] they do
    not change. *)
Definition arraysExt (L : loc -> Prop) (st st' : State) : Prop :=
  forall i v, arrays st !! i = Some v ->
    exists ext, arrays st' !! i = Some (v ++ ext) /\ (~ L i -> ext = []).

(** Streams that exist stay; outside [S] they do not change, inside
    they move along [E]. *)
Definition streamsExt (S : sid -> Prop) (E : relation EventStream.t)
    (st st' : State) : Prop :=
  forall i es, streams st !! i = Some es ->
    exists es', streams st' !! i = Some es' /\ (S i -> E es es') /\ (~ S i -> es' = es).

Record frame (ok : Call -> Prop) (L : loc -> Prop) (S : sid -> Prop)
    (E : relation EventStream.t) (st st' : State) : Prop := mkFrame {
  frame_calls : callsExt ok st st';
  frame_arrays : arraysExt L st st';
  frame_streams : streamsExt S E st st' }.

Definition nowhere : nat -> Prop := fun _ => False.

(** Nothing that existed before has changed. *)
Definition preserved (ok : Call -> Prop) : relation State :=
  frame ok nowhere nowhere eq.

Definition respects {A} (R : relation State) (m : M A) : Prop :=
  forall st, R st (snd (m st)).

Section Frames.

Variable ok : Call -> Prop.
Variable L : loc -> Prop.
Variable S : sid -> Prop.
Variable E : relation EventStream.t.
Context {E_preorder : PreOrder E}.
Hypothesis E_push :
  forall e es, isAgentEnd e = false -> E es (EventStream.push e es).
Hypothesis ok_other : forall c, isPoll c = false -> ok c.

Local Abbreviation R := (frame ok L S E).

Lemma callsExt_same st st' : calls st' = calls st -> callsExt ok st st'.
Proof. intros H. exists []. rewrite app_nil_r. split; [assumption|constructor]. Qed.

Lemma arraysExt_same st st' : arrays st' = arrays st -> arraysExt L st st'.
Proof.
  intros H i v Hi. exists []. rewrite app_nil_r, H. split; [assumption|reflexivity].
Qed.

Lemma streamsExt_same st st' : streams st' = streams st -> streamsExt S E st st'.
Proof.
  intros H i es Hi. exists es. rewrite H. repeat split; [assumption|reflexivity].
Qed.

Lemma frame_refl st : R st st.
Proof.
  split; [apply callsExt_same|apply arraysExt_same|apply streamsExt_same]; reflexivity.
Qed.

Lemma frame_trans a b c : R a b -> R b c -> R a c.
Proof.
  intros [[c1 [Hc1 Ho1]] Ha1 Hs1] [[c2 [Hc2 Ho2]] Ha2 Hs2]. split.
  - exists (c1 ++ c2). rewrite Hc2, Hc1, <- app_assoc. split; [reflexivity|].
    apply Forall_app; split; assumption.
  - intros i v Hi. destruct (Ha1 i v Hi) as [e1 [H1 N1]].
    destruct (Ha2 i _ H1) as [e2 [H2 N2]].
    exists (e1 ++ e2). rewrite app_assoc. split; [assumption|].
    intros HL. now rewrite (N1 HL), (N2 HL).
  - intros i es Hi. destruct (Hs1 i es Hi) as [es1 [H1 [P1 N1]]].
    destruct (Hs2 i _ H1) as [es2 [H2 [P2 N2]]].
    exists es2. repeat split; [assumption| |].
    + intros HS. etransitivity; [apply P1|apply P2]; assumption.
    + intros HS. now rewrite (N2 HS), (N1 HS).
Qed.

#[local] Instance frame_preorder : PreOrder R.
Proof. split; [exact frame_refl|exact frame_trans]. Qed.

Lemma frame_setWorld w st : R st (setWorld w st).
Proof.
  split; [apply callsExt_same|apply arraysExt_same|apply streamsExt_same]; reflexivity.
Qed.

Lemma frame_addCall c st : ok c -> R st (addCall c st).
Proof.
  intros Hc. split; [|apply arraysExt_same|apply streamsExt_same]; try reflexivity.
  exists [c]. split; [reflexivity|]. constructor; [assumption|constructor].
Qed.

Lemma frame_alterStream (f : EventStream.t -> EventStream.t) s st :
  S s -> (forall es, E es (f es)) ->
  R st (setStreams (alter f s (streams st)) st).
Proof.
  intros Hs Hf. split; [apply callsExt_same|apply arraysExt_same|]; try reflexivity.
  intros i es Hi. cbn [streams setStreams]. destruct (decide (s = i)) as [->|Hne].
  - exists (f es). rewrite list_lookup_alter_eq, Hi. repeat split; [auto|].
    intros HS; contradiction.
  - exists es. rewrite list_lookup_alter_ne by assumption.
    repeat split; [assumption|]. intros _. reflexivity.
Qed.

Lemma frame_alterArray (f : list AgentMessage -> list AgentMessage) l st :
  L l -> (forall v, exists ext, f v = v ++ ext) ->
  R st (setArrays (alter f l (arrays st)) st).
Proof.
  intros Hl Hf. split; [apply callsExt_same| |apply streamsExt_same]; try reflexivity.
  intros i v Hi. cbn [arrays setArrays]. destruct (decide (l = i)) as [->|Hne].
  - destruct (Hf v) as [ext Hext]. exists ext.
    rewrite list_lookup_alter_eq, Hi. cbn. rewrite Hext. split; [reflexivity|].
    intros HL; contradiction.
  - exists []. rewrite list_lookup_alter_ne, app_nil_r by assumption.
    split; [assumption|reflexivity].
Qed.

Lemma frame_alloc v st : R st (setArrays (arrays st ++ [v]) st).
Proof.
  split; [apply callsExt_same| |apply streamsExt_same]; try reflexivity.
  intros i x Hi. exists []. rewrite app_nil_r. cbn [arrays setArrays].
  split; [now apply lookup_app_l_Some|reflexivity].
Qed.

Lemma frame_allocStream es st : R st (setStreams (streams st ++ [es]) st).
Proof.
  split; [apply callsExt_same|apply arraysExt_same|]; try reflexivity.
  intros i x Hi. exists x. cbn [streams setStreams].
  repeat split; [now apply lookup_app_l_Some|reflexivity].
Qed.

(** *** The monad's combinators and the primitives respect a frame *)

Lemma respects_ret {A} (a : A) : respects R (ret a).
Proof. intros st. apply frame_refl. Qed.

Lemma respects_throw {A} e : respects R (@throw A e).
Proof. intros st. apply frame_refl. Qed.

Lemma respects_hang {A} : respects R (@hang A).
Proof. intros st. apply frame_refl. Qed.

Lemma respects_outOfFuel {A} : respects R (@outOfFuel A).
Proof. intros st. apply frame_refl. Qed.

Lemma respects_bind {A B} (m : M A) (k : A -> M B) :
  respects R m -> (forall a, respects R (k a)) -> respects R (bind m k).
Proof.
  intros Hm Hk st. unfold bind. specialize (Hm st).
  destruct (m st) as [[a|e| |] st1]; cbn in *; try assumption.
  eapply frame_trans; [exact Hm|apply Hk].
Qed.

Lemma respects_tryCatch {A} (m : M A) (h : JsValue -> M A) :
  respects R m -> (forall e, respects R (h e)) -> respects R (tryCatch m h).
Proof.
  intros Hm Hh st. unfold tryCatch. specialize (Hm st).
  destruct (m st) as [[a|e| |] st1]; cbn in *; try assumption.
  eapply frame_trans; [exact Hm|apply Hh].
Qed.

Lemma respects_forEach {A} (xs : list A) (body : A -> M unit) :
  (forall x, respects R (body x)) -> respects R (forEach xs body).
Proof.
  intros Hb. induction xs as [|x xs IH]; cbn.
  - apply respects_ret.
  - apply respects_bind; [apply Hb|intros _; exact IH].
Qed.

Lemma respects_await {A} (r : Completion A) : respects R (await r).
Proof. destruct r; intros st; apply frame_refl. Qed.

Lemma respects_perform {A} c (f : W -> A * W) : ok c -> respects R (perform c f).
Proof.
  intros Hc st. unfold perform. destruct (f (world st)) as [a w']. cbn.
  eapply frame_trans; [apply (frame_setWorld w')|now apply frame_addCall].
Qed.

Lemma respects_extcall {A} c (f : Oracle A) : ok c -> respects R (extcall c f).
Proof.
  intros Hc. apply respects_bind; [now apply respects_perform|].
  intros r. apply respects_await.
Qed.

Lemma respects_now : respects R now.
Proof.
  intros st. unfold now. destruct (Date_now (world st)) as [t w']. apply frame_setWorld.
Qed.

Lemma respects_readArray l : respects R (readArray l).
Proof. intros st. apply frame_refl. Qed.

Lemma respects_readQueue s : respects R (readQueue s).
Proof. intros st. apply frame_refl. Qed.

Lemma respects_streamResult s : respects R (streamResult s).
Proof.
  intros st. unfold streamResult.
  destruct (EventStream.finalResult _); apply frame_refl.
Qed.

Lemma respects_pushEvent s e :
  S s -> isAgentEnd e = false -> respects R (pushEvent s e).
Proof. intros Hs He st. apply frame_alterStream; [assumption|]. intros es. now apply E_push. Qed.

Lemma frame_pushEvent s e st :
  S s -> isAgentEnd e = false ->
  R st (setStreams (alter (EventStream.push e) s (streams st)) st).
Proof. intros Hs He. exact (respects_pushEvent s e Hs He st). Qed.

Lemma respects_arrayPush l m : L l -> respects R (arrayPush l m).
Proof. intros Hl st. apply frame_alterArray; [assumption|]. intros v. now exists [m]. Qed.

Lemma respects_newArray v : respects R (newArray v).
Proof. intros st. apply frame_alloc. Qed.

Lemma respects_pollMessages c f :
  f = None \/ ok c -> respects R (pollMessages c f).
Proof.
  intros H. destruct f as [poll|]; cbn; [|apply respects_ret].
  destruct H as [H|H]; [discriminate|]. now apply respects_extcall.
Qed.

Ltac frame_step :=
  first
    [ apply respects_ret | apply respects_throw | apply respects_hang
    | apply respects_outOfFuel | apply respects_await | apply respects_now
    | apply respects_readArray | apply respects_readQueue
    | apply respects_streamResult | apply respects_newArray
    | apply respects_pushEvent; [assumption|reflexivity]
    | apply respects_arrayPush; assumption
    | apply respects_perform; apply ok_other; reflexivity
    | apply respects_extcall; apply ok_other; reflexivity
    | apply respects_bind; [|intros ?]
    | apply respects_tryCatch; [|intros ?]
    | apply respects_forEach; intros ?
    | match goal with
      | |- respects _ (match ?x with _ => _ end) => destruct x
      end ].

Ltac frame_tac := repeat frame_step.

(** *** The response loop *)

Lemma setLast_snoc (a : list AgentMessage) (x m : AgentMessage) :
  <[List.length (a ++ [x]) - 1 := m]> (a ++ [x]) = a ++ [m].
Proof.
  rewrite length_app. cbn.
  replace (List.length a + 1 - 1) with (List.length a + 0) by lia.
  now rewrite insert_app_r.
Qed.

(** Replacing the last slot keeps a frame that started before the slot
    was pushed. *)
Lemma frame_setLast st0 st l m :
  L l -> R st0 st ->
  (forall v, arrays st0 !! l = Some v ->
     exists ext x, arrays st !! l = Some (v ++ ext ++ [x])) ->
  let st' := setArrays (alter (fun a => <[List.length a - 1 := m]> a) l (arrays st)) st in
  R st0 st' /\
  (forall v, arrays st0 !! l = Some v ->
     exists ext x, arrays st' !! l = Some (v ++ ext ++ [x])).
Proof.
  intros Hl [Hc Ha Hs] Hlast st'. split; [split|].
  - exact Hc.
  - intros i v Hi. subst st'. cbn [arrays setArrays].
    destruct (decide (l = i)) as [->|Hne].
    + destruct (Hlast v Hi) as [ext [x Hx]].
      exists (ext ++ [m]). rewrite list_lookup_alter_eq, Hx. cbn.
      rewrite (app_assoc v ext [x]), setLast_snoc, <- app_assoc.
      split; [reflexivity|]. intros HL; contradiction.
    + rewrite list_lookup_alter_ne by assumption. apply Ha, Hi.
  - exact Hs.
  - intros v Hv. subst st'. cbn [arrays setArrays].
    destruct (Hlast v Hv) as [ext [x Hx]]. exists ext, m.
    rewrite list_lookup_alter_eq, Hx. cbn.
    now rewrite (app_assoc v ext [x]), setLast_snoc, <- app_assoc.
Qed.

Lemma respects_pushFinal context stream (finalMessage : AssistantMessage) :
  L (messages context) -> S stream ->
  respects R
    (arrayPush (messages context) (MAssistant finalMessage) ;;
     pushEvent stream (message_start (MAssistant finalMessage)) ;;
     pushEvent stream (message_end (MAssistant finalMessage)) ;;
     ret finalMessage).
Proof. intros HL HS. frame_tac. Qed.

Lemma frame_consumeEvents context stream response events :
  L (messages context) -> S stream ->
  forall partialMessage addedPartial st0 st,
    R st0 st ->
    (partialMessage <> None -> addedPartial = true) ->
    (addedPartial = true ->
       forall v, arrays st0 !! messages context = Some v ->
         exists ext x, arrays st !! messages context = Some (v ++ ext ++ [x])) ->
    R st0 (snd (consumeEvents context stream response events
                  partialMessage addedPartial st)).
Proof.
  intros HL HS. induction events as [|event rest IH];
    intros pm ap st0 st HR Hpm Hap; [exact HR|].
  destruct event as [partial|kind partial|msg|err]; cbn [consumeEvents].
  - (* start *)
    unfold bind at 1. cbn [arrayPush]. unfold bind at 1. cbn [pushEvent].
    apply IH; [|reflexivity|].
    + eapply frame_trans; [exact HR|].
      eapply frame_trans;
        [apply (respects_arrayPush (messages context) (MAssistant partial) HL st)|].
      apply frame_pushEvent; [exact HS|reflexivity].
    + intros _ v Hv. destruct (frame_arrays _ _ _ _ _ _ HR _ _ Hv) as [ext [Hext _]].
      exists ext, (MAssistant partial). cbn [arrays setStreams setArrays].
      rewrite list_lookup_alter_eq, Hext. cbn. now rewrite <- app_assoc.
  - (* update *)
    destruct pm as [old|]; [|now apply IH].
    assert (ap = true) as -> by (apply Hpm; discriminate).
    unfold bind at 1. cbn [arraySetLast]. unfold bind at 1. cbn [pushEvent].
    destruct (frame_setLast st0 st (messages context) (MAssistant partial) HL HR
                (Hap eq_refl)) as [HR' Hlast'].
    apply IH; [|reflexivity|].
    + eapply frame_trans; [exact HR'|].
      apply frame_pushEvent; [exact HS|reflexivity].
    + intros _ v Hv. apply (Hlast' v Hv).
  - (* done *)
    destruct ap.
    + unfold bind at 1. cbn [arraySetLast]. unfold bind at 1. cbn [ret].
      unfold bind at 1. cbn [pushEvent ret snd].
      destruct (frame_setLast st0 st (messages context)
                  (MAssistant (resp_result response)) HL HR (Hap eq_refl)) as [HR' _].
      eapply frame_trans; [exact HR'|].
      apply frame_pushEvent; [exact HS|reflexivity].
    + eapply frame_trans; [exact HR|].
      exact (respects_pushFinal context stream (resp_result response) HL HS st).
  - (* error *)
    destruct ap.
    + unfold bind at 1. cbn [arraySetLast]. unfold bind at 1. cbn [ret].
      unfold bind at 1. cbn [pushEvent ret snd].
      destruct (frame_setLast st0 st (messages context)
                  (MAssistant (resp_result response)) HL HR (Hap eq_refl)) as [HR' _].
      eapply frame_trans; [exact HR'|].
      apply frame_pushEvent; [exact HS|reflexivity].
    + eapply frame_trans; [exact HR|].
      exact (respects_pushFinal context stream (resp_result response) HL HS st).
Qed.

Lemma respects_streamAssistantResponse context config signal stream streamFn :
  L (messages context) -> S stream ->
  respects R (streamAssistantResponse context config signal stream streamFn).
Proof.
  intros HL HS. unfold streamAssistantResponse. frame_tac.
  all: intros st; apply frame_consumeEvents;
    [assumption|assumption|apply frame_refl|congruence|discriminate].
Qed.

(** *** The dispatcher *)

Lemma respects_runTool tool toolCall signal stream :
  S stream -> respects R (runTool tool toolCall signal stream).
Proof. intros HS. unfold runTool, invokeTool. frame_tac. Qed.

Lemma respects_dispatchToolCall context newMessages toolCall signal stream :
  L (messages context) -> L newMessages -> S stream ->
  respects R (dispatchToolCall context newMessages toolCall signal stream).
Proof. intros HL HN HS. unfold dispatchToolCall, runTool, invokeTool. frame_tac. Qed.

Lemma respects_skipToolCall toolCall stream :
  S stream -> respects R (skipToolCall toolCall stream).
Proof. intros HS. unfold skipToolCall. frame_tac. Qed.

Lemma respects_skipRemaining context newMessages remainingCalls stream results :
  L (messages context) -> L newMessages -> S stream ->
  respects R (skipRemaining context newMessages remainingCalls stream results).
Proof.
  intros HL HN HS. revert results.
  induction remainingCalls as [|skipped rest IH]; intros results; cbn [skipRemaining].
  - apply respects_ret.
  - apply respects_bind; [now apply respects_skipToolCall|intros r].
    frame_tac. apply IH.
Qed.

(** *** Advisors *)

Variable nestedLoop : AgentLoopFn.
Hypothesis nested_preserved :
  forall advisor prompts context signal streamFn st,
    preserved ok st
      (snd (nestedLoop prompts context (advisorConfigOf advisor) signal streamFn st)).

Lemma preserved_frame st st' : preserved ok st st' -> R st st'.
Proof.
  intros [Hc Ha Hs]. split; [exact Hc| |].
  - intros i v Hi. destruct (Ha i v Hi) as [ext [Hext Hnil]].
    rewrite (Hnil (fun F => F)) in Hext. exists []. split; [assumption|reflexivity].
  - intros i es Hi. destruct (Hs i es Hi) as [es' [Hes [_ Heq]]].
    rewrite (Heq (fun F => F)) in Hes. exists es.
    repeat split; [assumption|reflexivity].
Qed.

Lemma respects_spawn advisor prompts context signal streamFn :
  respects R
    (spawn (nestedLoop prompts context (advisorConfigOf advisor) signal streamFn)).
Proof.
  intros st. unfold spawn.
  pose proof (nested_preserved advisor prompts context signal streamFn st) as H.
  destruct (nestedLoop _ _ _ _ _ st) as [r st']. cbn in *. now apply preserved_frame.
Qed.

Lemma respects_awaitEnd out : respects R (awaitEnd out).
Proof. destruct out; cbn; frame_tac. Qed.

Lemma respects_createAdvisorMessage name modelId body :
  respects R (createAdvisorMessage name modelId body).
Proof. unfold createAdvisorMessage. frame_tac. Qed.

Lemma respects_runAdvisor advisor params parentStream signal streamFn :
  S parentStream ->
  respects R (runAdvisor nestedLoop advisor params parentStream signal streamFn).
Proof.
  intros HS. unfold runAdvisor.
  repeat first
    [ apply respects_spawn | apply respects_awaitEnd
    | apply respects_createAdvisorMessage | frame_step ].
Qed.

Lemma respects_handleAdvisorsLoop advisors context newMessages toolCall toolResult
    stream signal streamFn :
  L (messages context) -> L newMessages -> S stream ->
  respects R
    (handleAdvisorsLoop nestedLoop advisors context newMessages toolCall toolResult
       stream signal streamFn).
Proof.
  intros HL HN HS. induction advisors as [|advisor rest IH]; cbn [handleAdvisorsLoop].
  - apply respects_ret.
  - repeat first [ apply IH | now apply respects_runAdvisor | frame_step ].
Qed.

Lemma respects_handleAdvisors advisors context newMessages toolCall toolResult
    stream signal streamFn :
  L (messages context) -> L newMessages -> S stream ->
  respects R
    (handleAdvisors nestedLoop advisors context newMessages toolCall toolResult
       stream signal streamFn).
Proof.
  intros HL HN HS. destruct advisors as [l|]; cbn.
  - now apply respects_handleAdvisorsLoop.
  - apply respects_ret.
Qed.

Lemma respects_executeToolCallsFrom context newMessages toolCalls config signal
    stream streamFn results :
  L (messages context) -> L newMessages -> S stream ->
  getSteeringMessages config = None \/ ok CallGetSteeringMessages ->
  respects R
    (executeToolCallsFrom nestedLoop context newMessages toolCalls config signal
       stream streamFn results).
Proof.
  intros HL HN HS Hpoll. revert results.
  induction toolCalls as [|toolCall rest IH]; intros results;
    cbn [executeToolCallsFrom].
  - apply respects_ret.
  - apply respects_bind; [now apply respects_dispatchToolCall|intros trm].
    apply respects_bind; [now apply respects_handleAdvisors|intros _].
    destruct (getSteeringMessages config) as [poll|] eqn:Hcfg; [|apply IH].
    destruct Hpoll as [Hpoll|Hpoll]; [discriminate|].
    apply respects_bind; [now apply respects_extcall|intros steering].
    destruct (nonEmpty steering); [|apply IH].
    apply respects_bind; [now apply respects_skipRemaining|intros skipped].
    apply respects_ret.
Qed.

(** *** The loop *)

Hypothesis E_finish :
  forall v es,
    E es (EventStream.end_ v (EventStream.push (agent_end v) es)).

Lemma respects_injectPending context newMessages stream pendingMessages :
  L (messages context) -> L newMessages -> S stream ->
  respects R (injectPending context newMessages stream pendingMessages).
Proof. intros HL HN HS. unfold injectPending. frame_tac. Qed.

Lemma respects_finish newMessages stream :
  S stream -> respects R (finish newMessages stream).
Proof.
  intros HS st. unfold finish, bind, readArray, pushEvent, endStream.
  cbn [snd streams setStreams].
  rewrite list_alter_alter_eq.
  replace (setStreams _ _) with
    (setStreams
       (alter (EventStream.end_ (arrays st !!! newMessages)
                 ∘ EventStream.push (agent_end (arrays st !!! newMessages)))
          stream (streams st)) st) by reflexivity.
  apply frame_alterStream; [assumption|]. intros es. apply E_finish.
Qed.

Lemma respects_runLoopFrom fuel context newMessages config signal stream streamFn :
  L (messages context) -> L newMessages -> S stream ->
  getSteeringMessages config = None \/ ok CallGetSteeringMessages ->
  getFollowUpMessages config = None \/ ok CallGetFollowUpMessages ->
  forall firstTurn hasMoreToolCalls pendingMessages steeringAfterTools,
    respects R
      (runLoopFrom nestedLoop fuel context newMessages config signal stream
         streamFn firstTurn hasMoreToolCalls pendingMessages steeringAfterTools).
Proof.
  intros HL HN HS Hsteer Hfollow.
  induction fuel as [|fuel IH]; intros firstTurn hasMore pending steering;
    cbn [runLoopFrom];
    repeat first
      [ apply IH
      | now apply respects_finish
      | now apply respects_injectPending
      | now apply respects_streamAssistantResponse
      | now apply respects_executeToolCallsFrom
      | now apply respects_pollMessages
      | frame_step ].
Qed.

Lemma respects_runLoop fuel context newMessages config signal stream streamFn :
  L (messages context) -> L newMessages -> S stream ->
  getSteeringMessages config = None \/ ok CallGetSteeringMessages ->
  getFollowUpMessages config = None \/ ok CallGetFollowUpMessages ->
  respects R
    (runLoop nestedLoop fuel context newMessages config signal stream streamFn).
Proof.
  intros HL HN HS Hsteer Hfollow. unfold runLoop.
  apply respects_bind; [now apply respects_pollMessages|intros pending].
  now apply respects_runLoopFrom.
Qed.

End Frames.

(** *** Whole runs *)

Definition pollsOK (ok : Call -> Prop) (config : AgentLoopConfig) : Prop :=
  (getSteeringMessages config = None \/ ok CallGetSteeringMessages) /\
  (getFollowUpMessages config = None \/ ok CallGetFollowUpMessages).

Lemma advisorConfig_pollsOK ok advisor : pollsOK ok (advisorConfigOf advisor).
Proof. split; left; reflexivity. Qed.

Lemma agentLoop_0 : agentLoop 0 = agentLoopWith noFuel 0.
Proof. reflexivity. Qed.

Lemma agentLoop_S fuel : agentLoop (S fuel) = agentLoopWith (agentLoop fuel) (S fuel).
Proof. reflexivity. Qed.

(** The nested runs that a run of depth [fuel] starts. *)
Definition nestedAt (fuel : nat) : AgentLoopFn :=
  match fuel with O => noFuel | S fuel' => agentLoop fuel' end.

Lemma agentLoop_unfold fuel : agentLoop fuel = agentLoopWith (nestedAt fuel) fuel.
Proof. destruct fuel; reflexivity. Qed.

Definition oneOf (a b : nat) : nat -> Prop := fun i => i = a \/ i = b.

Section Runs.

Variable ok : Call -> Prop.
Hypothesis ok_other : forall c, isPoll c = false -> ok c.

Variable nestedLoop : AgentLoopFn.
Hypothesis nested_preserved :
  forall advisor prompts context signal streamFn st,
    preserved ok st
      (snd (nestedLoop prompts context (advisorConfigOf advisor) signal streamFn st)).

Lemma agentLoopBody_frame fuel prompts context config signal s streamFn st0 :
  pollsOK ok config ->
  frame ok (fun i => List.length (arrays st0) <= i) (fun i => i = s) runStep st0
    (snd (agentLoopBody nestedLoop fuel prompts context config signal s streamFn st0)).
Proof.
  intros [Hsteer Hfollow].
  set (R := frame ok (fun i => List.length (arrays st0) <= i) (fun i => i = s) runStep).
  assert (Hpre : PreOrder R) by (apply frame_preorder; typeclasses eauto).
  unfold agentLoopBody.
  unfold bind at 1. cbn [newArray]. unfold bind at 1. cbn [readArray].
  unfold bind at 1. cbn [newArray].
  match goal with
  | |- R st0 (snd (?m ?st2)) =>
      transitivity st2;
        [|cut (respects R m); [intros Hr; exact (Hr st2)|]]
  end.
  - transitivity (setArrays (arrays st0 ++ [prompts]) st0);
      apply frame_alloc; typeclasses eauto.
  - pose proof runStep_push as Hpush. subst R.
    repeat first
      [ apply (respects_runLoop ok _ _ runStep Hpush ok_other
                 nestedLoop nested_preserved runStep_finish);
        [cbn; rewrite length_app; cbn; lia|cbn; lia|reflexivity
        |assumption|assumption]
      | apply (respects_bind ok _ _ runStep); [|intros ?]
      | apply (respects_forEach ok _ _ runStep); intros ?
      | apply (respects_pushEvent ok _ _ runStep Hpush);
        [reflexivity|reflexivity] ].
Qed.

(** A run started with [agentLoop] works on a stream and on arrays of
    its own: whatever existed before is as it was, and its stream has
    moved along [runStep] from the empty stream. *)
Lemma agentLoopWith_run fuel prompts context config signal streamFn st :
  pollsOK ok config ->
  let r := agentLoopWith nestedLoop fuel prompts context config signal streamFn st in
  fst (fst r) = List.length (streams st) /\
  preserved ok st (snd r) /\
  exists es, streams (snd r) !! fst (fst r) = Some es /\
             runStep EventStream.create es.
Proof.
  intros Hp. unfold agentLoopWith, createAgentStream.
  set (s := List.length (streams st)).
  set (st0 := setStreams _ st).
  pose proof (agentLoopBody_frame fuel prompts context config signal s streamFn st0 Hp)
    as [Hc Ha Hs].
  destruct (agentLoopBody _ _ _ _ _ _ _ _ st0) as [out st'].
  cbn [fst snd] in *.
  split; [reflexivity|]. split; [split|].
  - exact Hc.
  - intros i v Hi.
    assert (Hlt : i < List.length (arrays st)) by (eapply lookup_lt_Some; exact Hi).
    destruct (Ha i v Hi) as [ext [Hext Hnil]]. exists ext. split; [assumption|].
    intros _. apply Hnil. subst st0. cbn [arrays setStreams]. lia.
  - intros i es Hi.
    assert (Hlt : i < s) by (eapply lookup_lt_Some; exact Hi).
    assert (H2 : streams st0 !! i = Some es).
    { subst st0. cbn [streams setStreams]. now apply lookup_app_l_Some. }
    destruct (Hs i es H2) as [es' [Hes [_ Hsame]]]. exists es'.
    split; [assumption|]. split; [intros []|]. intros _. apply Hsame. lia.
  - assert (H2 : streams st0 !! s = Some EventStream.create).
    { subst st0. cbn [streams setStreams]. subst s.
      rewrite lookup_app_r by lia. now rewrite Nat.sub_diag. }
    destruct (Hs s _ H2) as [es' [Hes [Hstep _]]]. exists es'.
    split; [assumption|]. now apply Hstep.
Qed.

End Runs.

(** Runs of any depth leave what existed before untouched. *)
Lemma agentLoop_preserved (ok : Call -> Prop) :
  (forall c, isPoll c = false -> ok c) ->
  forall fuel prompts context config signal streamFn st,
    pollsOK ok config ->
    preserved ok st (snd (agentLoop fuel prompts context config signal streamFn st)).
Proof.
  intros Hok. induction fuel as [|fuel IH]; intros prompts context config signal streamFn st Hp.
  - rewrite agentLoop_0.
    apply (agentLoopWith_run ok Hok noFuel); [|assumption].
    intros. apply frame_refl. typeclasses eauto.
  - rewrite agentLoop_S.
    apply (agentLoopWith_run ok Hok (agentLoop fuel)); [|assumption].
    intros. apply IH, advisorConfig_pollsOK.
Qed.

Lemma nestedAt_preserved (ok : Call -> Prop) :
  (forall c, isPoll c = false -> ok c) ->
  forall fuel advisor prompts context signal streamFn st,
    preserved ok st
      (snd (nestedAt fuel prompts context (advisorConfigOf advisor) signal streamFn st)).
Proof.
  intros Hok [|fuel] advisor prompts context signal streamFn st; cbn [nestedAt].
  - apply frame_refl. typeclasses eauto.
  - apply agentLoop_preserved; [assumption|apply advisorConfig_pollsOK].
Qed.

(** *** What holds when a computation returns *)

(** [ensures Q m]: whenever [m] returns, [Q] holds of the state it
    returns in. *)
Definition ensures {A} (Q : State -> Prop) (m : M A) : Prop :=
  forall st a st', m st = (Done a, st') -> Q st'.

Lemma ensures_bind {A B} Q (m : M A) (k : A -> M B) :
  (forall a, ensures Q (k a)) -> ensures Q (bind m k).
Proof.
  intros Hk st b st' H. unfold bind in H.
  destruct (m st) as [[a|e| |] st1]; try discriminate.
  eapply Hk, H.
Qed.

Lemma ensures_outOfFuel {A} Q : ensures Q (@outOfFuel A).
Proof. intros st a st' H. discriminate. Qed.

Definition sealedAt (s : sid) (st : State) : Prop :=
  forall es, streams st !! s = Some es -> EventStream.sealed es = true.

Lemma ensures_finish newMessages stream :
  ensures (sealedAt stream) (finish newMessages stream).
Proof.
  intros st a st' H. unfold finish, bind, readArray, pushEvent, endStream in H.
  injection H as _ <-. intros es. cbn [streams setStreams].
  rewrite list_lookup_alter_eq.
  destruct (alter _ _ _ !! stream); [|discriminate].
  intros [= <-]. apply end_sealed.
Qed.

Lemma ensures_runLoopFrom nestedLoop fuel context newMessages config signal stream
    streamFn :
  forall firstTurn hasMoreToolCalls pendingMessages steeringAfterTools,
    ensures (sealedAt stream)
      (runLoopFrom nestedLoop fuel context newMessages config signal stream
         streamFn firstTurn hasMoreToolCalls pendingMessages steeringAfterTools).
Proof.
  induction fuel as [|fuel IH]; intros firstTurn hasMore pending steering;
    cbn [runLoopFrom];
    repeat first
      [ apply IH
      | apply ensures_finish
      | apply ensures_outOfFuel
      | apply ensures_bind; intros ?
      | match goal with
        | |- ensures _ (match ?x with _ => _ end) => destruct x
        end ].
Qed.

Lemma ensures_runLoop nestedLoop fuel context newMessages config signal stream streamFn :
  ensures (sealedAt stream)
    (runLoop nestedLoop fuel context newMessages config signal stream streamFn).
Proof. apply ensures_bind. intros pending. apply ensures_runLoopFrom. Qed.

Lemma ensures_agentLoopBody nestedLoop fuel prompts context config signal stream streamFn :
  ensures (sealedAt stream)
    (agentLoopBody nestedLoop fuel prompts context config signal stream streamFn).
Proof.
  unfold agentLoopBody. do 6 (apply ensures_bind; intros ?). apply ensures_runLoop.
Qed.

Lemma ensures_agentLoopContinueBody nestedLoop fuel context config signal stream streamFn :
  ensures (sealedAt stream)
    (agentLoopContinueBody nestedLoop fuel context config signal stream streamFn).
Proof.
  unfold agentLoopContinueBody. do 3 (apply ensures_bind; intros ?).
  apply ensures_runLoop.
Qed.

(** What a stream that started empty looks like after [runStep]. *)
Definition endedOnce (es : EventStream.t) : Prop :=
  exists pre v,
    EventStream.queue es = pre ++ [agent_end v] /\ quietEvents pre /\
    EventStream.sealed es = true /\ EventStream.finalResult es = Some v.

Definition stillOpen (es : EventStream.t) : Prop :=
  quietEvents (EventStream.queue es) /\ EventStream.sealed es = false.

Lemma runStep_create es :
  runStep EventStream.create es -> stillOpen es \/ endedOnce es.
Proof.
  intros [[evs [-> Hq]]|[evs [v [-> Hq]]]].
  - left. rewrite pushAll_open by reflexivity. split; [exact Hq|reflexivity].
  - right. rewrite pushAll_open by reflexivity. exists evs, v.
    repeat split; assumption.
Qed.

Lemma quiet_no_end (evs pre post : list AgentEvent) e :
  quietEvents evs -> evs = pre ++ e :: post -> isAgentEnd e = true -> False.
Proof.
  intros Hq -> He. apply Forall_app in Hq as [_ Hq].
  inversion Hq; subst. congruence.
Qed.

(** In a stream that is open or has ended once, an [agent_end] can
    only be the last event, after events that are not [agent_end]. *)
Lemma agent_end_is_last es :
  stillOpen es \/ endedOnce es ->
  forall pre e post,
    EventStream.queue es = pre ++ e :: post -> isAgentEnd e = true ->
    post = [] /\ quietEvents pre.
Proof.
  intros [[Hq _]|[pre0 [v [Hqueue [Hq _]]]]] pre e post Heq He.
  - exfalso. eapply quiet_no_end; eassumption.
  - rewrite Hqueue in Heq.
    destruct post as [|p post].
    + apply app_inj_tail in Heq as [-> _]. split; [reflexivity|assumption].
    + exfalso.
      assert (Hsplit : pre0 = pre ++ e :: removelast (p :: post)).
      { pose proof (@app_removelast_last _ (p :: post) p ltac:(discriminate)) as Hl.
        rewrite Hl in Heq at 1.
        change (pre ++ e :: (removelast (p :: post) ++ [List.last (p :: post) p]))
          with (pre ++ (e :: removelast (p :: post)) ++ [List.last (p :: post) p]) in Heq.
        rewrite app_assoc in Heq.
        now apply app_inj_tail in Heq as [-> _]. }
      eapply quiet_no_end; [exact Hq|exact Hsplit|exact He].
Qed.

Section ContinueRuns.

Variable ok : Call -> Prop.
Hypothesis ok_other : forall c, isPoll c = false -> ok c.

Variable nestedLoop : AgentLoopFn.
Hypothesis nested_preserved :
  forall advisor prompts context signal streamFn st,
    preserved ok st
      (snd (nestedLoop prompts context (advisorConfigOf advisor) signal streamFn st)).

Lemma agentLoopContinueBody_frame fuel context config signal s streamFn st0 :
  pollsOK ok config ->
  frame ok (fun i => i = messages context \/ List.length (arrays st0) <= i)
    (fun i => i = s) runStep st0
    (snd (agentLoopContinueBody nestedLoop fuel context config signal s streamFn st0)).
Proof.
  intros [Hsteer Hfollow].
  set (R := frame ok (fun i => i = messages context \/ List.length (arrays st0) <= i)
              (fun i => i = s) runStep).
  assert (Hpre : PreOrder R) by (apply frame_preorder; typeclasses eauto).
  unfold agentLoopContinueBody.
  unfold bind at 1. cbn [newArray].
  match goal with
  | |- R st0 (snd (?m ?st2)) =>
      transitivity st2;
        [|cut (respects R m); [intros Hr; exact (Hr st2)|]]
  end.
  - apply frame_alloc; typeclasses eauto.
  - pose proof runStep_push as Hpush. subst R.
    repeat first
      [ apply (respects_runLoop ok _ _ runStep Hpush ok_other
                 nestedLoop nested_preserved runStep_finish);
        [left; reflexivity|right; cbn; lia|reflexivity|assumption|assumption]
      | apply (respects_bind ok _ _ runStep); [|intros ?]
      | apply (respects_pushEvent ok _ _ runStep Hpush);
        [reflexivity|reflexivity] ].
Qed.

(** A run started with [agentLoopContinue] works on the caller's array
    and on a stream of its own. *)
Lemma agentLoopContinueWith_run fuel context config signal streamFn st s out st' :
  pollsOK ok config ->
  agentLoopContinueWith nestedLoop fuel context config signal streamFn st
    = inr ((s, out), st') ->
  s = List.length (streams st) /\
  frame ok (fun i => i = messages context) nowhere eq st st' /\
  exists es, streams st' !! s = Some es /\ runStep EventStream.create es.
Proof.
  intros Hp. unfold agentLoopContinueWith, createAgentStream.
  destruct (Nat.eqb _ 0); [discriminate|].
  set (s0 := List.length (streams st)).
  set (st0 := setStreams _ st).
  pose proof (agentLoopContinueBody_frame fuel context config signal s0 streamFn st0 Hp)
    as [Hc Ha Hs].
  destruct (agentLoopContinueBody _ _ _ _ _ _ _ st0) as [out0 st0'].
  cbn [fst snd] in *. intros Heq.
  assert (Hres : inr ((s0, out0), st0')
                 = (inr ((s, out), st') : JsValue + (sid * Outcome unit) * State)).
  { destruct (last (arrays st !!! messages context)) as [[| | | |]|];
      first [discriminate|exact Heq]. }
  injection Hres as <- <- <-. clear Heq.
  split; [reflexivity|]. split; [split|].
  - exact Hc.
  - intros i v Hi.
    assert (Hlt : i < List.length (arrays st)) by (eapply lookup_lt_Some; exact Hi).
    destruct (Ha i v Hi) as [ext [Hext Hnil]]. exists ext. split; [assumption|].
    intros Hne. apply Hnil. subst st0. cbn [arrays setStreams]. intros [?|?]; [auto|lia].
  - intros i es Hi.
    assert (Hlt : i < s0) by (eapply lookup_lt_Some; exact Hi).
    assert (H2 : streams st0 !! i = Some es).
    { subst st0. cbn [streams setStreams]. now apply lookup_app_l_Some. }
    destruct (Hs i es H2) as [es' [Hes [_ Hsame]]]. exists es'.
    split; [assumption|]. split; [intros []|]. intros _. apply Hsame. lia.
  - assert (H2 : streams st0 !! s0 = Some EventStream.create).
    { subst st0. cbn [streams setStreams]. subst s0.
      rewrite lookup_app_r by lia. now rewrite Nat.sub_diag. }
    destruct (Hs s0 _ H2) as [es' [Hes [Hstep _]]]. exists es'.
    split; [assumption|]. now apply Hstep.
Qed.

End ContinueRuns.

Definition anyCall : Call -> Prop := fun _ => True.

Lemma anyCall_other c : isPoll c = false -> anyCall c.
Proof. intros _. exact I. Qed.

Lemma pollsOK_anyCall config : pollsOK anyCall config.
Proof. split; right; exact I. Qed.

Lemma agentLoopWith_sealed nestedLoop fuel prompts context config signal streamFn st es :
  let r := agentLoopWith nestedLoop fuel prompts context config signal streamFn st in
  snd (fst r) = Done tt ->
  streams (snd r) !! fst (fst r) = Some es ->
  EventStream.sealed es = true.
Proof.
  unfold agentLoopWith, createAgentStream.
  destruct (agentLoopBody _ _ _ _ _ _ _ _ _) as [out st'] eqn:Hb.
  cbn [fst snd]. intros -> Hes.
  exact (ensures_agentLoopBody _ _ _ _ _ _ _ _ _ _ _ Hb es Hes).
Qed.

Lemma agentLoopContinueWith_sealed nestedLoop fuel context config signal streamFn st
    s st' es :
  agentLoopContinueWith nestedLoop fuel context config signal streamFn st
    = inr ((s, Done tt), st') ->
  streams st' !! s = Some es ->
  EventStream.sealed es = true.
Proof.
  unfold agentLoopContinueWith, createAgentStream.
  destruct (Nat.eqb _ 0); [discriminate|].
  destruct (agentLoopContinueBody _ _ _ _ _ _ _ _) as [out0 st0'] eqn:Hb.
  intros Heq Hes.
  assert (Hres : inr ((List.length (streams st), out0), st0')
                 = (inr ((s, Done tt), st') : JsValue + (sid * Outcome unit) * State)).
  { destruct (last (arrays st !!! messages context)) as [[| | | |]|];
      first [discriminate|exact Heq]. }
  injection Hres as <- -> <-.
  exact (ensures_agentLoopContinueBody _ _ _ _ _ _ _ _ _ _ Hb es Hes).
Qed.

(** How a run leaves its stream: an [agent_end] is never followed by
    another event nor preceded by another [agent_end], and a run whose
    body returned has pushed exactly one, last, and sealed the stream. *)
Definition properlyEnded (out : Outcome unit) (es : EventStream.t) : Prop :=
  (forall pre e post,
     EventStream.queue es = pre ++ e :: post -> isAgentEnd e = true ->
     post = [] /\ quietEvents pre) /\
  (out = Done tt -> endedOnce es).

Lemma properlyEnded_intro out es :
  runStep EventStream.create es ->
  (out = Done tt -> EventStream.sealed es = true) ->
  properlyEnded out es.
Proof.
  intros Hstep Hsealed. apply runStep_create in Hstep. split.
  - now apply agent_end_is_last.
  - intros Hout. destruct Hstep as [[_ Hopen]|Hended]; [|assumption].
    rewrite (Hsealed Hout) in Hopen. discriminate.
Qed.

(** *** What a computation appends to the log and to [newMessages] *)

Definition anyStream : relation EventStream.t := fun _ _ => True.

#[local] Instance anyStream_preorder : PreOrder anyStream.
Proof. split; [intros x|intros x y z _ _]; exact I. Qed.

Lemma anyStream_push e es : isAgentEnd e = false -> anyStream es (EventStream.push e es).
Proof. intros _. exact I. Qed.

Definition everywhere : nat -> Prop := fun _ => True.

(** Arrays are left as they are, whatever happens to streams and calls. *)
Definition offLog : relation State := frame anyCall nowhere everywhere anyStream.

Section Appends.

Variables l nm : loc.
Hypothesis l_nm : l <> nm.

Definition logs (v vn : list AgentMessage) (st : State) : Prop :=
  arrays st !! l = Some v /\ arrays st !! nm = Some vn.

Definition logStep (seg segn : list AgentMessage) (st st' : State) : Prop :=
  forall v vn, logs v vn st -> logs (v ++ seg) (vn ++ segn) st'.

(** [appends P m]: when [m] returns [a], it has appended some [seg]
    to the log and [segn] to [newMessages], with [P a seg segn]. *)
Definition appends {A} (P : A -> list AgentMessage -> list AgentMessage -> Prop)
    (m : M A) : Prop :=
  forall st a st', m st = (Done a, st') ->
    exists seg segn, logStep seg segn st st' /\ P a seg segn.

Definition silent {A} (m : M A) : Prop :=
  appends (fun _ seg segn => seg = [] /\ segn = []) m.

Lemma logStep_nil st st' :
  (forall i v, arrays st !! i = Some v -> arrays st' !! i = Some v) ->
  logStep [] [] st st'.
Proof.
  intros H v vn [Hv Hvn]. rewrite !app_nil_r. split; apply H; assumption.
Qed.

Lemma logStep_trans s1 n1 s2 n2 a b c :
  logStep s1 n1 a b -> logStep s2 n2 b c -> logStep (s1 ++ s2) (n1 ++ n2) a c.
Proof.
  intros H1 H2 v vn Hl. rewrite !app_assoc. apply H2, H1, Hl.
Qed.

Lemma offLog_logStep st st' : offLog st st' -> logStep [] [] st st'.
Proof.
  intros [_ Ha _]. apply logStep_nil. intros i v Hi.
  destruct (Ha i v Hi) as [ext [Hext Hnil]].
  rewrite (Hnil (fun F => F)), app_nil_r in Hext. exact Hext.
Qed.

Lemma silent_of_respects {A} (m : M A) : respects offLog m -> silent m.
Proof.
  intros Hm st a st' Hrun. exists [], []. split; [|split; reflexivity].
  apply offLog_logStep. specialize (Hm st). now rewrite Hrun in Hm.
Qed.

Lemma appends_ret {A} (P : A -> _ -> _ -> Prop) a : P a [] [] -> appends P (ret a).
Proof.
  intros HP st a' st' [= <- <-]. exists [], []. split; [|exact HP].
  apply logStep_nil. auto.
Qed.

Lemma appends_weaken {A} (P Q : A -> _ -> _ -> Prop) m :
  appends P m -> (forall a seg segn, P a seg segn -> Q a seg segn) -> appends Q m.
Proof.
  intros Hm HPQ st a st' Hrun. destruct (Hm st a st' Hrun) as [seg [segn [Hs HP]]].
  exists seg, segn. split; [assumption|now apply HPQ].
Qed.

Lemma appends_bind {A B} (P1 : A -> _ -> _ -> Prop) (P : B -> _ -> _ -> Prop)
    (m : M A) (k : A -> M B) :
  appends P1 m ->
  (forall a s1 n1, P1 a s1 n1 ->
     appends (fun b s2 n2 => P b (s1 ++ s2) (n1 ++ n2)) (k a)) ->
  appends P (bind m k).
Proof.
  intros Hm Hk st b st' Hrun. unfold bind in Hrun.
  destruct (m st) as [[a|e| |] st1] eqn:Hm1; try discriminate.
  destruct (Hm st a st1 Hm1) as [s1 [n1 [Hs1 HP1]]].
  destruct (Hk a s1 n1 HP1 st1 b st' Hrun) as [s2 [n2 [Hs2 HP2]]].
  exists (s1 ++ s2), (n1 ++ n2). split; [|exact HP2].
  eapply logStep_trans; eassumption.
Qed.

Lemma appends_silent_bind {A B} (P : B -> _ -> _ -> Prop) (m : M A) (k : A -> M B) :
  silent m -> (forall a, appends P (k a)) -> appends P (bind m k).
Proof.
  intros Hm Hk. eapply appends_bind; [exact Hm|].
  intros a s1 n1 [-> ->]. cbn. apply Hk.
Qed.

Lemma appends_push_log {A} (P : A -> _ -> _ -> Prop) x (k : M A) :
  appends (fun a seg segn => P a (x :: seg) segn) k ->
  appends P (arrayPush l x ;; k).
Proof.
  intros Hk. eapply appends_bind with (P1 := fun _ seg segn => seg = [x] /\ segn = []).
  - intros st a st' [= <- <-]. exists [x], []. split; [|split; reflexivity].
    intros v vn [Hv Hvn]. unfold logs. cbn [arrays setArrays].
    rewrite list_lookup_alter_eq, Hv, list_lookup_alter_ne, Hvn, app_nil_r by exact l_nm.
    split; reflexivity.
  - intros _ s1 n1 [-> ->]. exact Hk.
Qed.

Lemma appends_push_new {A} (P : A -> _ -> _ -> Prop) x (k : M A) :
  appends (fun a seg segn => P a seg (x :: segn)) k ->
  appends P (arrayPush nm x ;; k).
Proof.
  intros Hk. eapply appends_bind with (P1 := fun _ seg segn => seg = [] /\ segn = [x]).
  - intros st a st' [= <- <-]. exists [], [x]. split; [|split; reflexivity].
    intros v vn [Hv Hvn]. unfold logs. cbn [arrays setArrays].
    rewrite list_lookup_alter_eq, Hvn, list_lookup_alter_ne, Hv, app_nil_r by congruence.
    split; reflexivity.
  - intros _ s1 n1 [-> ->]. exact Hk.
Qed.

End Appends.

Definition toolResultsOf (ms : list AgentMessage) : list ToolResultMessage :=
  flat_map (fun m => match m with MToolResult r => [r] | _ => [] end) ms.

Definition toolResultIds (ms : list AgentMessage) : list string :=
  map toolCallId (toolResultsOf ms).

Definition toolCallIds (a : AssistantMessage) : list string :=
  map tc_id (toolCallsOf (am_content a)).

Definition isAdvisorMessage (m : AgentMessage) : bool :=
  match m with MAdvisor _ => true | _ => false end.

(** A skipped call's synthetic result. *)
Definition skippedResultFor (toolCall : ToolCall) (r : ToolResultMessage) : Prop :=
  toolCallId r = tc_id toolCall /\ toolName r = tc_name toolCall /\
  isError r = true /\ tr_content r = [TextContent skippedText] /\
  tr_details r = emptyObject.

Lemma extcall_Done {A} c (f : Oracle A) st a st' :
  extcall c f st = (Done a, st') ->
  exists w', f (world st) = (Returns a, w') /\ st' = addCall c (setWorld w' st).
Proof.
  unfold extcall, bind, perform, await, ret, throw.
  destruct (f (world st)) as [[x|e|e] w']; intros [= <- <-].
  now exists w'.
Qed.

Lemma skipToolCall_result toolCall stream st r st' :
  skipToolCall toolCall stream st = (Done r, st') -> skippedResultFor toolCall r.
Proof.
  unfold skipToolCall, bind, pushEvent, now, ret. cbn [world setStreams].
  destruct (Date_now (world st)) as [t w']. intros [= <- _].
  repeat split.
Qed.

Lemma skipToolCall_calls toolCall stream st r st' :
  skipToolCall toolCall stream st = (Done r, st') -> calls st' = calls st.
Proof.
  unfold skipToolCall, bind, pushEvent, now, ret. cbn [world setStreams].
  destruct (Date_now (world st)) as [t w']. now intros [= _ <-].
Qed.

Section Effects.

Variable context : AgentContext.
Variable newMessages : loc.
Hypothesis log_new : messages context <> newMessages.

Variable nestedLoop : AgentLoopFn.
Hypothesis nested_preserved :
  forall advisor prompts context signal streamFn st,
    preserved anyCall st
      (snd (nestedLoop prompts context (advisorConfigOf advisor) signal streamFn st)).

Local Abbreviation appends' := (appends (messages context) newMessages).
Local Abbreviation silent' := (silent (messages context) newMessages).

Lemma silent_pushEvent {A} (P : A -> _ -> _ -> Prop) s e (k : M A) :
  isAgentEnd e = false -> appends' P k -> appends' P (pushEvent s e ;; k).
Proof.
  intros He Hk. apply appends_silent_bind; [|intros _; exact Hk].
  apply silent_of_respects.
  apply (respects_pushEvent anyCall nowhere everywhere anyStream anyStream_push);
    [exact I|exact He].
Qed.

Lemma silent_now : silent' now.
Proof. apply silent_of_respects, respects_now. typeclasses eauto. Qed.

Lemma silent_extcall {A} c (f : Oracle A) : silent' (extcall c f).
Proof.
  apply silent_of_respects.
  apply (respects_extcall anyCall nowhere everywhere anyStream). exact I.
Qed.

Lemma silent_readArray i : silent' (readArray i).
Proof. apply silent_of_respects, respects_readArray. typeclasses eauto. Qed.

Lemma silent_runTool tool toolCall signal stream :
  silent' (runTool tool toolCall signal stream).
Proof.
  apply silent_of_respects.
  apply (respects_runTool anyCall nowhere everywhere anyStream anyStream_push
           anyCall_other). exact I.
Qed.

Lemma silent_skipToolCall toolCall stream : silent' (skipToolCall toolCall stream).
Proof.
  apply silent_of_respects.
  apply (respects_skipToolCall anyCall nowhere everywhere anyStream anyStream_push).
  exact I.
Qed.

Lemma silent_runAdvisor advisor params parentStream signal streamFn :
  silent' (runAdvisor nestedLoop advisor params parentStream signal streamFn).
Proof.
  apply silent_of_respects.
  apply (respects_runAdvisor anyCall nowhere everywhere anyStream anyStream_push
           anyCall_other nestedLoop nested_preserved). exact I.
Qed.

Lemma silent_pollMessages c f : silent' (pollMessages c f).
Proof.
  apply silent_of_respects.
  apply (respects_pollMessages anyCall nowhere everywhere anyStream). right. exact I.
Qed.

(** The dispatcher appends the tool result, to both arrays. *)
Lemma appends_dispatchToolCall toolCall signal stream :
  appends'
    (fun r seg segn =>
       seg = [MToolResult r] /\ segn = [MToolResult r] /\
       toolCallId r = tc_id toolCall)
    (dispatchToolCall context newMessages toolCall signal stream).
Proof.
  unfold dispatchToolCall.
  apply silent_pushEvent; [reflexivity|].
  apply appends_silent_bind; [apply silent_runTool|intros r].
  apply silent_pushEvent; [reflexivity|].
  apply appends_silent_bind; [apply silent_now|intros timestamp].
  apply appends_push_log; [exact log_new|].
  apply appends_push_new; [exact log_new|].
  apply silent_pushEvent; [reflexivity|].
  apply silent_pushEvent; [reflexivity|].
  apply appends_ret. repeat split.
Qed.

Lemma appends_skipRemaining remainingCalls stream :
  forall results,
    appends'
      (fun res seg segn =>
         exists skipped,
           res = results ++ skipped /\ seg = map MToolResult skipped /\
           segn = seg /\ Forall2 skippedResultFor remainingCalls skipped)
      (skipRemaining context newMessages remainingCalls stream results).
Proof.
  induction remainingCalls as [|skipped rest IH]; intros results; cbn [skipRemaining].
  - apply appends_ret. exists []. rewrite app_nil_r. repeat split. constructor.
  - eapply appends_bind with
      (P1 := fun r seg segn => seg = [] /\ segn = [] /\ skippedResultFor skipped r).
    + intros st r st' Hrun.
      destruct (silent_skipToolCall skipped stream st r st' Hrun)
        as [seg [segn [Hstep [-> ->]]]].
      exists [], []. split; [exact Hstep|]. repeat split.
      all: eapply skipToolCall_result; exact Hrun.
    + intros r s1 n1 [-> [-> Hr]]. cbn [app].
      apply appends_push_log; [exact log_new|].
      apply appends_push_new; [exact log_new|].
      eapply appends_weaken; [apply IH|].
      intros res seg segn [sk [-> [-> [-> HF]]]]. exists (r :: sk).
      rewrite <- app_assoc. repeat split. now constructor.
Qed.

Lemma appends_handleAdvisorsLoop advisors toolCall toolResult stream signal streamFn :
  appends'
    (fun _ seg segn => segn = seg /\ Forall (fun m => isAdvisorMessage m = true) seg)
    (handleAdvisorsLoop nestedLoop advisors context newMessages toolCall toolResult
       stream signal streamFn).
Proof.
  induction advisors as [|advisor rest IH]; cbn [handleAdvisorsLoop].
  - apply appends_ret. split; [reflexivity|constructor].
  - apply appends_silent_bind; [apply silent_readArray|intros seen].
    apply appends_silent_bind; [apply silent_extcall|intros triggered].
    eapply appends_bind with
      (P1 := fun _ seg segn =>
               segn = seg /\ Forall (fun m => isAdvisorMessage m = true) seg).
    + destruct triggered; [|apply appends_ret; split; [reflexivity|constructor]].
      apply silent_pushEvent; [reflexivity|].
      apply appends_silent_bind; [apply silent_readArray|intros copy].
      apply appends_silent_bind; [apply silent_runAdvisor|intros [m|]].
      * apply appends_push_log; [exact log_new|].
        apply appends_push_new; [exact log_new|].
        apply silent_pushEvent; [reflexivity|].
        apply silent_pushEvent; [reflexivity|].
        intros st a st' [= <- <-]. exists [], []. split.
        -- apply offLog_logStep.
           apply (respects_pushEvent anyCall nowhere everywhere anyStream anyStream_push
                    stream (advisor_end (adv_name advisor) (adv_content m)) I eq_refl st).
        -- split; [reflexivity|]. constructor; [reflexivity|constructor].
      * apply appends_ret. split; [reflexivity|constructor].
    + intros _ s1 n1 [-> H1]. eapply appends_weaken; [exact IH|].
      intros _ seg segn [-> H2]. split; [reflexivity|].
      apply Forall_app; split; assumption.
Qed.

Lemma appends_handleAdvisors advisors toolCall toolResult stream signal streamFn :
  appends'
    (fun _ seg segn => segn = seg /\ Forall (fun m => isAdvisorMessage m = true) seg)
    (handleAdvisors nestedLoop advisors context newMessages toolCall toolResult
       stream signal streamFn).
Proof.
  destruct advisors as [advisors|]; cbn [handleAdvisors].
  - apply appends_handleAdvisorsLoop.
  - apply appends_ret. split; [reflexivity|constructor].
Qed.

End Effects.

(** *** Pairing of tool calls and tool results in a log *)

(** A message that is neither an assistant message nor a tool result. *)
Definition isPlain (m : AgentMessage) : bool :=
  negb (isAssistant m) && negb (isToolResult m).

(** The ids of the tool results that follow, up to the next assistant
    message. *)
Fixpoint resultIdsBeforeNextAssistant (ms : list AgentMessage) : list string :=
  match ms with
  | [] => []
  | MAssistant _ :: _ => []
  | MToolResult r :: rest => toolCallId r :: resultIdsBeforeNextAssistant rest
  | _ :: rest => resultIdsBeforeNextAssistant rest
  end.

Definition answeredOnce (ids results : list string) : bool :=
  forallb (fun id => Nat.eqb (count_occ string_dec results id) 1) ids.

(** Every assistant message that did not stop on [error] or [aborted]
    has each of its tool-call ids answered by exactly one tool result
    before the next assistant message. *)
Fixpoint paired (ms : list AgentMessage) : bool :=
  match ms with
  | [] => true
  | MAssistant a :: rest =>
      (isErrorStop (am_stopReason a)
       || answeredOnce (toolCallIds a) (resultIdsBeforeNextAssistant rest))
      && paired rest
  | _ :: rest => paired rest
  end.

Lemma toolResultIds_app a b :
  toolResultIds (a ++ b) = toolResultIds a ++ toolResultIds b.
Proof. unfold toolResultIds, toolResultsOf. now rewrite flat_map_app, map_app. Qed.

Lemma toolResultIds_advisors ms :
  Forall (fun m => isAdvisorMessage m = true) ms -> toolResultIds ms = [].
Proof.
  induction 1 as [|m ms Hm _ IH]; [reflexivity|].
  destruct m; try discriminate. exact IH.
Qed.

Lemma toolResultIds_results rs : toolResultIds (map MToolResult rs) = map toolCallId rs.
Proof.
  induction rs as [|r rs IH]; [reflexivity|].
  cbn. f_equal. exact IH.
Qed.

Lemma advisors_not_assistant ms :
  Forall (fun m => isAdvisorMessage m = true) ms ->
  Forall (fun m => isAssistant m = false) ms.
Proof.
  intros H. eapply Forall_impl; [exact H|].
  intros [] Hm; try discriminate; reflexivity.
Qed.

Lemma results_not_assistant rs :
  Forall (fun m => isAssistant m = false) (map MToolResult rs).
Proof. induction rs as [|r rs IH]; constructor; [reflexivity|exact IH]. Qed.

Lemma skipped_ids calls rs :
  Forall2 skippedResultFor calls rs -> map toolCallId rs = map tc_id calls.
Proof.
  induction 1 as [|c r cs rs [Hid _] _ IH]; [reflexivity|].
  cbn. now rewrite Hid, IH.
Qed.

Lemma resultIds_plain_app p x :
  Forall (fun m => isPlain m = true) p ->
  resultIdsBeforeNextAssistant (p ++ x) = resultIdsBeforeNextAssistant x.
Proof.
  induction 1 as [|m p Hm _ IH]; [reflexivity|].
  destruct m; try discriminate; exact IH.
Qed.

Lemma paired_plain_app p x :
  Forall (fun m => isPlain m = true) p -> paired (p ++ x) = paired x.
Proof.
  induction 1 as [|m p Hm _ IH]; [reflexivity|].
  destruct m; try discriminate; exact IH.
Qed.

Lemma resultIds_results_app t x :
  Forall (fun m => isAssistant m = false) t ->
  resultIdsBeforeNextAssistant (t ++ x)
  = toolResultIds t ++ resultIdsBeforeNextAssistant x.
Proof.
  induction 1 as [|m t Hm _ IH]; [reflexivity|].
  destruct m; try discriminate; cbn; try exact IH.
  f_equal. exact IH.
Qed.

Lemma paired_results_app t x :
  Forall (fun m => isAssistant m = false) t -> paired (t ++ x) = paired x.
Proof.
  induction 1 as [|m t Hm _ IH]; [reflexivity|].
  destruct m; try discriminate; exact IH.
Qed.

Lemma answeredOnce_self ids : List.NoDup ids -> answeredOnce ids ids = true.
Proof.
  intros Hnd. unfold answeredOnce. apply forallb_forall. intros id Hid.
  apply Nat.eqb_eq. now apply (proj1 (NoDup_count_occ' string_dec ids) Hnd).
Qed.

(** What [paired] says, spelled out. *)
Lemma paired_spec ms :
  paired ms = true ->
  forall pre a post,
    ms = pre ++ MAssistant a :: post ->
    isErrorStop (am_stopReason a) = false ->
    forall id, In id (toolCallIds a) ->
      count_occ string_dec (resultIdsBeforeNextAssistant post) id = 1.
Proof.
  induction ms as [|m ms IH]; intros Hp pre a post Heq Hstop id Hid.
  - destruct pre; discriminate.
  - destruct pre as [|p pre]; cbn in Heq.
    + injection Heq as -> ->. cbn in Hp. rewrite Hstop in Hp. cbn in Hp.
      apply andb_prop in Hp as [Hp _]. unfold answeredOnce in Hp.
      rewrite forallb_forall in Hp. now apply Nat.eqb_eq, Hp.
    + injection Heq as -> ->.
      assert (Hp' : paired (pre ++ MAssistant a :: post) = true).
      { destruct p; cbn in Hp; try exact Hp. now apply andb_prop in Hp as [_ Hp]. }
      eapply IH; [exact Hp'|reflexivity|assumption|assumption].
Qed.

(** *** What the adapter and the caller's queues are expected to give *)

(** A response that ends with [done] or [error], with at most one
    [start] before it (section 4.3 of the specification). *)
Fixpoint wellFormedEvents (events : list AssistantMessageEvent) (started : bool)
    : bool :=
  match events with
  | [] => false
  | AME_start _ :: rest => negb started && wellFormedEvents rest true
  | AME_update _ _ :: rest => wellFormedEvents rest started
  | AME_done _ :: _ => true
  | AME_error _ :: _ => true
  end.

Definition responsesWellFormed (f : StreamFn) : Prop :=
  forall m c o w resp w',
    f m c o w = (Returns resp, w') ->
    wellFormedEvents (resp_events resp) false = true.

Definition responsesDistinctIds (f : StreamFn) : Prop :=
  forall m c o w resp w',
    f m c o w = (Returns resp, w') ->
    List.NoDup (toolCallIds (resp_result resp)).

Definition allPlain (ms : list AgentMessage) : Prop :=
  Forall (fun m => isPlain m = true) ms.

(** The caller queues neither assistant messages nor tool results. *)
Definition pollsPlain (config : AgentLoopConfig) : Prop :=
  forall poll,
    getSteeringMessages config = Some poll \/ getFollowUpMessages config = Some poll ->
    forall w r w', poll w = (Returns r, w') -> allPlain r.

Lemma consumeEvents_log context stream response events :
  forall partialMessage addedPartial st,
    wellFormedEvents events addedPartial = true ->
    (addedPartial = true -> partialMessage <> None) ->
    (addedPartial = false -> partialMessage = None) ->
    exists st',
      consumeEvents context stream response events partialMessage addedPartial st
        = (Done (resp_result response), st') /\
      (forall v x,
         arrays st !! messages context
           = Some (if addedPartial then v ++ [x] else v) ->
         arrays st' !! messages context
           = Some (v ++ [MAssistant (resp_result response)])) /\
      (forall i, i <> messages context -> arrays st' !! i = arrays st !! i).
Proof.
  induction events as [|event rest IH]; intros pm ap st Hwf Hsome Hnone;
    [discriminate|].
  destruct event as [partial|kind partial|msg|err]; cbn [consumeEvents].
  - cbn in Hwf. apply andb_prop in Hwf as [Hap Hwf].
    destruct ap; [discriminate|].
    unfold bind at 1. cbn [arrayPush]. unfold bind at 1. cbn [pushEvent].
    match goal with |- context [consumeEvents _ _ _ _ _ _ ?s] => set (st2 := s) end.
    destruct (IH (Some partial) true st2 Hwf ltac:(discriminate) ltac:(discriminate))
      as [st' [Hrun [Hlog Hother]]].
    exists st'. split; [exact Hrun|]. split.
    + intros v _ Hv. apply (Hlog v (MAssistant partial)).
      subst st2. cbn [arrays setStreams setArrays].
      now rewrite list_lookup_alter_eq, Hv.
    + intros i Hi. rewrite (Hother i Hi). subst st2. cbn [arrays setStreams setArrays].
      apply list_lookup_alter_ne. congruence.
  - cbn in Hwf. destruct pm as [old|].
    + destruct ap; [|specialize (Hnone eq_refl); discriminate].
      unfold bind at 1. cbn [arraySetLast]. unfold bind at 1. cbn [pushEvent].
      match goal with |- context [consumeEvents _ _ _ _ _ _ ?s] => set (st2 := s) end.
      destruct (IH (Some partial) true st2 Hwf ltac:(discriminate) ltac:(discriminate))
        as [st' [Hrun [Hlog Hother]]].
      exists st'. split; [exact Hrun|]. split.
      * intros v x Hv. apply (Hlog v (MAssistant partial)).
        subst st2. cbn [arrays setStreams setArrays].
        rewrite list_lookup_alter_eq, Hv. cbn. now rewrite setLast_snoc.
      * intros i Hi. rewrite (Hother i Hi). subst st2.
        cbn [arrays setStreams setArrays]. apply list_lookup_alter_ne. congruence.
    + destruct ap; [exfalso; now apply Hsome|].
      apply IH; [exact Hwf|discriminate|reflexivity].
  - destruct ap.
    + unfold bind at 1. cbn [arraySetLast]. unfold bind at 1. cbn [ret].
      unfold bind at 1. cbn [pushEvent ret]. eexists. split; [reflexivity|]. split.
      * intros v x Hv. cbn [arrays setStreams setArrays].
        rewrite list_lookup_alter_eq, Hv. cbn. now rewrite setLast_snoc.
      * intros i Hi. cbn [arrays setStreams setArrays].
        apply list_lookup_alter_ne. congruence.
    + unfold bind at 1. cbn [arrayPush]. unfold bind at 1. cbn [pushEvent].
      unfold bind at 1. cbn [pushEvent ret]. eexists. split; [reflexivity|]. split.
      * intros v x Hv. cbn [arrays setStreams setArrays].
        now rewrite list_lookup_alter_eq, Hv.
      * intros i Hi. cbn [arrays setStreams setArrays].
        apply list_lookup_alter_ne. congruence.
  - destruct ap.
    + unfold bind at 1. cbn [arraySetLast]. unfold bind at 1. cbn [ret].
      unfold bind at 1. cbn [pushEvent ret]. eexists. split; [reflexivity|]. split.
      * intros v x Hv. cbn [arrays setStreams setArrays].
        rewrite list_lookup_alter_eq, Hv. cbn. now rewrite setLast_snoc.
      * intros i Hi. cbn [arrays setStreams setArrays].
        apply list_lookup_alter_ne. congruence.
    + unfold bind at 1. cbn [arrayPush]. unfold bind at 1. cbn [pushEvent].
      unfold bind at 1. cbn [pushEvent ret]. eexists. split; [reflexivity|]. split.
      * intros v x Hv. cbn [arrays setStreams setArrays].
        now rewrite list_lookup_alter_eq, Hv.
      * intros i Hi. cbn [arrays setStreams setArrays].
        apply list_lookup_alter_ne. congruence.
Qed.

Lemma paired_turn pending a tail rest :
  allPlain pending ->
  Forall (fun m => isAssistant m = false) tail ->
  toolResultIds tail = toolCallIds a ->
  List.NoDup (toolCallIds a) ->
  paired rest = true ->
  resultIdsBeforeNextAssistant rest = [] ->
  paired (pending ++ MAssistant a :: tail ++ rest) = true /\
  resultIdsBeforeNextAssistant (pending ++ MAssistant a :: tail ++ rest) = [].
Proof.
  intros Hp Ht Hids Hnd Hrest Hnone.
  rewrite paired_plain_app, resultIds_plain_app by exact Hp. cbn.
  rewrite resultIds_results_app, paired_results_app by exact Ht.
  rewrite Hids, Hnone, app_nil_r, Hrest, (answeredOnce_self _ Hnd).
  now rewrite orb_true_r.
Qed.

Lemma paired_stopped pending a :
  allPlain pending ->
  isErrorStop (am_stopReason a) = true ->
  paired (pending ++ [MAssistant a]) = true /\
  resultIdsBeforeNextAssistant (pending ++ [MAssistant a]) = [].
Proof.
  intros Hp Hstop. rewrite paired_plain_app, resultIds_plain_app by exact Hp.
  cbn. now rewrite Hstop.
Qed.

Section TurnEffects.

Variable context : AgentContext.
Variable newMessages : loc.
Hypothesis log_new : messages context <> newMessages.

Variable nestedLoop : AgentLoopFn.
Hypothesis nested_preserved :
  forall advisor prompts context signal streamFn st,
    preserved anyCall st
      (snd (nestedLoop prompts context (advisorConfigOf advisor) signal streamFn st)).

Variable config : AgentLoopConfig.
Variable signal : option AbortSignal.
Variable stream : sid.
Variable streamFn : option StreamFn.

Hypothesis responses_ok : responsesWellFormed (default streamSimple streamFn).

Local Abbreviation appends' := (appends (messages context) newMessages).
Local Abbreviation silent' := (silent (messages context) newMessages).

Definition pairingPremises : Prop :=
  pollsPlain config /\ responsesDistinctIds (default streamSimple streamFn).

Definition steerPlain (steer : option (list AgentMessage)) : Prop :=
  forall ms, steer = Some ms -> allPlain ms.

Lemma appends_outOfFuel {A} (P : A -> _ -> _ -> Prop) : appends' P outOfFuel.
Proof. intros st a st' H. discriminate. Qed.

Lemma appends_arrayPush_new x :
  appends' (fun _ seg segn => seg = [] /\ segn = [x]) (arrayPush newMessages x).
Proof.
  intros st a st' [= <- <-]. exists [], [x]. split; [|split; reflexivity].
  intros v vn [Hv Hvn]. unfold logs. cbn [arrays setArrays].
  rewrite list_lookup_alter_eq, Hvn, list_lookup_alter_ne, Hv, app_nil_r by congruence.
  split; reflexivity.
Qed.

Lemma silent_finish : silent' (finish newMessages stream).
Proof.
  apply silent_of_respects.
  apply (respects_finish anyCall nowhere everywhere anyStream); [|exact I].
  intros v es. exact I.
Qed.

Lemma appends_injectPending pendingMessages :
  appends' (fun _ seg segn => seg = pendingMessages /\ segn = pendingMessages)
    (injectPending context newMessages stream pendingMessages).
Proof.
  unfold injectPending.
  induction pendingMessages as [|m rest IH]; cbn [forEach].
  - apply appends_ret. split; reflexivity.
  - eapply appends_bind with (P1 := fun _ seg segn => seg = [m] /\ segn = [m]).
    + apply silent_pushEvent; [reflexivity|].
      apply silent_pushEvent; [reflexivity|].
      apply appends_push_log; [exact log_new|].
      eapply appends_weaken; [apply appends_arrayPush_new|].
      intros _ seg segn [-> ->]. split; reflexivity.
    + intros _ s1 n1 [-> ->]. eapply appends_weaken; [exact IH|].
      intros _ seg segn [-> ->]. split; reflexivity.
Qed.

Lemma appends_pollMessages c f :
  appends'
    (fun r seg segn =>
       seg = [] /\ segn = [] /\
       ((forall poll, f = Some poll ->
           forall w r' w', poll w = (Returns r', w') -> allPlain r') ->
        allPlain r))
    (pollMessages c f).
Proof.
  intros st r st' Hrun.
  destruct (silent_pollMessages context newMessages c f st r st' Hrun)
    as [seg [segn [Hstep [-> ->]]]].
  exists [], []. split; [exact Hstep|]. repeat split.
  intros Hplain. destruct f as [poll|]; cbn in Hrun.
  - apply extcall_Done in Hrun as [w' [Hpoll _]]. eapply Hplain; [reflexivity|exact Hpoll].
  - injection Hrun as <- _. constructor.
Qed.

Lemma appends_executeToolCallsFrom toolCalls :
  forall results,
    appends'
      (fun r seg segn =>
         segn = seg /\ Forall (fun m => isAssistant m = false) seg /\
         toolResultIds seg = map tc_id toolCalls /\
         (pollsPlain config -> steerPlain (snd r)))
      (executeToolCallsFrom nestedLoop context newMessages toolCalls config signal
         stream streamFn results).
Proof.
  induction toolCalls as [|toolCall rest IH]; intros results;
    cbn [executeToolCallsFrom].
  - apply appends_ret. repeat split; [constructor|]. intros _ ms H. discriminate.
  - eapply appends_bind; [apply (appends_dispatchToolCall context newMessages log_new)|].
    intros trm s1 n1 [-> [-> Hid]].
    eapply appends_bind;
      [apply (appends_handleAdvisors context newMessages log_new nestedLoop
                nested_preserved)|].
    intros _ s2 n2 [-> Hadv].
    assert (Hfinal : forall (r : list ToolResultMessage * option (list AgentMessage))
                            seg segn,
              segn = seg /\ Forall (fun m => isAssistant m = false) seg /\
              toolResultIds seg = map tc_id rest /\
              (pollsPlain config -> steerPlain (snd r)) ->
              [MToolResult trm] ++ s2 ++ segn = [MToolResult trm] ++ s2 ++ seg /\
              Forall (fun m => isAssistant m = false) ([MToolResult trm] ++ s2 ++ seg) /\
              toolResultIds ([MToolResult trm] ++ s2 ++ seg)
                = map tc_id (toolCall :: rest) /\
              (pollsPlain config -> steerPlain (snd r))).
    { intros r seg segn [-> [Hna [Hids Hst]]]. split; [reflexivity|]. split; [|split].
      - constructor; [reflexivity|].
        apply Forall_app. split; [now apply advisors_not_assistant|assumption].
      - rewrite !toolResultIds_app, (toolResultIds_advisors s2 Hadv), Hids.
        cbn. now rewrite Hid.
      - exact Hst. }
    destruct (getSteeringMessages config) as [poll|] eqn:Hcfg.
    + eapply appends_bind with
        (P1 := fun r seg segn =>
                 seg = [] /\ segn = [] /\ (pollsPlain config -> allPlain r)).
      * intros st r st' Hrun.
        destruct (silent_extcall context newMessages _ _ st r st' Hrun)
          as [seg [segn [Hstep [-> ->]]]].
        exists [], []. split; [exact Hstep|]. repeat split.
        intros Hplain. apply extcall_Done in Hrun as [w' [Hpoll _]].
        eapply Hplain; [left; exact Hcfg|exact Hpoll].
      * intros steering s3 n3 [-> [-> Hsteer]].
        destruct (nonEmpty steering).
        -- eapply appends_bind; [apply (appends_skipRemaining context newMessages log_new)|].
           intros sk s4 n4 [skipped [-> [-> [-> HF]]]].
           apply appends_ret. rewrite !app_nil_l, !app_nil_r.
           apply (Hfinal (results ++ [trm] ++ skipped, Some steering)).
           split; [reflexivity|]. split; [apply results_not_assistant|]. split.
           ++ rewrite toolResultIds_results. now apply skipped_ids.
           ++ intros Hp ms [= <-]. now apply Hsteer.
        -- eapply appends_weaken; [apply IH|].
           intros r seg segn H. rewrite !app_nil_l. now apply Hfinal.
    + eapply appends_weaken; [apply IH|].
      intros r seg segn H. now apply Hfinal.
Qed.

Lemma appends_streamAssistantResponse :
  appends'
    (fun m seg segn =>
       seg = [MAssistant m] /\ segn = [] /\
       (responsesDistinctIds (default streamSimple streamFn) ->
        List.NoDup (toolCallIds m)))
    (streamAssistantResponse context config signal stream streamFn).
Proof.
  unfold streamAssistantResponse.
  apply appends_silent_bind; [apply silent_readArray|intros messages0].
  apply appends_silent_bind.
  { destruct (transformContext config); [apply silent_extcall|].
    apply appends_ret. split; reflexivity. }
  intros messages1.
  apply appends_silent_bind; [apply silent_extcall|intros llmMessages].
  apply appends_silent_bind.
  { destruct (getApiKey config); [apply silent_extcall|].
    apply appends_ret. split; reflexivity. }
  intros key.
  eapply appends_bind with
    (P1 := fun resp seg segn =>
             seg = [] /\ segn = [] /\
             wellFormedEvents (resp_events resp) false = true /\
             (responsesDistinctIds (default streamSimple streamFn) ->
              List.NoDup (toolCallIds (resp_result resp)))).
  - intros st r st' Hrun.
    destruct (silent_extcall context newMessages _ _ st r st' Hrun)
      as [seg [segn [Hstep [-> ->]]]].
    exists [], []. split; [exact Hstep|].
    apply extcall_Done in Hrun as [w' [Hcall _]]. repeat split.
    + eapply responses_ok, Hcall.
    + intros Hd. eapply Hd, Hcall.
  - intros response s1 n1 [-> [-> [Hwf Hnd]]] st a st' Hrun.
    destruct (consumeEvents_log context stream response (resp_events response)
                None false st Hwf ltac:(discriminate) ltac:(reflexivity))
      as [st'' [Hrun' [Hlog Hother]]].
    rewrite Hrun' in Hrun. injection Hrun as <- <-.
    exists [MAssistant (resp_result response)], []. split; [|repeat split; assumption].
    intros v vn [Hv Hvn]. split.
    + apply (Hlog v (MAssistant (resp_result response))). exact Hv.
    + rewrite app_nil_r, Hother by congruence. exact Hvn.
Qed.

Lemma silent_push s e : isAgentEnd e = false -> silent' (pushEvent s e).
Proof.
  intros He. apply silent_of_respects.
  apply (respects_pushEvent anyCall nowhere everywhere anyStream anyStream_push);
    [exact I|exact He].
Qed.

(** What a run has appended when it returns: the same messages to the
    log and to [newMessages], and, when the caller queues only plain
    messages and the adapter gives distinct tool-call ids, a paired
    sequence of turns. *)
Definition runPost (pending : list AgentMessage)
    (steer : option (list AgentMessage))
    : unit -> list AgentMessage -> list AgentMessage -> Prop :=
  fun _ seg segn =>
    segn = seg /\
    (pairingPremises -> allPlain pending -> steerPlain steer ->
     paired seg = true /\ resultIdsBeforeNextAssistant seg = []).

Lemma steering_plain poll :
  pollsPlain config -> getSteeringMessages config = poll ->
  forall p, poll = Some p -> forall w r w', p w = (Returns r, w') -> allPlain r.
Proof. intros Hp Heq p Hcfg w r w' Hr. subst poll. eapply Hp; [left; exact Hcfg|exact Hr]. Qed.

Lemma followUp_plain poll :
  pollsPlain config -> getFollowUpMessages config = poll ->
  forall p, poll = Some p -> forall w r w', p w = (Returns r, w') -> allPlain r.
Proof. intros Hp Heq p Hcfg w r w' Hr. subst poll. eapply Hp; [right; exact Hcfg|exact Hr]. Qed.

Lemma appends_runLoopFrom fuel :
  forall firstTurn hasMoreToolCalls pendingMessages steeringAfterTools,
    appends' (runPost pendingMessages steeringAfterTools)
      (runLoopFrom nestedLoop fuel context newMessages config signal stream
         streamFn firstTurn hasMoreToolCalls pendingMessages steeringAfterTools).
Proof.
  assert (Hstop : forall pending steer fuel' firstTurn,
    (forall ft hm p s,
       appends' (runPost p s)
         (runLoopFrom nestedLoop fuel' context newMessages config signal stream
            streamFn ft hm p s)) ->
    appends' (runPost pending steer)
      (followUpMessages <- pollMessages CallGetFollowUpMessages
                             (getFollowUpMessages config) ;;
       if nonEmpty followUpMessages then
         runLoopFrom nestedLoop fuel' context newMessages config signal stream
           streamFn firstTurn true followUpMessages None
       else finish newMessages stream)).
  { intros pending steer fuel' firstTurn IH.
    eapply appends_bind; [apply appends_pollMessages|].
    intros followUp s1 n1 [-> [-> Hfu]].
    destruct (nonEmpty followUp).
    - eapply appends_weaken; [apply IH|].
      intros [] seg segn [-> Hrest]. split; [reflexivity|].
      intros Hpp _ _. cbn [app]. apply Hrest; [exact Hpp| |intros ms H; discriminate].
      apply Hfu. now apply followUp_plain; [apply Hpp|].
    - eapply appends_weaken; [apply silent_finish|].
      intros [] seg segn [-> ->]. split; [reflexivity|]. intros _ _ _. split; reflexivity. }
  induction fuel as [|fuel IH]; intros firstTurn hasMore pending steer;
    cbn [runLoopFrom].
  - destruct (hasMore || nonEmpty pending); [apply appends_outOfFuel|].
    eapply appends_bind; [apply appends_pollMessages|].
    intros followUp s1 n1 [-> [-> Hfu]].
    destruct (nonEmpty followUp); [apply appends_outOfFuel|].
    eapply appends_weaken; [apply silent_finish|].
    intros [] seg segn [-> ->]. split; [reflexivity|]. intros _ _ _. split; reflexivity.
  - destruct (hasMore || nonEmpty pending); [|now apply Hstop].
    apply appends_silent_bind.
    { destruct firstTurn; [apply appends_ret; split; reflexivity|].
      now apply silent_push. }
    intros _.
    eapply appends_bind; [apply appends_injectPending|].
    intros _ s1 n1 [-> ->].
    eapply appends_bind; [apply appends_streamAssistantResponse|].
    intros message s2 n2 [-> [-> Hnd]].
    apply appends_push_new; [exact log_new|].
    destruct (isErrorStop (am_stopReason message)) eqn:Hstopped.
    + apply silent_pushEvent; [reflexivity|].
      eapply appends_weaken; [apply silent_finish|].
      intros [] seg segn [-> ->]. cbn [app].
      split; [reflexivity|]. intros _ Hp _. now apply paired_stopped.
    + eapply appends_bind with
        (P1 := fun (r : list ToolResultMessage * option (list AgentMessage)) seg segn =>
                 segn = seg /\ Forall (fun m => isAssistant m = false) seg /\
                 toolResultIds seg = toolCallIds message /\
                 (pollsPlain config -> steerPlain steer -> steerPlain (snd r))).
      * destruct (nonEmpty (toolCallsOf (am_content message))) eqn:Hmore.
        -- unfold executeToolCalls.
           eapply appends_weaken; [apply appends_executeToolCallsFrom|].
           intros r seg segn [-> [Hna [Hids Hst]]]. repeat split; auto.
        -- apply appends_ret. unfold toolCallIds.
           destruct (toolCallsOf (am_content message)); [|discriminate].
           repeat split; [constructor|]. intros _ H. exact H.
      * intros r s3 n3 [-> [Hna [Hids Hst]]].
        apply silent_pushEvent; [reflexivity|].
        assert (Hturn : forall p s seg segn,
                  (pairingPremises -> steerPlain steer -> allPlain p /\ steerPlain s) ->
                  runPost p s tt seg segn ->
                  runPost pending steer tt
                    (pending ++ [MAssistant message] ++ s3 ++ seg)
                    (pending ++ [] ++ MAssistant message :: s3 ++ segn)).
        { intros p s seg segn Hnext [-> Hrest]. split; [reflexivity|].
          intros Hpp Hpend Hsteer. destruct (Hnext Hpp Hsteer) as [Hp Hs].
          destruct (Hrest Hpp Hp Hs) as [Hpaired Hnone].
          apply (paired_turn pending message s3 seg); try assumption. apply Hnd, Hpp. }
        destruct (snd r) as [[|x xs]|] eqn:Hsnd.
        -- eapply appends_bind; [apply appends_pollMessages|].
           intros pend s4 n4 [-> [-> Hpl]].
           eapply appends_weaken; [apply IH|].
           intros [] seg segn Hrun. cbn [app]. apply (Hturn pend (Some [])); [|exact Hrun].
           intros Hpp _. split; [|intros ms [= <-]; constructor].
           apply Hpl. now apply steering_plain; [apply Hpp|].
        -- eapply appends_weaken; [apply IH|].
           intros [] seg segn Hrun. apply (Hturn (x :: xs) None); [|exact Hrun].
           intros Hpp Hsteer. split; [|intros ms H; discriminate].
           apply (Hst (proj1 Hpp) Hsteer). reflexivity.
        -- eapply appends_bind; [apply appends_pollMessages|].
           intros pend s4 n4 [-> [-> Hpl]].
           eapply appends_weaken; [apply IH|].
           intros [] seg segn Hrun. cbn [app]. apply (Hturn pend None); [|exact Hrun].
           intros Hpp _. split; [|intros ms H; discriminate].
           apply Hpl. now apply steering_plain; [apply Hpp|].
Qed.

End TurnEffects.

(** *** The closing [agent_end] carries [newMessages] *)

Section Finishing.

Variable newMessages : loc.
Variable stream : sid.

Variable nestedLoop : AgentLoopFn.
Hypothesis nested_preserved :
  forall advisor prompts context signal streamFn st,
    preserved anyCall st
      (snd (nestedLoop prompts context (advisorConfigOf advisor) signal streamFn st)).

(** From an open stream: quiet events, then [agent_end] with the
    contents of [newMessages], and the seal. *)
Definition finishedFrom (st st' : State) : Prop :=
  forall es, streams st !! stream = Some es -> EventStream.sealed es = false ->
    exists evs,
      quietEvents evs /\
      streams st' !! stream
        = Some (EventStream.mk
                  (EventStream.queue es ++ evs ++ [agent_end (arrays st' !!! newMessages)])
                  true (Some (arrays st' !!! newMessages))).

Definition finishes {A} (m : M A) : Prop :=
  forall st a st', m st = (Done a, st') -> finishedFrom st st'.

Local Abbreviation quietFrame :=
  (frame anyCall everywhere (fun i => i = stream) quietStep).

Lemma finishes_bind {A B} (m : M A) (k : A -> M B) :
  respects quietFrame m -> (forall a, finishes (k a)) -> finishes (bind m k).
Proof.
  intros Hm Hk st b st' Hrun es Hes Hopen. unfold bind in Hrun.
  specialize (Hm st).
  destruct (m st) as [[a|e| |] st1]; try discriminate. cbn [snd] in Hm.
  destruct (frame_streams _ _ _ _ _ _ Hm stream es Hes) as [es1 [Hes1 [Hstep _]]].
  destruct (Hstep eq_refl) as [evs1 [-> Hq1]].
  rewrite pushAll_open in Hes1 by exact Hopen.
  destruct (Hk a st1 b st' Hrun _ Hes1 eq_refl) as [evs2 [Hq2 Hfinal]].
  exists (evs1 ++ evs2). split; [apply Forall_app; split; assumption|].
  rewrite Hfinal. cbn [EventStream.queue]. now rewrite <- !app_assoc.
Qed.

Lemma finishes_outOfFuel {A} : finishes (@outOfFuel A).
Proof. intros st a st' H. discriminate. Qed.

Lemma finishes_finish : finishes (finish newMessages stream).
Proof.
  intros st a st' H es Hes Hopen.
  unfold finish, bind, readArray, pushEvent, endStream in H.
  injection H as _ <-. exists []. split; [constructor|].
  cbn [streams arrays setStreams].
  rewrite !list_lookup_alter_eq, Hes. cbn.
  unfold EventStream.end_, EventStream.push. rewrite Hopen. cbn. reflexivity.
Qed.

Ltac quiet_frame :=
  repeat first
    [ apply (respects_ret anyCall everywhere (fun i => i = stream) quietStep)
    | apply (respects_pushEvent anyCall everywhere (fun i => i = stream) quietStep
               quietStep_push); [reflexivity|reflexivity]
    | apply (respects_arrayPush anyCall everywhere (fun i => i = stream) quietStep);
      exact I
    | apply (respects_pollMessages anyCall everywhere (fun i => i = stream) quietStep);
      right; exact I
    | apply (respects_injectPending anyCall everywhere (fun i => i = stream) quietStep
               quietStep_push); [exact I|exact I|reflexivity]
    | apply (respects_streamAssistantResponse anyCall everywhere
               (fun i => i = stream) quietStep quietStep_push anyCall_other);
      [exact I|reflexivity]
    | apply (respects_executeToolCallsFrom anyCall everywhere (fun i => i = stream)
               quietStep quietStep_push anyCall_other nestedLoop nested_preserved);
      [exact I|exact I|reflexivity|right; exact I]
    | match goal with
      | |- respects _ (match ?x with _ => _ end) => destruct x
      end ].

Lemma finishes_runLoopFrom fuel context config signal streamFn :
  forall firstTurn hasMoreToolCalls pendingMessages steeringAfterTools,
    finishes
      (runLoopFrom nestedLoop fuel context newMessages config signal stream
         streamFn firstTurn hasMoreToolCalls pendingMessages steeringAfterTools).
Proof.
  induction fuel as [|fuel IH]; intros firstTurn hasMore pending steering;
    cbn [runLoopFrom];
    repeat first
      [ apply IH
      | apply finishes_finish
      | apply finishes_outOfFuel
      | apply finishes_bind; [unfold executeToolCalls; quiet_frame|intros ?]
      | match goal with
        | |- finishes (match ?x with _ => _ end) => destruct x
        end ].
Qed.

Lemma finishes_runLoop fuel context config signal streamFn :
  finishes
    (runLoop nestedLoop fuel context newMessages config signal stream streamFn).
Proof.
  unfold runLoop. apply finishes_bind; [quiet_frame|intros pending].
  apply finishes_runLoopFrom.
Qed.

(** [finish] is the last thing a run does: a computation that has not
    returned has only made quiet steps on the stream. *)
Definition quietUnlessDone {A} (m : M A) : Prop :=
  forall st, (exists a, fst (m st) = Done a) \/ quietFrame st (snd (m st)).

Lemma quietUnlessDone_bind {A B} (m : M A) (k : A -> M B) :
  respects quietFrame m -> (forall a, quietUnlessDone (k a)) ->
  quietUnlessDone (bind m k).
Proof.
  intros Hm Hk st. unfold bind. specialize (Hm st).
  destruct (m st) as [[a|e| |] st1]; cbn [fst snd] in *; try (right; exact Hm).
  destruct (Hk a st1) as [Hd|Hq]; [left; exact Hd|right].
  eapply frame_trans; [typeclasses eauto|exact Hm|exact Hq].
Qed.

Lemma quietUnlessDone_outOfFuel {A} : quietUnlessDone (@outOfFuel A).
Proof. intros st. right. apply frame_refl. typeclasses eauto. Qed.

Lemma quietUnlessDone_finish : quietUnlessDone (finish newMessages stream).
Proof. intros st. left. exists tt. reflexivity. Qed.

Lemma quietUnlessDone_runLoopFrom fuel context config signal streamFn :
  forall firstTurn hasMoreToolCalls pendingMessages steeringAfterTools,
    quietUnlessDone
      (runLoopFrom nestedLoop fuel context newMessages config signal stream
         streamFn firstTurn hasMoreToolCalls pendingMessages steeringAfterTools).
Proof.
  induction fuel as [|fuel IH]; intros firstTurn hasMore pending steering;
    cbn [runLoopFrom];
    repeat first
      [ apply IH
      | apply quietUnlessDone_finish
      | apply quietUnlessDone_outOfFuel
      | apply quietUnlessDone_bind; [unfold executeToolCalls; quiet_frame|intros ?]
      | match goal with
        | |- quietUnlessDone (match ?x with _ => _ end) => destruct x
        end ].
Qed.

Lemma quietUnlessDone_runLoop fuel context config signal streamFn :
  quietUnlessDone
    (runLoop nestedLoop fuel context newMessages config signal stream streamFn).
Proof.
  unfold runLoop. apply quietUnlessDone_bind; [quiet_frame|intros pending].
  apply quietUnlessDone_runLoopFrom.
Qed.

End Finishing.

(** *** What a run that returns has done *)

(** The outcome of a returned run, seen from its log, its
    [newMessages] and its stream: the same segment appended to both
    arrays, reported by the closing [agent_end], and paired when the
    caller's queues are plain and the adapter's ids distinct. *)
Definition runOutcome (config : AgentLoopConfig) (streamFn : option StreamFn)
    (log new : list AgentMessage) (es : EventStream.t)
    (log' : option (list AgentMessage)) (es' : option EventStream.t) : Prop :=
  exists seg evs,
    log' = Some (log ++ seg) /\
    quietEvents evs /\
    es' = Some (EventStream.mk
                  (EventStream.queue es ++ evs ++ [agent_end (new ++ seg)])
                  true (Some (new ++ seg))) /\
    (pollsPlain config ->
     responsesDistinctIds (default streamSimple streamFn) ->
     paired seg = true).

Section ReturnedRuns.

Variable nestedLoop : AgentLoopFn.
Hypothesis nested_preserved :
  forall advisor prompts context signal streamFn st,
    preserved anyCall st
      (snd (nestedLoop prompts context (advisorConfigOf advisor) signal streamFn st)).

Lemma runLoop_done fuel context newMessages config signal stream streamFn
    st st' log new es :
  messages context <> newMessages ->
  responsesWellFormed (default streamSimple streamFn) ->
  runLoop nestedLoop fuel context newMessages config signal stream streamFn st
    = (Done tt, st') ->
  arrays st !! messages context = Some log ->
  arrays st !! newMessages = Some new ->
  streams st !! stream = Some es ->
  EventStream.sealed es = false ->
  runOutcome config streamFn log new es
    (arrays st' !! messages context) (streams st' !! stream).
Proof.
  intros Hne Hwf Hrun Hlog Hnew Hes Hopen.
  assert (Happ : appends (messages context) newMessages
                   (fun _ seg segn =>
                      segn = seg /\
                      (pollsPlain config ->
                       responsesDistinctIds (default streamSimple streamFn) ->
                       paired seg = true))
                   (runLoop nestedLoop fuel context newMessages config signal
                      stream streamFn)).
  { unfold runLoop.
    eapply appends_bind; [apply (appends_pollMessages context newMessages)|].
    intros pending s1 n1 [-> [-> Hplain]].
    eapply appends_weaken;
      [apply (appends_runLoopFrom context newMessages Hne nestedLoop nested_preserved
                config signal stream streamFn Hwf)|].
    intros [] seg segn [-> Hpaired]. split; [reflexivity|].
    intros Hp Hd. cbn [app].
    apply Hpaired; [split; assumption| |intros ms H; discriminate].
    apply Hplain. intros poll Hcfg w r w' Hr. eapply Hp; [left; exact Hcfg|exact Hr]. }
  destruct (Happ st tt st' Hrun) as [seg [segn [Hstep [-> Hpaired]]]].
  destruct (Hstep log new (conj Hlog Hnew)) as [Hlog' Hnew'].
  destruct (finishes_runLoop newMessages stream nestedLoop nested_preserved fuel
              context config signal streamFn st tt st' Hrun es Hes Hopen)
    as [evs [Hq Hes']].
  rewrite (list_lookup_total_correct _ _ _ Hnew') in Hes'.
  exists seg, evs. repeat split; assumption.
Qed.

(** [agentLoopContinue] runs on the caller's array. *)
Lemma agentLoopContinueWith_done fuel context config signal streamFn st s st' log :
  responsesWellFormed (default streamSimple streamFn) ->
  agentLoopContinueWith nestedLoop fuel context config signal streamFn st
    = inr ((s, Done tt), st') ->
  arrays st !! messages context = Some log ->
  runOutcome config streamFn log [] (EventStream.mk [agent_start; turn_start] false None)
    (arrays st' !! messages context) (streams st' !! s).
Proof.
  intros Hwf Hrun Hlog. unfold agentLoopContinueWith, createAgentStream in Hrun.
  destruct (Nat.eqb _ 0); [discriminate|].
  destruct (agentLoopContinueBody _ _ _ _ _ _ _ _) as [out0 st0'] eqn:Hb.
  assert (Hres : inr ((List.length (streams st), out0), st0')
                 = (inr ((s, Done tt), st') : JsValue + (sid * Outcome unit) * State)).
  { destruct (last (arrays st !!! messages context)) as [[| | | |]|];
      first [discriminate|exact Hrun]. }
  injection Hres as <- -> <-. clear Hrun.
  unfold agentLoopContinueBody in Hb.
  unfold bind at 1 in Hb. cbn [newArray] in Hb.
  unfold bind at 1 in Hb. cbn [pushEvent] in Hb.
  unfold bind at 1 in Hb. cbn [pushEvent] in Hb.
  assert (Hlt : messages context < List.length (arrays st))
    by (eapply lookup_lt_Some; exact Hlog).
  eapply (runLoop_done fuel _ _ config signal _ streamFn _ st0' log []) in Hb;
    [exact Hb| | | | | |].
  - cbn [messages arrays setStreams setArrays]. lia.
  - exact Hwf.
  - cbn [messages arrays setStreams setArrays]. now apply lookup_app_l_Some.
  - cbn [messages arrays setStreams setArrays].
    rewrite lookup_app_r by lia. now rewrite Nat.sub_diag.
  - cbn [streams setStreams setArrays].
    rewrite !list_lookup_alter_eq, lookup_app_r, Nat.sub_diag by lia. reflexivity.
  - reflexivity.
Qed.

(** The [message_start]/[message_end] pairs that announce messages. *)
Definition announce (ms : list AgentMessage) : list AgentEvent :=
  flat_map (fun m => [message_start m; message_end m]) ms.

Lemma forEach_announce stream prompts :
  forall st, exists st',
    forEach prompts (fun prompt =>
      pushEvent stream (message_start prompt) ;;
      pushEvent stream (message_end prompt)) st = (Done tt, st') /\
    arrays st' = arrays st /\ calls st' = calls st /\ world st' = world st /\
    forall es, streams st !! stream = Some es ->
      streams st' !! stream = Some (EventStream.pushAll (announce prompts) es).
Proof.
  induction prompts as [|p rest IH]; intros st.
  - exists st. repeat split. intros es Hes. exact Hes.
  - cbn [forEach]. unfold bind at 1. unfold bind at 1. cbn [pushEvent].
    match goal with |- context [forEach _ _ ?s] => set (st2 := s) end.
    destruct (IH st2) as [st' [Hrun [Ha [Hc [Hw Hs]]]]].
    exists st'. split; [exact Hrun|]. repeat split; try assumption.
    intros es Hes. apply Hs. subst st2. cbn [streams setStreams].
    now rewrite !list_lookup_alter_eq, Hes.
Qed.

(** [agentLoop] runs on a copy of the caller's array followed by the
    prompts. *)
Lemma agentLoopWith_done fuel prompts context config signal streamFn st s st' log :
  responsesWellFormed (default streamSimple streamFn) ->
  agentLoopWith nestedLoop fuel prompts context config signal streamFn st
    = ((s, Done tt), st') ->
  arrays st !! messages context = Some log ->
  runOutcome config streamFn (log ++ prompts) prompts
    (EventStream.mk ([agent_start; turn_start] ++ announce prompts) false None)
    (arrays st' !! Datatypes.S (List.length (arrays st))) (streams st' !! s).
Proof.
  intros Hwf Hrun Hlog. unfold agentLoopWith, createAgentStream in Hrun.
  destruct (agentLoopBody _ _ _ _ _ _ _ _ _) as [out0 st0'] eqn:Hb.
  injection Hrun as <- -> <-.
  assert (Hlt : messages context < List.length (arrays st))
    by (eapply lookup_lt_Some; exact Hlog).
  unfold agentLoopBody in Hb.
  unfold bind at 1 in Hb. cbn [newArray] in Hb.
  unfold bind at 1 in Hb. cbn [readArray] in Hb.
  unfold bind at 1 in Hb. cbn [newArray] in Hb.
  assert (Hold : arrays (setArrays (arrays (setStreams (streams st ++ [EventStream.create]) st)
                          ++ [prompts])
                         (setStreams (streams st ++ [EventStream.create]) st))
                   !!! messages context = log).
  { cbn [arrays setStreams setArrays]. apply list_lookup_total_correct.
    now apply lookup_app_l_Some. }
  rewrite Hold in Hb. cbn [arrays setStreams setArrays] in Hb.
  rewrite length_app in Hb. cbn [List.length] in Hb.
  replace (List.length (arrays st) + 1) with (Datatypes.S (List.length (arrays st)))
    in Hb by lia.
  unfold bind at 1 in Hb. cbn [pushEvent] in Hb.
  unfold bind at 1 in Hb. cbn [pushEvent] in Hb.
  unfold bind at 1 in Hb.
  match type of Hb with context [forEach _ _ ?s] => set (st2 := s) in Hb end.
  destruct (forEach_announce (List.length (streams st)) prompts st2)
    as [st3 [Hfe [Ha [Hc [Hw Hs]]]]].
  rewrite Hfe in Hb.
  eapply (runLoop_done fuel _ _ config signal _ streamFn st3 st0'
            (log ++ prompts) prompts) in Hb; [exact Hb| | | | | |].
  - cbn [messages]. lia.
  - exact Hwf.
  - cbn [messages]. rewrite Ha. subst st2. cbn [arrays setStreams setArrays].
    rewrite lookup_app_r; rewrite length_app; cbn [List.length]; [|lia].
    replace (Datatypes.S (List.length (arrays st)) - (List.length (arrays st) + 1))
      with 0 by lia. reflexivity.
  - rewrite Ha. subst st2. cbn [arrays setStreams setArrays].
    rewrite lookup_app_l by (rewrite length_app; cbn; lia).
    rewrite lookup_app_r by lia. now rewrite Nat.sub_diag.
  - rewrite (Hs (EventStream.mk [agent_start; turn_start] false None)).
    + now rewrite pushAll_open by reflexivity.
    + subst st2. cbn [streams setStreams setArrays].
      rewrite !list_lookup_alter_eq, lookup_app_r, Nat.sub_diag by lia. reflexivity.
  - reflexivity.
Qed.

End ReturnedRuns.

(** ** Tool calls and their results in the log *)

(** Each tool-call id of an assistant message that did not stop on
    [error] or [aborted] is answered by exactly one tool result before
    the next assistant message. *)
Definition everyCallAnswered (seg : list AgentMessage) : Prop :=
  forall pre a post,
    seg = pre ++ MAssistant a :: post ->
    isErrorStop (am_stopReason a) = false ->
    forall id, In id (toolCallIds a) ->
      count_occ string_dec (resultIdsBeforeNextAssistant post) id = 1.

Lemma runOutcome_answered config streamFn log new es log' es' :
  runOutcome config streamFn log new es log' es' ->
  pollsPlain config ->
  responsesDistinctIds (default streamSimple streamFn) ->
  exists seg, log' = Some (log ++ seg) /\ everyCallAnswered seg.
Proof.
  intros [seg [evs [Hlog [_ [_ Hpaired]]]]] Hp Hd. exists seg. split; [exact Hlog|].
  intros pre a post Heq. eapply paired_spec; [now apply Hpaired|exact Heq].
Qed.

(** C1 (amended). When a run returns, with an adapter whose responses
    end in [done] or [error] and carry distinct tool-call ids, and a
    caller that queues neither assistant messages nor tool results:
    in what the run appended to its log, every assistant message that
    did not stop on [error] or [aborted] has each of its tool-call ids
    answered by exactly one tool result before the next assistant
    message, also when a steering interrupt skipped the remaining
    calls. The log is a private copy for [agentLoop] and the caller's
    array for [agentLoopContinue]. *)
Theorem tool_calls_answered_once (fuel : nat) config signal streamFn :
  responsesWellFormed (default streamSimple streamFn) ->
  responsesDistinctIds (default streamSimple streamFn) ->
  pollsPlain config ->
  (forall prompts context st s st' log,
     arrays st !! messages context = Some log ->
     agentLoop fuel prompts context config signal streamFn st
       = ((s, Done tt), st') ->
     exists seg,
       arrays st' !! Datatypes.S (List.length (arrays st))
         = Some ((log ++ prompts) ++ seg) /\
       everyCallAnswered seg) /\
  (forall context st s st' log,
     arrays st !! messages context = Some log ->
     agentLoopContinue fuel context config signal streamFn st
       = inr ((s, Done tt), st') ->
     exists seg,
       arrays st' !! messages context = Some (log ++ seg) /\
       everyCallAnswered seg).
Proof.
  intros Hwf Hd Hp.
  pose proof (nestedAt_preserved anyCall anyCall_other fuel) as Hnested.
  split.
  - intros prompts context st s st' log Hlog Hrun. rewrite agentLoop_unfold in Hrun.
    eapply runOutcome_answered; [|exact Hp|exact Hd].
    eapply (agentLoopWith_done (nestedAt fuel) Hnested); eassumption.
  - intros context st s st' log Hlog Hrun.
    unfold agentLoopContinue in Hrun. fold (nestedAt fuel) in Hrun.
    eapply runOutcome_answered; [|exact Hp|exact Hd].
    eapply (agentLoopContinueWith_done (nestedAt fuel) Hnested); eassumption.
Qed.

(** ** Whose array a run appends to *)

(** What the closing [agent_end] of a sealed stream reports. *)
Definition reported (es : EventStream.t) (seg : list AgentMessage) : Prop :=
  EventStream.sealed es = true /\
  EventStream.finalResult es = Some seg /\
  last (EventStream.queue es) = Some (agent_end seg).

Lemma runOutcome_reported config streamFn log new es log' es' :
  runOutcome config streamFn log new es log' es' ->
  exists seg es1,
    log' = Some (log ++ seg) /\ es' = Some es1 /\ reported es1 (new ++ seg).
Proof.
  intros [seg [evs [Hlog [_ [Hes _]]]]]. exists seg. eexists.
  split; [exact Hlog|]. split; [exact Hes|]. repeat split.
  cbn [EventStream.queue]. rewrite !app_assoc. apply last_snoc.
Qed.

(** C9 (amended). A run started with [agentLoopContinue] appends to
    the caller's array: the array only ever grows during the run, and
    when the run returns it holds what it held before followed by
    exactly the messages that the closing [agent_end] reports. A run
    started with [agentLoop] never changes an array that existed
    before, the caller's included: it appends to a copy of the
    caller's messages followed by the prompts. *)
Theorem caller_array_mutated_only_by_continue (fuel : nat) :
  (forall context config signal streamFn st s out st' log,
     arrays st !! messages context = Some log ->
     agentLoopContinue fuel context config signal streamFn st
       = inr ((s, out), st') ->
     (exists ext, arrays st' !! messages context = Some (log ++ ext)) /\
     (out = Done tt ->
      responsesWellFormed (default streamSimple streamFn) ->
      exists seg es,
        arrays st' !! messages context = Some (log ++ seg) /\
        streams st' !! s = Some es /\ reported es seg)) /\
  (forall prompts context config signal streamFn st,
     let r := agentLoop fuel prompts context config signal streamFn st in
     (forall i v, arrays st !! i = Some v -> arrays (snd r) !! i = Some v) /\
     (forall log,
        snd (fst r) = Done tt ->
        responsesWellFormed (default streamSimple streamFn) ->
        arrays st !! messages context = Some log ->
        exists seg es,
          arrays (snd r) !! Datatypes.S (List.length (arrays st))
            = Some ((log ++ prompts) ++ seg) /\
          streams (snd r) !! fst (fst r) = Some es /\
          reported es (prompts ++ seg))).
Proof.
  pose proof (nestedAt_preserved anyCall anyCall_other fuel) as Hnested.
  split.
  - intros context config signal streamFn st s out st' log Hlog Hrun.
    unfold agentLoopContinue in Hrun. fold (nestedAt fuel) in Hrun. split.
    + destruct (agentLoopContinueWith_run anyCall anyCall_other (nestedAt fuel) Hnested
                  fuel context config signal streamFn st s out st'
                  (pollsOK_anyCall config) Hrun) as [_ [[_ Ha _] _]].
      destruct (Ha _ _ Hlog) as [ext [Hext _]]. now exists ext.
    + intros -> Hwf.
      pose proof (agentLoopContinueWith_done (nestedAt fuel) Hnested fuel context
                    config signal streamFn st s st' log Hwf Hrun Hlog) as Hout.
      apply runOutcome_reported in Hout as [seg [es [H1 [H2 H3]]]].
      exists seg, es. split; [exact H1|]. split; [exact H2|exact H3].
  - intros prompts context config signal streamFn st r. split.
    + intros i v Hi. subst r.
      destruct (agentLoop_preserved anyCall anyCall_other fuel prompts context config
                  signal streamFn st (pollsOK_anyCall config)) as [_ Ha _].
      destruct (Ha i v Hi) as [ext [Hext Hnil]].
      now rewrite (Hnil (fun F => F)), app_nil_r in Hext.
    + intros log Hdone Hwf Hlog. subst r.
      destruct (agentLoop fuel prompts context config signal streamFn st)
        as [[s out] st'] eqn:Hrun. cbn [fst snd] in *. subst out.
      rewrite agentLoop_unfold in Hrun.
      pose proof (agentLoopWith_done (nestedAt fuel) Hnested fuel prompts context
                    config signal streamFn st s st' log Hwf Hrun Hlog) as Hout.
      apply runOutcome_reported in Hout as [seg [es [H1 [H2 H3]]]].
      exists seg, es. split; [exact H1|]. split; [exact H2|exact H3].
Qed.

(** ** Single turns *)

(** The start of a turn, up to the assistant message being recorded:
    lines 125-144 of agent-loop.ts. *)
Definition beginTurn (context : AgentContext) (newMessages : loc)
    (config : AgentLoopConfig) (signal : option AbortSignal) (stream : sid)
    (streamFn : option StreamFn) (firstTurn : bool)
    (pendingMessages : list AgentMessage) : M AssistantMessage :=
  (if firstTurn then ret tt else pushEvent stream turn_start) ;;
  injectPending context newMessages stream pendingMessages ;;
  message <- streamAssistantResponse context config signal stream streamFn ;;
  arrayPush newMessages (MAssistant message) ;;
  ret message.

(** A tool call with its result and its advisors: lines 308-376. *)
Definition toolStep (nestedLoop : AgentLoopFn) (context : AgentContext)
    (newMessages : loc) (toolCall : ToolCall) (config : AgentLoopConfig)
    (signal : option AbortSignal) (stream : sid) (streamFn : option StreamFn)
    : M ToolResultMessage :=
  toolResultMessage <- dispatchToolCall context newMessages toolCall signal stream ;;
  handleAdvisors nestedLoop (advisors config) context newMessages toolCall
    toolResultMessage stream signal streamFn ;;
  ret toolResultMessage.

Lemma bind_Done_inv {A B} (m : M A) (k : A -> M B) st b st' :
  bind m k st = (Done b, st') ->
  exists a st1, m st = (Done a, st1) /\ k a st1 = (Done b, st').
Proof.
  unfold bind. destruct (m st) as [[a|e| |] st1]; try discriminate.
  intros H. now exists a, st1.
Qed.

Lemma bind_Done_eq {A B} (m : M A) (k : A -> M B) st a st1 :
  m st = (Done a, st1) -> bind m k st = k a st1.
Proof. intros H. unfold bind. now rewrite H. Qed.

Lemma injectPending_total context newMessages stream pendingMessages st :
  exists st', injectPending context newMessages stream pendingMessages st = (Done tt, st').
Proof.
  unfold injectPending. revert st.
  induction pendingMessages as [|m rest IH]; intros st; cbn [forEach].
  - now exists st.
  - unfold bind at 1. unfold bind at 1. unfold bind at 1. unfold bind at 1.
    cbn [pushEvent arrayPush]. apply IH.
Qed.

Section Turns.

Variable nestedLoop : AgentLoopFn.
Variable context : AgentContext.
Variable newMessages : loc.
Variable config : AgentLoopConfig.
Variable signal : option AbortSignal.
Variable stream : sid.
Variable streamFn : option StreamFn.

(** What the loop does once the turn has its assistant message. *)
Lemma runLoopFrom_turn fuel firstTurn hasMore pending steer st message st1 :
  hasMore || nonEmpty pending = true ->
  beginTurn context newMessages config signal stream streamFn firstTurn pending st
    = (Done message, st1) ->
  runLoopFrom nestedLoop (Datatypes.S fuel) context newMessages config signal stream
    streamFn firstTurn hasMore pending steer st
  = (if isErrorStop (am_stopReason message) then
       pushEvent stream (turn_end (MAssistant message) []) ;;
       finish newMessages stream
     else
       let hasMore' := nonEmpty (toolCallsOf (am_content message)) in
       r <- (if hasMore' then
               executeToolCalls nestedLoop context newMessages message config
                 signal stream streamFn
             else ret ([], steer)) ;;
       pushEvent stream (turn_end (MAssistant message) (fst r)) ;;
       match snd r with
       | Some (m :: ms) =>
           runLoopFrom nestedLoop fuel context newMessages config signal stream
             streamFn false hasMore' (m :: ms) None
       | other =>
           pending' <- pollMessages CallGetSteeringMessages
                         (getSteeringMessages config) ;;
           runLoopFrom nestedLoop fuel context newMessages config signal stream
             streamFn false hasMore' pending' other
       end) st1.
Proof.
  intros Hcond Hturn. cbn [runLoopFrom]. rewrite Hcond.
  unfold beginTurn in Hturn.
  apply bind_Done_inv in Hturn as [[] [sa [Ha Hturn]]].
  apply bind_Done_inv in Hturn as [[] [sb [Hb Hturn]]].
  apply bind_Done_inv in Hturn as [msg [sc [Hc Hturn]]].
  apply bind_Done_inv in Hturn as [[] [sd [Hd Hturn]]].
  injection Hturn as -> ->.
  rewrite (bind_Done_eq _ _ _ _ _ Ha), (bind_Done_eq _ _ _ _ _ Hb),
    (bind_Done_eq _ _ _ _ _ Hc), (bind_Done_eq _ _ _ _ _ Hd).
  reflexivity.
Qed.

(** C5. When the assistant message of a turn has stop reason [error]
    or [aborted], the loop pushes [turn_end] with no tool results,
    then [agent_end] with the new messages, seals the stream and
    returns. Nothing is called after the response: no tool runs. *)
Theorem error_stop_ends_run fuel firstTurn hasMore pending steer st message st1 :
  hasMore || nonEmpty pending = true ->
  beginTurn context newMessages config signal stream streamFn firstTurn pending st
    = (Done message, st1) ->
  isErrorStop (am_stopReason message) = true ->
  exists st2,
    runLoopFrom nestedLoop (Datatypes.S fuel) context newMessages config signal stream
      streamFn firstTurn hasMore pending steer st = (Done tt, st2) /\
    calls st2 = calls st1 /\ world st2 = world st1 /\ arrays st2 = arrays st1 /\
    Forall (fun c => isToolExecute c = false) (drop (List.length (calls st1)) (calls st2)) /\
    forall es,
      streams st1 !! stream = Some es -> EventStream.sealed es = false ->
      streams st2 !! stream
        = Some (EventStream.mk
                  (EventStream.queue es
                   ++ [turn_end (MAssistant message) [];
                       agent_end (arrays st1 !!! newMessages)])
                  true (Some (arrays st1 !!! newMessages))).
Proof.
  intros Hcond Hturn Hstop.
  rewrite (runLoopFrom_turn fuel firstTurn hasMore pending steer st message st1 Hcond Hturn).
  rewrite Hstop. eexists. split; [reflexivity|].
  cbn [calls world arrays setStreams]. repeat split.
  - rewrite drop_ge by lia. constructor.
  - intros es Hes Hopen. cbn [streams setStreams].
    rewrite !list_lookup_alter_eq, Hes. cbn.
    unfold EventStream.end_, EventStream.push. rewrite Hopen. cbn.
    now rewrite <- app_assoc.
Qed.

End Turns.

(** ** Steering between two tool calls *)

Definition noCall : Call -> Prop := fun _ => False.

Lemma frame_noCall L S E st st' : frame noCall L S E st st' -> calls st' = calls st.
Proof.
  intros [[cs [Hc Hok]] _ _]. destruct cs as [|c cs]; [now rewrite app_nil_r in Hc|].
  inversion Hok as [|? ? []].
Qed.

Lemma injectPending_calls context newMessages stream pending st :
  calls (snd (injectPending context newMessages stream pending st)) = calls st.
Proof.
  apply (frame_noCall everywhere everywhere anyStream).
  apply (respects_injectPending noCall everywhere everywhere anyStream anyStream_push);
    exact I.
Qed.

Lemma skipRemaining_calls context newMessages remaining stream results st :
  calls (snd (skipRemaining context newMessages remaining stream results st)) = calls st.
Proof.
  apply (frame_noCall everywhere everywhere anyStream).
  apply (respects_skipRemaining noCall everywhere everywhere anyStream anyStream_push);
    exact I.
Qed.

Lemma skipToolCall_total toolCall stream st :
  exists r st', skipToolCall toolCall stream st = (Done r, st').
Proof.
  unfold skipToolCall, bind, pushEvent, now, ret. cbn [world setStreams].
  destruct (Date_now (world st)) as [t w']. eexists. eexists. reflexivity.
Qed.

Lemma skipRemaining_total context newMessages remaining stream :
  forall results st, exists res st',
    skipRemaining context newMessages remaining stream results st = (Done res, st').
Proof.
  induction remaining as [|skipped rest IH]; intros results st; cbn [skipRemaining].
  - now exists results, st.
  - destruct (skipToolCall_total skipped stream st) as [r [s1 H]].
    rewrite (bind_Done_eq _ _ _ _ _ H).
    unfold bind at 1. cbn [arrayPush]. unfold bind at 1. cbn [arrayPush]. apply IH.
Qed.

(** The next turn starts by injecting what is pending, before anything
    is called. *)
Lemma runLoopFrom_inject nestedLoop fuel context newMessages config signal stream
    streamFn (firstTurn : bool) pending steer st :
  exists st',
    ((if firstTurn then (ret tt : M unit) else pushEvent stream turn_start) ;;
     injectPending context newMessages stream pending) st = (Done tt, st') /\
    calls st' = calls st /\
    runLoopFrom nestedLoop (Datatypes.S fuel) context newMessages config signal stream
      streamFn firstTurn true pending steer st
    = runLoopFrom nestedLoop (Datatypes.S fuel) context newMessages config signal
        stream streamFn true true [] steer st'.
Proof.
  destruct ((if firstTurn then (ret tt : M unit) else pushEvent stream turn_start) st)
    as [o sa] eqn:Ha.
  assert (Ho : o = Done tt /\ calls sa = calls st).
  { destruct firstTurn; injection Ha as <- <-; split; reflexivity. }
  destruct Ho as [-> Hca].
  destruct (injectPending_total context newMessages stream pending sa) as [st' Hb].
  exists st'. split; [|split].
  - rewrite (bind_Done_eq _ _ _ _ _ Ha). exact Hb.
  - rewrite <- Hca.
    pose proof (injectPending_calls context newMessages stream pending sa) as Hc.
    now rewrite Hb in Hc.
  - cbn [runLoopFrom orb].
    rewrite (bind_Done_eq _ _ _ _ _ Ha), (bind_Done_eq _ _ _ _ _ Hb).
    reflexivity.
Qed.

Section Steering.

Variable nestedLoop : AgentLoopFn.
Hypothesis nested_preserved :
  forall advisor prompts context signal streamFn st,
    preserved anyCall st
      (snd (nestedLoop prompts context (advisorConfigOf advisor) signal streamFn st)).

Variable context : AgentContext.
Variable newMessages : loc.
Hypothesis log_new : messages context <> newMessages.
Variable config : AgentLoopConfig.
Variable signal : option AbortSignal.
Variable stream : sid.
Variable streamFn : option StreamFn.

(** C2. When, after a tool result and its advisors,
    [getSteeringMessages] returns a non-empty list: every remaining
    tool call of the assistant message gets a synthesized result with
    [isError = true] and the text "Skipped due to queued user
    message.", appended to the results and to the log; between the
    poll and the return of the dispatcher nothing is called, neither a
    tool nor an advisor; the loop then takes the returned messages as
    pending without polling again, and the next turn starts by
    appending them to the log before anything else is called. *)
Theorem steering_skips_remaining_calls :
  (forall poll toolCall remaining results st trm st1 steering w2,
     getSteeringMessages config = Some poll ->
     toolStep nestedLoop context newMessages toolCall config signal stream streamFn st
       = (Done trm, st1) ->
     poll (world st1) = (Returns steering, w2) ->
     nonEmpty steering = true ->
     exists skipped st2,
       executeToolCallsFrom nestedLoop context newMessages (toolCall :: remaining)
         config signal stream streamFn results st
         = (Done (results ++ trm :: skipped, Some steering), st2) /\
       Forall2 skippedResultFor remaining skipped /\
       calls st2 = calls st1 ++ [CallGetSteeringMessages] /\
       logStep (messages context) newMessages
         (map MToolResult skipped) (map MToolResult skipped) st1 st2) /\
  (forall fuel firstTurn hasMore pending steer st message st1 results steering st2,
     hasMore || nonEmpty pending = true ->
     beginTurn context newMessages config signal stream streamFn firstTurn pending st
       = (Done message, st1) ->
     isErrorStop (am_stopReason message) = false ->
     nonEmpty (toolCallsOf (am_content message)) = true ->
     executeToolCalls nestedLoop context newMessages message config signal stream
       streamFn st1 = (Done (results, Some steering), st2) ->
     nonEmpty steering = true ->
     runLoopFrom nestedLoop (Datatypes.S fuel) context newMessages config signal stream
       streamFn firstTurn hasMore pending steer st
     = runLoopFrom nestedLoop fuel context newMessages config signal stream streamFn
         false true steering None
         (snd (pushEvent stream (turn_end (MAssistant message) results) st2))) /\
  (forall fuel steering st,
     exists st',
       (pushEvent stream turn_start ;;
        injectPending context newMessages stream steering) st = (Done tt, st') /\
       calls st' = calls st /\
       logStep (messages context) newMessages steering steering st st' /\
       runLoopFrom nestedLoop (Datatypes.S fuel) context newMessages config signal
         stream streamFn false true steering None st
       = runLoopFrom nestedLoop (Datatypes.S fuel) context newMessages config signal
           stream streamFn true true [] None st').
Proof.
  split; [|split].
  - intros poll toolCall remaining results st trm st1 steering w2 Hcfg Hstep Hpoll Hne.
    unfold toolStep in Hstep.
    apply bind_Done_inv in Hstep as [trm' [sa [Ha Hstep]]].
    apply bind_Done_inv in Hstep as [[] [sb [Hb Hstep]]].
    injection Hstep as -> ->.
    set (st1' := addCall CallGetSteeringMessages (setWorld w2 st1)).
    destruct (skipRemaining_total context newMessages remaining stream
                (results ++ [trm]) st1') as [res [st2 Hskip]].
    destruct (appends_skipRemaining context newMessages log_new remaining stream
                (results ++ [trm]) st1' res st2 Hskip)
      as [seg [segn [Hlog [skipped [-> [-> [-> HF]]]]]]].
    exists skipped, st2. split; [|split; [exact HF|split]].
    + cbn [executeToolCallsFrom].
      rewrite (bind_Done_eq _ _ _ _ _ Ha), (bind_Done_eq _ _ _ _ _ Hb), Hcfg.
      assert (Hext : extcall CallGetSteeringMessages poll st1 = (Done steering, st1')).
      { unfold extcall, bind, perform, await, ret. now rewrite Hpoll. }
      rewrite (bind_Done_eq _ _ _ _ _ Hext), Hne, (bind_Done_eq _ _ _ _ _ Hskip).
      unfold ret. now rewrite <- app_assoc.
    + pose proof (skipRemaining_calls context newMessages remaining stream
                    (results ++ [trm]) st1') as Hc.
      now rewrite Hskip in Hc.
    + intros v vn Hl. apply Hlog. exact Hl.
  - intros fuel firstTurn hasMore pending steer st message st1 results steering st2
      Hcond Hturn Hstop Hmore Hexec Hne.
    rewrite (runLoopFrom_turn nestedLoop context newMessages config signal stream
               streamFn fuel firstTurn hasMore pending steer st message st1 Hcond Hturn).
    rewrite Hstop. cbv zeta. rewrite Hmore.
    rewrite (bind_Done_eq _ _ _ _ _ Hexec). cbn [fst snd].
    unfold bind at 1. cbn [pushEvent].
    destruct steering as [|m ms]; [discriminate|]. reflexivity.
  - intros fuel steering st.
    destruct (runLoopFrom_inject nestedLoop fuel context newMessages config signal
                stream streamFn false steering None st) as [st' [Hrun [Hc Heq]]].
    exists st'. split; [exact Hrun|]. split; [exact Hc|]. split; [|exact Heq].
    apply bind_Done_inv in Hrun as [[] [sa [Ha Hrun]]].
    injection Ha as <-.
    destruct (appends_injectPending context newMessages log_new stream steering _ _ _ Hrun)
      as [seg [segn [Hstep [-> ->]]]].
    exact Hstep.
Qed.

End Steering.

(** ** Errors of tools *)

Definition errorResult (text : string) : AgentToolResult :=
  mkAgentToolResult [TextContent text] emptyObject.

Lemma forEach_push_total {A} (xs : list A) (f : A -> AgentEvent) stream st :
  exists st', forEach xs (fun x => pushEvent stream (f x)) st = (Done tt, st').
Proof.
  revert st. induction xs as [|x xs IH]; intros st; cbn [forEach].
  - now exists st.
  - unfold bind at 1. cbn [pushEvent]. apply IH.
Qed.

Definition afterExecute (toolCall : ToolCall) (stream : sid)
    (updates : list AgentToolResult) (w' : W) (st : State) : State :=
  snd (forEach updates (fun partialResult =>
         pushEvent stream
           (tool_execution_update (tc_id toolCall) (tc_name toolCall)
              (tc_arguments toolCall) partialResult))
         (addCall (CallToolExecute (tc_name toolCall) (tc_id toolCall))
            (setWorld w' st))).

Lemma invokeTool_run tool toolCall signal stream st args updates completion w' :
  validateToolArguments tool toolCall = inr args ->
  execute tool (tc_id toolCall) args signal (world st) = ((updates, completion), w') ->
  invokeTool (Some tool) toolCall signal stream st
  = await completion (afterExecute toolCall stream updates w' st).
Proof.
  intros Hval Hexec. unfold invokeTool, afterExecute. rewrite Hval.
  unfold bind at 1, perform. rewrite Hexec. cbn [fst snd].
  set (st1 := addCall _ _).
  destruct (forEach_push_total updates
              (tool_execution_update (tc_id toolCall) (tc_name toolCall)
                 (tc_arguments toolCall)) stream st1) as [st2 H2].
  rewrite (bind_Done_eq _ _ _ _ _ H2). now rewrite H2.
Qed.

Lemma invokeTool_outcome tool toolCall signal stream st :
  exists st',
    (exists r, invokeTool tool toolCall signal stream st = (Done r, st')) \/
    (exists e, invokeTool tool toolCall signal stream st = (Threw e, st')).
Proof.
  destruct tool as [tool|].
  - destruct (validateToolArguments tool toolCall) as [e|args] eqn:Hval.
    + exists st. right. exists e. unfold invokeTool. now rewrite Hval.
    + destruct (execute tool (tc_id toolCall) args signal (world st))
        as [[ups r] w'] eqn:Hexec.
      rewrite (invokeTool_run tool toolCall signal stream st args ups r w' Hval Hexec).
      eexists. destruct r as [a|e|e];
        [left; now exists a|right; now exists e|right; now exists e].
  - exists st. right. eexists. reflexivity.
Qed.

(** What [runTool] gives when [execute] ends with the error [e]. *)
Lemma runTool_failed tool toolCall signal stream st args updates completion e w' :
  validateToolArguments tool toolCall = inr args ->
  execute tool (tc_id toolCall) args signal (world st) = ((updates, completion), w') ->
  completion = ThrowsSync e \/ completion = Rejects e ->
  runTool (Some tool) toolCall signal stream st
  = (Done (errorResult (errorText e), true),
     afterExecute toolCall stream updates w' st).
Proof.
  intros Hval Hexec Hc. unfold runTool, tryCatch, bind.
  rewrite (invokeTool_run tool toolCall signal stream st args updates completion w'
             Hval Hexec).
  destruct Hc as [-> | ->]; reflexivity.
Qed.


(** ** How the entry points start *)

Lemma runStep_open_queue es es' :
  EventStream.sealed es = false -> runStep es es' ->
  exists rest, EventStream.queue es' = EventStream.queue es ++ rest.
Proof.
  intros Hopen [[evs [-> _]]|[evs [v [-> _]]]].
  - rewrite pushAll_open by exact Hopen. now exists evs.
  - rewrite pushAll_open by exact Hopen. exists (evs ++ [agent_end v]).
    unfold EventStream.end_, EventStream.push. cbn. now rewrite <- app_assoc.
Qed.

(** Where [agentLoopContinue] stands when it enters [runLoop]. *)
Lemma agentLoopContinueWith_prelude nestedLoop fuel context config signal streamFn st :
  arrays st !!! messages context <> [] ->
  (forall a, last (arrays st !!! messages context) <> Some (MAssistant a)) ->
  exists st3,
    agentLoopContinueWith nestedLoop fuel context config signal streamFn st
    = (let r := runLoop nestedLoop fuel
                  (mkAgentContext (systemPrompt context) (messages context)
                     (tools context))
                  (List.length (arrays st)) config signal
                  (List.length (streams st)) streamFn st3 in
       inr ((List.length (streams st), fst r), snd r)) /\
    calls st3 = calls st /\ world st3 = world st /\
    arrays st3 = arrays st ++ [[]] /\
    streams st3 !! List.length (streams st)
      = Some (EventStream.mk [agent_start; turn_start] false None).
Proof.
  intros Hne Hlast. unfold agentLoopContinueWith, createAgentStream.
  destruct (arrays st !!! messages context) as [|m0 logged] eqn:Hlogged;
    [contradiction|].
  cbn [List.length Nat.eqb].
  unfold agentLoopContinueBody.
  unfold bind at 1. cbn [newArray].
  unfold bind at 1. cbn [pushEvent].
  unfold bind at 1. cbn [pushEvent].
  match goal with
  | |- context [runLoop _ _ _ _ _ _ _ _ ?x] => exists x
  end.
  split; [|split; [|split; [|split]]].
  - destruct (last (m0 :: logged)) as [[| a | | |]|] eqn:Hl;
      try (exfalso; now apply (Hlast a));
      cbv zeta;
      match goal with
      | |- (let '(out, st') := ?run in _) = inr ((_, fst ?run'), _) =>
          change run' with run; destruct run as [out st']; reflexivity
      end.
  - reflexivity.
  - reflexivity.
  - reflexivity.
  - cbn [streams setStreams setArrays].
    rewrite !list_lookup_alter_eq, lookup_app_r, Nat.sub_diag by lia. reflexivity.
Qed.

(** Where [agentLoop] stands when it enters [runLoop]. *)
Lemma agentLoopWith_prelude nestedLoop fuel prompts context config signal streamFn st log :
  arrays st !! messages context = Some log ->
  exists st3,
    agentLoopWith nestedLoop fuel prompts context config signal streamFn st
    = (let r := runLoop nestedLoop fuel
                  (mkAgentContext (systemPrompt context)
                     (Datatypes.S (List.length (arrays st))) (tools context))
                  (List.length (arrays st)) config signal
                  (List.length (streams st)) streamFn st3 in
       ((List.length (streams st), fst r), snd r)) /\
    calls st3 = calls st /\ world st3 = world st /\
    arrays st3 = arrays st ++ [prompts; log ++ prompts] /\
    streams st3 !! List.length (streams st)
      = Some (EventStream.mk ([agent_start; turn_start] ++ announce prompts) false None).
Proof.
  intros Hlog. unfold agentLoopWith, createAgentStream, agentLoopBody.
  assert (Hlt : messages context < List.length (arrays st))
    by (eapply lookup_lt_Some; exact Hlog).
  unfold bind at 1. cbn [newArray].
  unfold bind at 1. cbn [readArray].
  unfold bind at 1. cbn [newArray].
  assert (Hold : arrays (setArrays (arrays (setStreams (streams st ++ [EventStream.create]) st)
                          ++ [prompts])
                         (setStreams (streams st ++ [EventStream.create]) st))
                   !!! messages context = log).
  { cbn [arrays setStreams setArrays]. apply list_lookup_total_correct.
    now apply lookup_app_l_Some. }
  rewrite Hold. cbn [arrays setStreams setArrays].
  rewrite length_app. cbn [List.length].
  replace (List.length (arrays st) + 1) with (Datatypes.S (List.length (arrays st))) by lia.
  unfold bind at 1. cbn [pushEvent].
  unfold bind at 1. cbn [pushEvent].
  unfold bind at 1.
  match goal with |- context [forEach _ _ ?s] => set (st2 := s) end.
  destruct (forEach_announce (List.length (streams st)) prompts st2)
    as [st3 [Hfe [Ha [Hc [Hw Hs]]]]].
  rewrite Hfe. exists st3. split; [|split; [|split; [|split]]].
  - cbv zeta.
    match goal with
    | |- (let '(out, st') := ?run in _) = ((_, fst ?run'), _) =>
        change run' with run; destruct run as [out st']; reflexivity
    end.
  - rewrite Hc. reflexivity.
  - rewrite Hw. reflexivity.
  - rewrite Ha. subst st2. cbn [arrays setStreams setArrays].
    now rewrite <- app_assoc.
  - rewrite (Hs (EventStream.mk [agent_start; turn_start] false None)).
    + now rewrite pushAll_open by reflexivity.
    + subst st2. cbn [streams setStreams setArrays].
      rewrite !list_lookup_alter_eq, lookup_app_r, Nat.sub_diag by lia. reflexivity.
Qed.

Lemma injectPending_stream context newMessages stream pending :
  forall st es,
    streams st !! stream = Some es ->
    streams (snd (injectPending context newMessages stream pending st)) !! stream
    = Some (EventStream.pushAll (announce pending) es).
Proof.
  unfold injectPending.
  induction pending as [|m rest IH]; intros st es Hes; [exact Hes|].
  cbn [forEach].
  match goal with
  | |- context [bind ?body ?k st] =>
      assert (Hstep : exists st2,
                body st = (Done tt, st2) /\
                streams st2 !! stream
                = Some (EventStream.push (message_end m)
                          (EventStream.push (message_start m) es)))
  end.
  { eexists. split; [reflexivity|]. cbn [streams setStreams setArrays].
    now rewrite !list_lookup_alter_eq, Hes. }
  destruct Hstep as [st2 [Hbody Hs2]].
  rewrite (bind_Done_eq _ _ _ _ _ Hbody). now apply IH.
Qed.

Section FirstPoll.

Variable nestedLoop : AgentLoopFn.
Hypothesis nested_preserved :
  forall advisor prompts context signal streamFn st,
    preserved anyCall st
      (snd (nestedLoop prompts context (advisorConfigOf advisor) signal streamFn st)).

Variable context : AgentContext.
Variable newMessages : loc.
Variable config : AgentLoopConfig.
Variable signal : option AbortSignal.
Variable stream : sid.
Variable streamFn : option StreamFn.
Variable poll : Oracle (list AgentMessage).
Hypothesis polled : getSteeringMessages config = Some poll.

Local Abbreviation runFrame :=
  (frame anyCall everywhere (fun i => i = stream) runStep).

Lemma runLoopFrom_runFrame fuel firstTurn hasMore pending steer st :
  runFrame st
    (snd (runLoopFrom nestedLoop fuel context newMessages config signal stream
            streamFn firstTurn hasMore pending steer st)).
Proof.
  apply (respects_runLoopFrom anyCall everywhere (fun i => i = stream) runStep
           runStep_push anyCall_other nestedLoop nested_preserved runStep_finish);
    first [exact I|reflexivity|right; exact I].
Qed.

Lemma runLoop_polled fuel st :
  runLoop nestedLoop fuel context newMessages config signal stream streamFn st
  = (let '(r, w1) := poll (world st) in
     let st1 := addCall CallGetSteeringMessages (setWorld w1 st) in
     match r with
     | Returns pending =>
         runLoopFrom nestedLoop fuel context newMessages config signal stream
           streamFn true true pending None st1
     | ThrowsSync e => (Threw e, st1)
     | Rejects e => (Threw e, st1)
     end).
Proof.
  unfold runLoop, pollMessages. rewrite polled.
  unfold extcall, bind, perform.
  destruct (poll (world st)) as [[pending|e|e] w1]; reflexivity.
Qed.

(** [runLoop] starts with the poll, and the first turn with what the
    poll returned. *)
Lemma runLoop_start fuel st :
  let st' := snd (runLoop nestedLoop fuel context newMessages config signal stream
                    streamFn st) in
  (exists cs, calls st' = calls st ++ CallGetSteeringMessages :: cs) /\
  (forall pending w' log new es,
     poll (world st) = (Returns pending, w') ->
     1 <= fuel ->
     messages context <> newMessages ->
     arrays st !! messages context = Some log ->
     arrays st !! newMessages = Some new ->
     streams st !! stream = Some es ->
     EventStream.sealed es = false ->
     exists ext es' rest,
       arrays st' !! messages context = Some (log ++ pending ++ ext) /\
       streams st' !! stream = Some es' /\
       EventStream.queue es' = EventStream.queue es ++ announce pending ++ rest).
Proof.
  intros st'. subst st'. rewrite runLoop_polled.
  destruct (poll (world st)) as [r w1] eqn:Hpoll. cbv zeta.
  set (st1 := addCall CallGetSteeringMessages (setWorld w1 st)).
  split.
  - destruct r as [pending|e|e]; cbn [snd].
    + destruct (runLoopFrom_runFrame fuel true true pending None st1)
        as [[cs [Hc _]] _ _].
      exists cs. rewrite Hc. subst st1. cbn [calls addCall setWorld].
      now rewrite <- app_assoc.
    + exists []. reflexivity.
    + exists []. reflexivity.
  - intros pending w' log new es [= -> Hw] Hfuel Hne Hlog Hnew Hes Hopen.
    cbv iota.
    destruct fuel as [|fuel]; [lia|].
    destruct (runLoopFrom_inject nestedLoop fuel context newMessages config signal
                stream streamFn true pending None st1) as [st2 [Hinj [_ ->]]].
    apply bind_Done_inv in Hinj as [[] [sa [Ha Hinj]]]. injection Ha as <-.
    destruct (appends_injectPending context newMessages Hne stream pending _ _ _ Hinj)
      as [seg [segn [Hstep [-> ->]]]].
    destruct (Hstep log new (conj Hlog Hnew)) as [Hlog2 _].
    pose proof (injectPending_stream context newMessages stream pending st1 es Hes) as Hs2.
    rewrite Hinj in Hs2. cbn [snd] in Hs2.
    destruct (runLoopFrom_runFrame (Datatypes.S fuel) true true [] None st2)
      as [_ Ha Hs].
    destruct (Ha _ _ Hlog2) as [ext [Hext _]].
    destruct (Hs _ _ Hs2) as [es' [Hes' [Hrun _]]].
    specialize (Hrun eq_refl).
    apply runStep_open_queue in Hrun as [rest Hq];
      [|now rewrite pushAll_open by exact Hopen].
    rewrite pushAll_open in Hq by exact Hopen. cbn [EventStream.queue] in Hq.
    exists ext, es', rest. split; [|split].
    + now rewrite <- app_assoc in Hext.
    + exact Hes'.
    + now rewrite <- app_assoc in Hq.
Qed.

End FirstPoll.

Lemma agentLoopContinueWith_inr nestedLoop fuel context config signal streamFn st r :
  agentLoopContinueWith nestedLoop fuel context config signal streamFn st = inr r ->
  arrays st !!! messages context <> [] /\
  forall a, last (arrays st !!! messages context) <> Some (MAssistant a).
Proof.
  unfold agentLoopContinueWith.
  destruct (arrays st !!! messages context) as [|m0 logged]; [discriminate|].
  cbn [List.length Nat.eqb]. intros H. split; [discriminate|].
  intros a Ha. rewrite Ha in H. discriminate.
Qed.

(** C6. [agentLoopContinue] throws to its caller, before a stream
    exists and so before any event, "Cannot continue: no messages in
    context" when the context's array is empty and "Cannot continue
    from message role: assistant" when its last message is an
    assistant message; otherwise it returns a new stream, on which the
    run starts with [agent_start] and [turn_start]. *)
Theorem continue_entry_preconditions fuel context config signal streamFn st :
  (arrays st !!! messages context = [] ->
   agentLoopContinue fuel context config signal streamFn st
   = inl (JsError "Cannot continue: no messages in context")) /\
  (forall a,
     last (arrays st !!! messages context) = Some (MAssistant a) ->
     agentLoopContinue fuel context config signal streamFn st
     = inl (JsError "Cannot continue from message role: assistant")) /\
  (arrays st !!! messages context <> [] ->
   (forall a, last (arrays st !!! messages context) <> Some (MAssistant a)) ->
   exists out st' es rest,
     agentLoopContinue fuel context config signal streamFn st
     = inr ((List.length (streams st), out), st') /\
     streams st' !! List.length (streams st) = Some es /\
     EventStream.queue es = agent_start :: turn_start :: rest).
Proof.
  unfold agentLoopContinue. fold (nestedAt fuel). split; [|split].
  - intros Hempty. unfold agentLoopContinueWith. now rewrite Hempty.
  - intros a Hlast. unfold agentLoopContinueWith.
    destruct (arrays st !!! messages context) as [|m0 logged]; [discriminate|].
    cbn [List.length Nat.eqb]. now rewrite Hlast.
  - intros Hne Hlast.
    destruct (agentLoopContinueWith_prelude (nestedAt fuel) fuel context config signal
                streamFn st Hne Hlast) as [st3 [Heq [_ [_ [_ Hs3]]]]].
    rewrite Heq. cbv zeta.
    pose proof (respects_runLoop anyCall everywhere
                  (fun i => i = List.length (streams st)) runStep runStep_push
                  anyCall_other (nestedAt fuel)
                  (nestedAt_preserved anyCall anyCall_other fuel) runStep_finish fuel
                  (mkAgentContext (systemPrompt context) (messages context)
                     (tools context))
                  (List.length (arrays st)) config signal (List.length (streams st))
                  streamFn I I eq_refl (or_intror I) (or_intror I) st3) as [_ _ Hs].
    destruct (Hs _ _ Hs3) as [es [Hes [Hstep _]]].
    apply runStep_open_queue in Hstep as [rest Hq]; [|reflexivity|reflexivity].
    eexists. eexists. exists es, rest. split; [reflexivity|]. split; assumption.
Qed.

(** C4 (amended). Both entry points poll [getSteeringMessages] first:
    the poll is the first call of a run started with [agentLoop] and
    of a run started with [agentLoopContinue], ahead of the first
    call of the adapter, and the messages it returns are what the
    first turn appends to the log and announces on the stream, right
    after [turn_start] and the prompts. *)
Theorem steering_polled_first_by_both_entries fuel config signal streamFn poll :
  getSteeringMessages config = Some poll ->
  (forall prompts context st log,
     arrays st !! messages context = Some log ->
     let r := agentLoop fuel prompts context config signal streamFn st in
     (exists cs, calls (snd r) = calls st ++ CallGetSteeringMessages :: cs) /\
     (forall pending w',
        poll (world st) = (Returns pending, w') -> 1 <= fuel ->
        exists ext es rest,
          arrays (snd r) !! Datatypes.S (List.length (arrays st))
            = Some ((log ++ prompts) ++ pending ++ ext) /\
          streams (snd r) !! fst (fst r) = Some es /\
          EventStream.queue es
            = ([agent_start; turn_start] ++ announce prompts)
              ++ announce pending ++ rest)) /\
  (forall context st s out st' log,
     arrays st !! messages context = Some log ->
     agentLoopContinue fuel context config signal streamFn st
       = inr ((s, out), st') ->
     (exists cs, calls st' = calls st ++ CallGetSteeringMessages :: cs) /\
     (forall pending w',
        poll (world st) = (Returns pending, w') -> 1 <= fuel ->
        exists ext es rest,
          arrays st' !! messages context = Some (log ++ pending ++ ext) /\
          streams st' !! s = Some es /\
          EventStream.queue es
            = [agent_start; turn_start] ++ announce pending ++ rest)).
Proof.
  intros Hcfg.
  pose proof (nestedAt_preserved anyCall anyCall_other fuel) as Hnested.
  split.
  - intros prompts context st log Hlog r. subst r. rewrite agentLoop_unfold.
    destruct (agentLoopWith_prelude (nestedAt fuel) fuel prompts context config signal
                streamFn st log Hlog) as [st3 [Heq [Hc [Hw [Ha Hs]]]]].
    rewrite Heq. cbv zeta. cbn [fst snd].
    destruct (runLoop_start (nestedAt fuel) Hnested
                (mkAgentContext (systemPrompt context)
                   (Datatypes.S (List.length (arrays st))) (tools context))
                (List.length (arrays st)) config signal (List.length (streams st))
                streamFn poll Hcfg fuel st3) as [Hcalls Hpending].
    split.
    + destruct Hcalls as [cs Hcs]. exists cs. now rewrite Hcs, Hc.
    + intros pending w' Hpoll Hfuel. rewrite <- Hw in Hpoll.
      destruct (Hpending pending w' (log ++ prompts) prompts
                  (EventStream.mk ([agent_start; turn_start] ++ announce prompts)
                     false None) Hpoll Hfuel)
        as [ext [es [rest [H1 [H2 H3]]]]]; try reflexivity.
      * cbn [messages]. lia.
      * cbn [messages]. rewrite Ha.
        assert (Hlt : messages context < List.length (arrays st))
          by (eapply lookup_lt_Some; exact Hlog).
        rewrite lookup_app_r by lia.
        replace (Datatypes.S (List.length (arrays st)) - List.length (arrays st))
          with 1 by lia. reflexivity.
      * rewrite Ha, lookup_app_r, Nat.sub_diag by lia. reflexivity.
      * exact Hs.
      * exists ext, es, rest. repeat split; assumption.
  - intros context st s out st' log Hlog Hrun.
    unfold agentLoopContinue in Hrun. fold (nestedAt fuel) in Hrun.
    destruct (agentLoopContinueWith_inr _ _ _ _ _ _ _ _ Hrun) as [Hne Hlast].
    destruct (agentLoopContinueWith_prelude (nestedAt fuel) fuel context config signal
                streamFn st Hne Hlast) as [st3 [Heq [Hc [Hw [Ha Hs]]]]].
    rewrite Heq in Hrun. cbv zeta in Hrun. injection Hrun as <- <- <-.
    destruct (runLoop_start (nestedAt fuel) Hnested
                (mkAgentContext (systemPrompt context) (messages context)
                   (tools context))
                (List.length (arrays st)) config signal (List.length (streams st))
                streamFn poll Hcfg fuel st3) as [Hcalls Hpending].
    assert (Hlt : messages context < List.length (arrays st))
      by (eapply lookup_lt_Some; exact Hlog).
    split.
    + destruct Hcalls as [cs Hcs]. exists cs. now rewrite Hcs, Hc.
    + intros pending w' Hpoll Hfuel. rewrite <- Hw in Hpoll.
      destruct (Hpending pending w' log []
                  (EventStream.mk [agent_start; turn_start] false None) Hpoll Hfuel)
        as [ext [es [rest [H1 [H2 H3]]]]]; try reflexivity.
      * cbn [messages]. lia.
      * cbn [messages]. rewrite Ha. now apply lookup_app_l_Some.
      * rewrite Ha, lookup_app_r, Nat.sub_diag by lia. reflexivity.
      * exact Hs.
      * exists ext, es, rest. repeat split; assumption.
Qed.

(** ** Nested advisor runs *)

Definition noPoll (c : Call) : Prop := isPoll c = false.

Lemma bind_same_head {A B} (m : M A) (k1 k2 : A -> M B) st :
  (forall a st', k1 a st' = k2 a st') -> bind m k1 st = bind m k2 st.
Proof.
  intros Hk. unfold bind. destruct (m st) as [[a|e| |] st']; auto.
Qed.

Lemma runAdvisor_config (loop1 loop2 : AgentLoopFn) advisor params parentStream
    signal streamFn st :
  (forall prompts context st,
     loop1 prompts context (advisorConfigOf advisor) signal streamFn st
     = loop2 prompts context (advisorConfigOf advisor) signal streamFn st) ->
  runAdvisor loop1 advisor params parentStream signal streamFn st
  = runAdvisor loop2 advisor params parentStream signal streamFn st.
Proof.
  intros Hsame. unfold runAdvisor, tryCatch.
  match goal with
  | |- match ?a with _ => _ end = match ?b with _ => _ end =>
      cut (a = b); [intros ->; reflexivity|]
  end.
  apply bind_same_head; intros advisorCtx st1.
  apply bind_same_head; intros emptyLog st2.
  cbv zeta. unfold bind at 1. unfold bind at 9. unfold spawn.
  now rewrite Hsame.
Qed.

(** C10. The configuration of a nested advisor run is built from the
    advisor alone: it has the advisor's model, nested advisors and
    API-key settings, no [getSteeringMessages], no
    [getFollowUpMessages] and no [transformContext], and [runAdvisor]
    uses the loop it recurses into with that configuration only. So a
    nested run, and the runs nested in it, never poll for steering or
    follow-up messages, and it ends, with [turn_end] and [agent_end]
    and without calling anything more, as soon as its assistant
    answers without tool calls. *)
Theorem advisor_run_polls_nothing (advisor : AdvisorConfig) :
  (getSteeringMessages (advisorConfigOf advisor) = None /\
   getFollowUpMessages (advisorConfigOf advisor) = None /\
   transformContext (advisorConfigOf advisor) = None /\
   model (advisorConfigOf advisor) = adv_model advisor /\
   advisors (advisorConfigOf advisor) = adv_advisors advisor /\
   apiKey (advisorConfigOf advisor) = adv_apiKey advisor /\
   getApiKey (advisorConfigOf advisor) = adv_getApiKey advisor /\
   convertToLlm (advisorConfigOf advisor)
     = default (fun ms w => (Returns (defaultAdvisorConvertToLlm ms), w))
         (adv_convertToLlm advisor) /\
   reasoning (advisorConfigOf advisor)
     = match thinkingLevel advisor with
       | Some TL_off | None => None
       | Some level => Some level
       end) /\
  (forall (loop1 loop2 : AgentLoopFn) params parentStream signal streamFn st,
     (forall prompts context st,
        loop1 prompts context (advisorConfigOf advisor) signal streamFn st
        = loop2 prompts context (advisorConfigOf advisor) signal streamFn st) ->
     runAdvisor loop1 advisor params parentStream signal streamFn st
     = runAdvisor loop2 advisor params parentStream signal streamFn st) /\
  (forall fuel prompts context signal streamFn st,
     exists cs,
       calls (snd (agentLoop fuel prompts context (advisorConfigOf advisor)
                     signal streamFn st)) = calls st ++ cs /\
       Forall noPoll cs) /\
  (forall nestedLoop fuel context newMessages signal stream streamFn
          firstTurn hasMore pending st message st1,
     hasMore || nonEmpty pending = true ->
     beginTurn context newMessages (advisorConfigOf advisor) signal stream streamFn
       firstTurn pending st = (Done message, st1) ->
     toolCallsOf (am_content message) = [] ->
     exists st2,
       runLoopFrom nestedLoop (Datatypes.S fuel) context newMessages
         (advisorConfigOf advisor) signal stream streamFn firstTurn hasMore pending
         None st = (Done tt, st2) /\
       calls st2 = calls st1 /\
       forall es,
         streams st1 !! stream = Some es -> EventStream.sealed es = false ->
         streams st2 !! stream
           = Some (EventStream.mk
                     (EventStream.queue es
                      ++ [turn_end (MAssistant message) [];
                          agent_end (arrays st1 !!! newMessages)])
                     true (Some (arrays st1 !!! newMessages)))).
Proof.
  split; [repeat split; cbn; now destruct advisor as [? ? ? ? ? ? ? [] ? ? [[]|]]|].
  split; [|split].
  - intros loop1 loop2 params parentStream signal streamFn st Hsame.
    now apply runAdvisor_config.
  - intros fuel prompts context signal streamFn st.
    destruct (agentLoop_preserved noPoll (fun c H => H) fuel prompts context
                (advisorConfigOf advisor) signal streamFn st
                (advisorConfig_pollsOK noPoll advisor)) as [Hc _ _].
    exact Hc.
  - intros nestedLoop fuel context newMessages signal stream streamFn firstTurn
      hasMore pending st message st1 Hcond Hturn Htools.
    rewrite (runLoopFrom_turn nestedLoop context newMessages (advisorConfigOf advisor)
               signal stream streamFn fuel firstTurn hasMore pending None st message
               st1 Hcond Hturn).
    rewrite Htools.
    assert (Hstreams : forall es,
              streams st1 !! stream = Some es -> EventStream.sealed es = false ->
              alter (EventStream.end_ (arrays st1 !!! newMessages))
                stream
                (alter (EventStream.push (agent_end (arrays st1 !!! newMessages)))
                   stream
                   (alter (EventStream.push (turn_end (MAssistant message) []))
                      stream (streams st1))) !! stream
              = Some (EventStream.mk
                        (EventStream.queue es
                         ++ [turn_end (MAssistant message) [];
                             agent_end (arrays st1 !!! newMessages)])
                        true (Some (arrays st1 !!! newMessages)))).
    { intros es Hes Hopen. rewrite !list_lookup_alter_eq, Hes. cbn.
      unfold EventStream.end_, EventStream.push. rewrite Hopen. cbn.
      now rewrite <- app_assoc. }
    destruct (isErrorStop (am_stopReason message)); [|destruct fuel];
      (match goal with
       | |- exists st2, ?run = _ /\ _ => exists (snd run)
       end;
       split; [reflexivity|]; split; [reflexivity|exact Hstreams]).
Qed.

(** ** Errors of advisors *)

(** An advisor's [trigger] is awaited outside any [try] (line 414 of
    agent-loop.ts): what it throws leaves [handleAdvisors] as an
    exception, and nothing is pushed on the stream. *)
Lemma handleAdvisors_trigger_throws (nestedLoop : AgentLoopFn) advisor rest context
    newMessages toolCall toolResult stream signal streamFn st r e w' :
  trigger advisor
    (mkTriggerParams (arrays st !!! messages context) (tc_name toolCall)
       (tc_arguments toolCall) toolResult) (world st) = (r, w') ->
  r = ThrowsSync e \/ r = Rejects e ->
  handleAdvisors nestedLoop (Some (advisor :: rest)) context newMessages toolCall
    toolResult stream signal streamFn st
  = (Threw e, addCall (CallTrigger (adv_name advisor)) (setWorld w' st)).
Proof.
  intros Htrigger Hr. cbn [handleAdvisors handleAdvisorsLoop].
  unfold bind at 1. cbn [readArray]. unfold bind at 1.
  unfold extcall, perform. unfold bind at 1. rewrite Htrigger.
  destruct Hr as [-> | ->]; reflexivity.
Qed.

(** What [createContext] throws is caught by [runAdvisor], which
    reports it and yields no message. *)
Lemma runAdvisor_createContext_throws (nestedLoop : AgentLoopFn) advisor params
    parentStream signal streamFn st r e w' :
  createContext advisor params (world st) = (r, w') ->
  r = ThrowsSync e \/ r = Rejects e ->
  runAdvisor nestedLoop advisor params parentStream signal streamFn st
  = (Done None,
     snd (pushEvent parentStream (advisor_error (adv_name advisor) (errorText e))
            (addCall (CallCreateContext (adv_name advisor)) (setWorld w' st)))).
Proof.
  intros Hcreate Hr.
  assert (Hcall : extcall (CallCreateContext (adv_name advisor))
                    (createContext advisor params) st
                  = (Threw e, addCall (CallCreateContext (adv_name advisor))
                                (setWorld w' st))).
  { unfold extcall, perform, bind. rewrite Hcreate.
    destruct Hr as [-> | ->]; reflexivity. }
  unfold runAdvisor, tryCatch. unfold bind at 1. rewrite Hcall. reflexivity.
Qed.

(** * More of the agent package *)

(** ** The helpers of advisor.ts *)

Definition assistantsOf (ms : list AgentMessage) : list AssistantMessage :=
  flat_map (fun m => match m with MAssistant a => [a] | _ => [] end) ms.

Definition llmAssistants (ms : list Message) : list AssistantMessage :=
  flat_map (fun m => match m with LAssistant a => [a] | _ => [] end) ms.

Definition llmToolResults (ms : list Message) : list ToolResultMessage :=
  flat_map (fun m => match m with LToolResult r => [r] | _ => [] end) ms.

Definition isCustom (m : AgentMessage) : bool :=
  match m with MCustom _ _ => true | _ => false end.

Lemma defaultAdvisorConvertToLlm_app (a b : list AgentMessage) :
  defaultAdvisorConvertToLlm (a ++ b)
  = defaultAdvisorConvertToLlm a ++ defaultAdvisorConvertToLlm b.
Proof. unfold defaultAdvisorConvertToLlm. apply flat_map_app. Qed.

(** X1. [defaultAdvisorConvertToLlm] hands the model every assistant
    message and every tool result of the log, unchanged and in order;
    it yields one message for each message that is not a custom one,
    and it works message by message. *)
Theorem defaultAdvisorConvertToLlm_keeps_llm_messages (ms : list AgentMessage) :
  llmAssistants (defaultAdvisorConvertToLlm ms) = assistantsOf ms /\
  llmToolResults (defaultAdvisorConvertToLlm ms) = toolResultsOf ms /\
  List.length (defaultAdvisorConvertToLlm ms)
    = List.length (List.filter (fun m => negb (isCustom m)) ms) /\
  forall more,
    defaultAdvisorConvertToLlm (ms ++ more)
    = defaultAdvisorConvertToLlm ms ++ defaultAdvisorConvertToLlm more.
Proof.
  split; [|split; [|split]].
  - unfold defaultAdvisorConvertToLlm, llmAssistants, assistantsOf.
    induction ms as [|[u|a|r|v|role payload] ms IH]; cbn in *; congruence.
  - unfold defaultAdvisorConvertToLlm, llmToolResults, toolResultsOf.
    induction ms as [|[u|a|r|v|role payload] ms IH]; cbn in *; congruence.
  - unfold defaultAdvisorConvertToLlm.
    induction ms as [|[u|a|r|v|role payload] ms IH]; cbn in *; congruence.
  - intros more. apply defaultAdvisorConvertToLlm_app.
Qed.

Lemma lastAssistant_none (ms : list AgentMessage) :
  assistantsOf ms = [] -> lastAssistant ms = None.
Proof.
  induction ms as [|m ms IH]; [reflexivity|].
  destruct m; cbn; try discriminate; intros H; now rewrite (IH H).
Qed.

Lemma lastAssistant_app (pre post : list AgentMessage) :
  lastAssistant (pre ++ post)
  = match lastAssistant post with
    | Some a => Some a
    | None => lastAssistant pre
    end.
Proof.
  induction pre as [|m pre IH]; cbn.
  - now destruct (lastAssistant post).
  - rewrite IH. destruct (lastAssistant post); [reflexivity|].
    now destruct (lastAssistant pre).
Qed.

(** X2. [defaultExtractResult] reads the last assistant message of the
    list, whatever precedes it and whatever non-assistant messages
    follow it: its text blocks joined by line feeds. It yields the
    empty string when there is no assistant message, and when the last
    one has no text block. *)
Theorem defaultExtractResult_reads_last_assistant :
  (forall ms, assistantsOf ms = [] -> defaultExtractResult ms = "") /\
  (forall pre a post,
     assistantsOf post = [] ->
     defaultExtractResult (pre ++ MAssistant a :: post)
     = String.concat newline (textsOf (am_content a))) /\
  (forall pre a post,
     assistantsOf post = [] -> textsOf (am_content a) = [] ->
     defaultExtractResult (pre ++ MAssistant a :: post) = "").
Proof.
  assert (Hlast : forall pre a post,
            assistantsOf post = [] ->
            lastAssistant (pre ++ MAssistant a :: post) = Some a).
  { intros pre a post Hpost. rewrite lastAssistant_app. cbn.
    now rewrite (lastAssistant_none post Hpost). }
  split; [|split].
  - intros ms Hms. unfold defaultExtractResult. now rewrite lastAssistant_none.
  - intros pre a post Hpost. unfold defaultExtractResult. now rewrite Hlast.
  - intros pre a post Hpost Htexts. unfold defaultExtractResult.
    rewrite Hlast by exact Hpost. now rewrite Htexts.
Qed.

(** ** Advisor triggers (advisor-triggers.ts) *)

(** [AdvisorTrigger] (types.ts): a predicate that may be asynchronous. *)
Definition AdvisorTrigger : Type := AdvisorTriggerParams -> Oracle bool.

(** [onTools(...names)]: [names.includes(toolName)]. *)
Definition onTools (names : list string) : AdvisorTrigger :=
  fun params w =>
    (Returns (existsb (fun name => String.eqb name (tp_toolName params)) names), w).

(** [onToolArgs(toolName, predicate)]: [a && b] evaluates [b] only
    when [a] holds, and is then what [b] is. *)
Definition onToolArgs (toolName : string) (predicate : Json -> Oracle bool)
    : AdvisorTrigger :=
  fun params w =>
    if String.eqb (tp_toolName params) toolName
    then predicate (tp_toolArgs params) w
    else (Returns false, w).

(** What [await trigger(params)] inside an [async] function makes of
    an error: the promise that the function returned rejects. *)
Definition rejected (e : JsValue) (w : W) : Completion bool * W := (Rejects e, w).

(** [anyOf(...triggers)] *)
Fixpoint anyOf (triggers : list AdvisorTrigger) : AdvisorTrigger :=
  fun params w =>
    match triggers with
    | [] => (Returns false, w)
    | trigger :: rest =>
        match trigger params w with
        | (Returns true, w') => (Returns true, w')
        | (Returns false, w') => anyOf rest params w'
        | (ThrowsSync e, w') => rejected e w'
        | (Rejects e, w') => rejected e w'
        end
    end.

(** [allOf(...triggers)] *)
Fixpoint allOf (triggers : list AdvisorTrigger) : AdvisorTrigger :=
  fun params w =>
    match triggers with
    | [] => (Returns true, w)
    | trigger :: rest =>
        match trigger params w with
        | (Returns false, w') => (Returns false, w')
        | (Returns true, w') => allOf rest params w'
        | (ThrowsSync e, w') => rejected e w'
        | (Rejects e, w') => rejected e w'
        end
    end.

(** One combinator for both proofs: [stop] is the answer that ends the
    loop early. *)
Fixpoint firstAnswer (stop : bool) (triggers : list AdvisorTrigger) : AdvisorTrigger :=
  fun params w =>
    match triggers with
    | [] => (Returns (negb stop), w)
    | trigger :: rest =>
        match trigger params w with
        | (Returns b, w') =>
            if Bool.eqb b stop then (Returns stop, w')
            else firstAnswer stop rest params w'
        | (ThrowsSync e, w') => rejected e w'
        | (Rejects e, w') => rejected e w'
        end
    end.

Lemma anyOf_firstAnswer triggers params w :
  anyOf triggers params w = firstAnswer true triggers params w.
Proof.
  revert w. induction triggers as [|t rest IH]; intros w; cbn; [reflexivity|].
  destruct (t params w) as [[[|]|e|e] w']; cbn; auto.
Qed.

Lemma allOf_firstAnswer triggers params w :
  allOf triggers params w = firstAnswer false triggers params w.
Proof.
  revert w. induction triggers as [|t rest IH]; intros w; cbn; [reflexivity|].
  destruct (t params w) as [[[|]|e|e] w']; cbn; auto.
Qed.

Lemma firstAnswer_async stop triggers params w e :
  fst (firstAnswer stop triggers params w) <> ThrowsSync e.
Proof.
  revert w. induction triggers as [|t rest IH]; intros w; cbn; [discriminate|].
  destruct (t params w) as [[b|e'|e'] w']; cbn; try discriminate.
  destruct (Bool.eqb b stop); [discriminate|apply IH].
Qed.

Lemma firstAnswer_app stop a b params w :
  firstAnswer stop (a ++ b) params w
  = match firstAnswer stop a params w with
    | (Returns r, w') =>
        if Bool.eqb r stop then (Returns r, w') else firstAnswer stop b params w'
    | other => other
    end.
Proof.
  revert w. induction a as [|t rest IH]; intros w; cbn.
  - now destruct stop.
  - destruct (t params w) as [[r|e|e] w']; cbn; try reflexivity.
    destruct (Bool.eqb r stop) eqn:Hr; [|apply IH].
    apply Bool.eqb_prop in Hr as ->. now rewrite Bool.eqb_reflx.
Qed.


(** X4. On triggers that answer without throwing and without changing
    the outside world, [anyOf] is the disjunction and [allOf] the
    conjunction of the answers; in particular [anyOf] of no trigger
    never fires and [allOf] of no trigger always fires. *)
Theorem anyOf_allOf_of_plain_triggers (triggers : list AdvisorTrigger)
    (answers : list bool) (params : AdvisorTriggerParams) :
  Forall2 (fun trigger answer => forall w, trigger params w = (Returns answer, w))
    triggers answers ->
  forall w,
    anyOf triggers params w = (Returns (existsb id answers), w) /\
    allOf triggers params w = (Returns (forallb id answers), w).
Proof.
  induction 1 as [|t v ts vs Ht _ IH]; intros w; [split; reflexivity|].
  cbn. rewrite Ht. destruct (IH w) as [Hany Hall].
  destruct v; cbn; split; auto.
Qed.

Lemma onTools_fires names params :
  existsb (fun name => String.eqb name (tp_toolName params)) names = true
  <-> In (tp_toolName params) names.
Proof.
  rewrite existsb_exists. split.
  - intros [x [Hin Heq]]. apply String.eqb_eq in Heq. now subst.
  - intros Hin. exists (tp_toolName params). split; [exact Hin|apply String.eqb_refl].
Qed.


(** X6. [onToolArgs(toolName, predicate)] never consults the predicate
    for another tool. Once awaited, as [handleAdvisors] does, it is
    [allOf] of [onTools(toolName)] and the predicate on the
    arguments. *)
Theorem onToolArgs_is_allOf (toolName : string) (predicate : Json -> Oracle bool)
    (params : AdvisorTriggerParams) :
  (tp_toolName params <> toolName ->
   forall w, onToolArgs toolName predicate params w = (Returns false, w)) /\
  forall c st,
    extcall c (onToolArgs toolName predicate params) st
    = extcall c (allOf [onTools [toolName];
                        fun p => predicate (tp_toolArgs p)] params) st.
Proof.
  split.
  - intros Hname w. unfold onToolArgs.
    destruct (String.eqb_spec (tp_toolName params) toolName); [contradiction|reflexivity].
  - intros c st. unfold extcall, perform, bind, onToolArgs. cbn [allOf onTools existsb].
    rewrite (String.eqb_sym toolName), orb_false_r.
    destruct (String.eqb (tp_toolName params) toolName); [|reflexivity].
    destruct (predicate (tp_toolArgs params) (world st)) as [[[|]|e|e] w'];
      reflexivity.
Qed.

(** [extractResultText]: the text blocks, joined by line feeds. *)
Fixpoint resultTexts (cs : list ResultContent) : list string :=
  match cs with
  | [] => []
  | TextContent t :: rest => t :: resultTexts rest
  | ImageContent _ _ :: rest => resultTexts rest
  end.

Definition extractResultText (toolResult : ToolResultMessage) : string :=
  String.concat newline (resultTexts (tr_content toolResult)).

(** A [RegExp] as far as [test] goes: an answer on a string, and what
    the call does to the pattern's own state ([lastIndex]). *)
Definition RegExp : Type := string -> W -> bool * W.

(** [onResultMatch(pattern)] *)
Definition onResultMatch (pattern : RegExp) : AdvisorTrigger :=
  fun params w =>
    let '(matched, w') := pattern (extractResultText (tp_toolResult params)) w in
    (Returns matched, w').


(** ** Advisors in the dispatcher *)

(** X7. Advisors whose triggers answer [false], as [onTools] does for
    a tool it does not list, cost their trigger calls and nothing
    else: [handleAdvisors] returns without an [advisor_start], a nested
    run or a message; the arrays, the streams and the outside world
    are as before. *)
Theorem quiet_advisors_leave_no_trace (nestedLoop : AgentLoopFn)
    (advisors : list AdvisorConfig) context newMessages toolCall toolResult stream
    signal streamFn (st : State) :
  Forall (fun advisor =>
            forall w,
              trigger advisor
                (mkTriggerParams (arrays st !!! messages context) (tc_name toolCall)
                   (tc_arguments toolCall) toolResult) w
              = (Returns false, w)) advisors ->
  handleAdvisors nestedLoop (Some advisors) context newMessages toolCall toolResult
    stream signal streamFn st
  = (Done tt,
     mkState (world st)
       (calls st ++ map (fun advisor => CallTrigger (adv_name advisor)) advisors)
       (arrays st) (streams st)).
Proof.
  cbn [handleAdvisors]. revert st.
  induction advisors as [|advisor rest IH]; intros st Hquiet; cbn [handleAdvisorsLoop map].
  - destruct st. cbn. now rewrite app_nil_r.
  - apply Forall_cons in Hquiet as [Hadvisor Hrest].
    unfold bind at 1. cbn [readArray]. unfold bind at 1.
    unfold extcall, perform. unfold bind at 1. rewrite Hadvisor. cbn [await ret].
    unfold bind at 1. cbn [ret].
    rewrite IH; [|exact Hrest]. cbn. now rewrite <- app_assoc.
Qed.

Lemma tryCatch_Done_inv {A} (m : M A) (h : JsValue -> M A) st a st' :
  tryCatch m h st = (Done a, st') ->
  m st = (Done a, st') \/ exists e st1, m st = (Threw e, st1) /\ h e st1 = (Done a, st').
Proof.
  unfold tryCatch. destruct (m st) as [[x|e| |] st1]; intros H;
    [now left|right; now exists e, st1|discriminate|discriminate].
Qed.

(** What [runAdvisor] returns when it returns a message. *)
Lemma runAdvisor_message (nestedLoop : AgentLoopFn) advisor params parentStream signal
    streamFn st m st' :
  runAdvisor nestedLoop advisor params parentStream signal streamFn st
    = (Done (Some m), st') ->
  advisorName m = adv_name advisor /\
  adv_modelId m = model_id (adv_model advisor) /\
  adv_content m <> "".
Proof.
  intros Hrun. unfold runAdvisor in Hrun.
  apply tryCatch_Done_inv in Hrun as [Hrun|[e [st1 [_ Hcatch]]]].
  - apply bind_Done_inv in Hrun as [advisorCtx [s1 [_ Hrun]]].
    apply bind_Done_inv in Hrun as [emptyLog [s2 [_ Hrun]]].
    apply bind_Done_inv in Hrun as [started [s3 [_ Hrun]]].
    apply bind_Done_inv in Hrun as [events [s4 [_ Hrun]]].
    apply bind_Done_inv in Hrun as [[] [s5 [_ Hrun]]].
    apply bind_Done_inv in Hrun as [[] [s6 [_ Hrun]]].
    apply bind_Done_inv in Hrun as [resultMessages [s7 [_ Hrun]]].
    apply bind_Done_inv in Hrun as [body [s8 [_ Hrun]]].
    destruct body as [|c body]; [discriminate|].
    apply bind_Done_inv in Hrun as [m' [s9 [Hcreate Hrun]]].
    injection Hrun as <- <-.
    unfold createAdvisorMessage in Hcreate.
    apply bind_Done_inv in Hcreate as [t [s10 [_ Hcreate]]].
    injection Hcreate as <- <-. cbn. repeat split. discriminate.
  - apply bind_Done_inv in Hcatch as [[] [s2 [_ Hcatch]]]. discriminate.
Qed.

(** X8. [runAdvisor] never throws, whatever the advisor's callbacks
    and its nested run do; and a message it returns carries the
    advisor's name, the id of its model and a content that is not
    empty. *)
Theorem runAdvisor_never_throws (nestedLoop : AgentLoopFn) advisor params parentStream
    signal streamFn (st : State) :
  (forall e,
     fst (runAdvisor nestedLoop advisor params parentStream signal streamFn st)
     <> Threw e) /\
  (forall m st',
     runAdvisor nestedLoop advisor params parentStream signal streamFn st
       = (Done (Some m), st') ->
     advisorName m = adv_name advisor /\
     adv_modelId m = model_id (adv_model advisor) /\
     adv_content m <> "").
Proof.
  split; [|intros m st'; apply runAdvisor_message].
  intros e. unfold runAdvisor, tryCatch.
  match goal with
  | |- context [match ?run st with _ => _ end] =>
      destruct (run st) as [[r|e'| |] st1]
  end; cbn; discriminate.
Qed.

(** X9. A run of an advisor, with the runs nested in it, changes no
    message array that existed before, the parent's log included, and
    no stream other than the parent's; it records no steering or
    follow-up poll. *)
Theorem runAdvisor_is_isolated (fuel : nat) advisor params parentStream signal streamFn
    (st : State) :
  let st' := snd (runAdvisor (nestedAt fuel) advisor params parentStream signal
                    streamFn st) in
  (forall i v, arrays st !! i = Some v -> arrays st' !! i = Some v) /\
  (forall i es, i <> parentStream -> streams st !! i = Some es ->
                streams st' !! i = Some es) /\
  exists cs, calls st' = calls st ++ cs /\ Forall noPoll cs.
Proof.
  intros st'.
  destruct (respects_runAdvisor noPoll nowhere (fun i => i = parentStream) quietStep
              quietStep_push (fun c H => H) (nestedAt fuel)
              (nestedAt_preserved noPoll (fun c H => H) fuel)
              advisor params parentStream signal streamFn eq_refl st)
    as [Hcalls Harrays Hstreams].
  fold st' in Hcalls, Harrays, Hstreams. split; [|split].
  - intros i v Hi. destruct (Harrays i v Hi) as [ext [Hext Hnil]].
    rewrite (Hnil (fun F => F)), app_nil_r in Hext. exact Hext.
  - intros i es Hne Hi. destruct (Hstreams i es Hi) as [es' [Hes [_ Heq]]].
    now rewrite (Heq Hne) in Hes.
  - exact Hcalls.
Qed.

(** ** The dispatcher, call by call *)

Lemma runTool_total tool toolCall signal stream st :
  exists r st', runTool tool toolCall signal stream st = (Done r, st').
Proof.
  unfold runTool, tryCatch.
  destruct (invokeTool_outcome tool toolCall signal stream st) as [st' [[r H]|[e H]]].
  - rewrite (bind_Done_eq _ _ _ _ _ H). eexists. eexists. reflexivity.
  - unfold bind. rewrite H. eexists. eexists. reflexivity.
Qed.

(** The tool result message that the dispatcher builds. *)
Definition resultMessage (toolCall : ToolCall) (r : AgentToolResult * bool)
    (timestamp : Z) : ToolResultMessage :=
  mkToolResultMessage (tc_id toolCall) (tc_name toolCall)
    (content (fst r)) (details (fst r)) (snd r) timestamp.

(** [dispatchToolCall] once [runTool] and the clock are known. *)
Lemma dispatchToolCall_run context newMessages toolCall signal stream st r st1 t w' :
  runTool (findTool (tools context) (tc_name toolCall)) toolCall signal stream
    (snd (pushEvent stream
            (tool_execution_start (tc_id toolCall) (tc_name toolCall)
               (tc_arguments toolCall)) st))
    = (Done r, st1) ->
  Date_now (world st1) = (t, w') ->
  dispatchToolCall context newMessages toolCall signal stream st
  = (Done (resultMessage toolCall r t),
     mkState w' (calls st1)
       (alter (fun a => a ++ [MToolResult (resultMessage toolCall r t)]) newMessages
          (alter (fun a => a ++ [MToolResult (resultMessage toolCall r t)])
             (messages context) (arrays st1)))
       (alter (EventStream.push (message_end (MToolResult (resultMessage toolCall r t))))
          stream
          (alter (EventStream.push
                    (message_start (MToolResult (resultMessage toolCall r t))))
             stream
             (alter (EventStream.push
                       (tool_execution_end (tc_id toolCall) (tc_name toolCall)
                          (fst r) (snd r)))
                stream (streams st1))))).
Proof.
  intros Hr Hnow. unfold dispatchToolCall.
  unfold bind at 1. cbn [pushEvent]. cbn [pushEvent snd] in Hr.
  rewrite (bind_Done_eq _ _ _ _ _ Hr).
  unfold bind at 1. cbn [pushEvent]. unfold bind at 1, now.
  cbn [world setStreams]. rewrite Hnow.
  unfold bind, arrayPush, pushEvent, ret. reflexivity.
Qed.

Lemma dispatchToolCall_result context newMessages toolCall signal stream st trm st' :
  dispatchToolCall context newMessages toolCall signal stream st = (Done trm, st') ->
  toolCallId trm = tc_id toolCall /\ toolName trm = tc_name toolCall.
Proof.
  intros Hrun.
  destruct (runTool_total (findTool (tools context) (tc_name toolCall)) toolCall
              signal stream
              (snd (pushEvent stream
                      (tool_execution_start (tc_id toolCall) (tc_name toolCall)
                         (tc_arguments toolCall)) st))) as [r [st1 Hr]].
  destruct (Date_now (world st1)) as [t w'] eqn:Hnow.
  rewrite (dispatchToolCall_run _ _ _ _ _ _ _ _ _ _ Hr Hnow) in Hrun.
  injection Hrun as <- _. split; reflexivity.
Qed.

Lemma skipRemaining_results context newMessages remaining stream :
  forall results st res st',
    skipRemaining context newMessages remaining stream results st = (Done res, st') ->
    exists skipped,
      res = results ++ skipped /\ Forall2 skippedResultFor remaining skipped.
Proof.
  induction remaining as [|call rest IH]; intros results st res st' Hrun;
    cbn [skipRemaining] in Hrun.
  - injection Hrun as <- _. exists []. rewrite app_nil_r. split; [reflexivity|constructor].
  - apply bind_Done_inv in Hrun as [r [s1 [Hskip Hrun]]].
    apply bind_Done_inv in Hrun as [[] [s2 [_ Hrun]]].
    apply bind_Done_inv in Hrun as [[] [s3 [_ Hrun]]].
    destruct (IH _ _ _ _ Hrun) as [skipped [-> HF]].
    exists (r :: skipped). rewrite <- app_assoc. split; [reflexivity|].
    constructor; [|exact HF]. eapply skipToolCall_result. exact Hskip.
Qed.

Lemma skipped_names calls rs :
  Forall2 skippedResultFor calls rs ->
  map toolCallId rs = map tc_id calls /\ map toolName rs = map tc_name calls.
Proof.
  induction 1 as [|c r cs rs [Hid [Hname _]] _ [IH1 IH2]]; [split; reflexivity|].
  cbn. rewrite Hid, Hname, IH1, IH2. split; reflexivity.
Qed.

Lemma executeToolCallsFrom_results (nestedLoop : AgentLoopFn) context newMessages
    toolCalls config signal stream streamFn :
  forall results st res steering st',
    executeToolCallsFrom nestedLoop context newMessages toolCalls config signal stream
      streamFn results st = (Done (res, steering), st') ->
    exists added,
      res = results ++ added /\
      map toolCallId added = map tc_id toolCalls /\
      map toolName added = map tc_name toolCalls /\
      (steering = None \/
       exists m ms, steering = Some (m :: ms) /\ getSteeringMessages config <> None).
Proof.
  induction toolCalls as [|toolCall rest IH]; intros results st res steering st' Hrun;
    cbn [executeToolCallsFrom] in Hrun.
  - injection Hrun as <- <- _. exists []. rewrite app_nil_r. repeat split. now left.
  - apply bind_Done_inv in Hrun as [trm [s1 [Hdispatch Hrun]]].
    apply bind_Done_inv in Hrun as [[] [s2 [_ Hrun]]].
    destruct (dispatchToolCall_result _ _ _ _ _ _ _ _ Hdispatch) as [Hid Hname].
    assert (Hrest : forall s,
              executeToolCallsFrom nestedLoop context newMessages rest config signal
                stream streamFn (results ++ [trm]) s = (Done (res, steering), st') ->
              exists added,
                res = results ++ added /\
                map toolCallId added = map tc_id (toolCall :: rest) /\
                map toolName added = map tc_name (toolCall :: rest) /\
                (steering = None \/
                 exists m ms, steering = Some (m :: ms) /\
                              getSteeringMessages config <> None)).
    { intros s Hs. destruct (IH _ _ _ _ _ Hs) as [added [-> [Hids [Hnames Hsteer]]]].
      exists (trm :: added). rewrite <- app_assoc. cbn.
      rewrite Hid, Hname, Hids, Hnames. repeat split. exact Hsteer. }
    destruct (getSteeringMessages config) as [poll|] eqn:Hpoll; [|now apply (Hrest s2)].
    apply bind_Done_inv in Hrun as [polled [s3 [_ Hrun]]].
    destruct polled as [|m ms]; cbn [nonEmpty] in Hrun; [now apply (Hrest s3)|].
    apply bind_Done_inv in Hrun as [skippedAll [s4 [Hskip Hrun]]].
    injection Hrun as <- <- _.
    destruct (skipRemaining_results _ _ _ _ _ _ _ _ Hskip) as [skipped [-> HF]].
    destruct (skipped_names _ _ HF) as [Hids Hnames].
    exists (trm :: skipped). rewrite <- app_assoc. cbn.
    rewrite Hid, Hname, Hids, Hnames. repeat split.
    right. exists m, ms. split; [reflexivity|discriminate].
Qed.

(** X10. When [executeToolCalls] returns, its results answer the tool
    calls of the assistant message one for one and in their order,
    with the same ids and tool names, whether a call was executed or
    skipped; and the steering messages it returns, if any, are a
    non-empty list obtained from a configured [getSteeringMessages]. *)
Theorem executeToolCalls_results_follow_calls (nestedLoop : AgentLoopFn) context
    newMessages assistantMessage config signal stream streamFn (st : State)
    results steering st' :
  executeToolCalls nestedLoop context newMessages assistantMessage config signal stream
    streamFn st = (Done (results, steering), st') ->
  map toolCallId results = toolCallIds assistantMessage /\
  map toolName results = map tc_name (toolCallsOf (am_content assistantMessage)) /\
  (steering = None \/
   exists m ms, steering = Some (m :: ms) /\ getSteeringMessages config <> None).
Proof.
  intros Hrun. unfold executeToolCalls in Hrun.
  destruct (executeToolCallsFrom_results _ _ _ _ _ _ _ _ _ _ _ _ _ Hrun)
    as [added [-> [Hids [Hnames Hsteer]]]].
  cbn [app]. repeat split; assumption.
Qed.

(** X11. When [validateToolArguments] refuses the arguments of a call,
    the tool is not executed: nothing is called, and the call is
    answered by a result with [isError = true] whose text is the
    message of the validation error. *)
Theorem invalid_arguments_are_not_executed context newMessages toolCall signal stream
    (st : State) tool e :
  findTool (tools context) (tc_name toolCall) = Some tool ->
  validateToolArguments tool toolCall = inl e ->
  exists t st',
    dispatchToolCall context newMessages toolCall signal stream st
    = (Done (mkToolResultMessage (tc_id toolCall) (tc_name toolCall)
               [TextContent (errorText e)] emptyObject true t), st') /\
    calls st' = calls st /\
    Date_now (world st) = (t, world st').
Proof.
  intros Hfind Hval.
  set (st0 := snd (pushEvent stream
                     (tool_execution_start (tc_id toolCall) (tc_name toolCall)
                        (tc_arguments toolCall)) st)).
  assert (Hr : runTool (findTool (tools context) (tc_name toolCall)) toolCall signal
                 stream st0 = (Done (errorResult (errorText e), true), st0)).
  { rewrite Hfind. unfold runTool, tryCatch, bind, invokeTool. now rewrite Hval. }
  destruct (Date_now (world st0)) as [t w'] eqn:Hnow.
  exists t. eexists. split.
  - exact (dispatchToolCall_run _ _ _ _ _ _ _ _ _ _ Hr Hnow).
  - split; [reflexivity|]. exact Hnow.
Qed.

Lemma forEach_push_streams {A} (xs : list A) (f : A -> AgentEvent) stream :
  forall st,
    snd (forEach xs (fun x => pushEvent stream (f x)) st)
    = setStreams (alter (EventStream.pushAll (map f xs)) stream (streams st)) st.
Proof.
  induction xs as [|x xs IH]; intros st; cbn [forEach map].
  - cbn. destruct st as [w c a s]. unfold setStreams. cbn. f_equal.
    symmetry. apply list_alter_id. reflexivity.
  - unfold bind at 1. cbn [pushEvent]. rewrite IH. unfold setStreams. cbn.
    f_equal. rewrite list_alter_alter_eq. reflexivity.
Qed.

(** What [runTool] does to the state: the events for the partial
    results, and nothing on the arrays. *)
Lemma runTool_effect tool toolCall signal stream st r st' :
  runTool tool toolCall signal stream st = (Done r, st') ->
  arrays st' = arrays st /\
  exists updates,
    streams st'
    = alter (EventStream.pushAll
               (map (tool_execution_update (tc_id toolCall) (tc_name toolCall)
                       (tc_arguments toolCall)) updates))
        stream (streams st).
Proof.
  assert (Hsame : streams st = alter (EventStream.pushAll (map
            (tool_execution_update (tc_id toolCall) (tc_name toolCall)
               (tc_arguments toolCall)) [])) stream (streams st)).
  { symmetry. apply list_alter_id. reflexivity. }
  unfold runTool, tryCatch. destruct tool as [tool|].
  - destruct (validateToolArguments tool toolCall) as [e|args] eqn:Hval.
    + unfold bind, invokeTool. rewrite Hval. cbn. intros [= _ <-].
      split; [reflexivity|]. exists []. exact Hsame.
    + destruct (execute tool (tc_id toolCall) args signal (world st))
        as [[ups c] w'] eqn:Hexec.
      unfold bind at 1.
      rewrite (invokeTool_run tool toolCall signal stream st args ups c w' Hval Hexec).
      unfold afterExecute. rewrite forEach_push_streams.
      destruct c as [a|e|e]; cbn; intros [= _ <-];
        (split; [reflexivity|]; exists ups; reflexivity).
  - unfold bind, invokeTool. cbn. intros [= _ <-].
    split; [reflexivity|]. exists []. exact Hsame.
Qed.


(** ** The events of an assistant response *)

Definition isMessageUpdate (e : AgentEvent) : bool :=
  match e with message_update _ _ => true | _ => false end.

Definition isUpdateEvent (e : AssistantMessageEvent) : bool :=
  match e with AME_update _ _ => true | _ => false end.

Lemma push_open (e : AgentEvent) (es : EventStream.t) :
  EventStream.sealed es = false ->
  EventStream.push e es
  = EventStream.mk (EventStream.queue es ++ [e]) false (EventStream.finalResult es).
Proof. intros Hopen. unfold EventStream.push. now rewrite Hopen. Qed.

(** The events between [message_start] and [message_end]. *)
Definition updatesAfter (addedPartial : bool) (evs : list AgentEvent) : Prop :=
  if addedPartial then Forall (fun e => isMessageUpdate e = true) evs
  else exists first updates,
         evs = message_start (MAssistant first) :: updates /\
         Forall (fun e => isMessageUpdate e = true) updates.

Lemma consumeEvents_stream context stream response events :
  forall partialMessage addedPartial st es,
    wellFormedEvents events addedPartial = true ->
    (addedPartial = true -> partialMessage <> None) ->
    (addedPartial = false -> partialMessage = None) ->
    streams st !! stream = Some es ->
    EventStream.sealed es = false ->
    exists st' evs,
      consumeEvents context stream response events partialMessage addedPartial st
        = (Done (resp_result response), st') /\
      streams st' !! stream
        = Some (EventStream.mk
                  (EventStream.queue es ++ evs
                   ++ [message_end (MAssistant (resp_result response))])
                  false (EventStream.finalResult es)) /\
      updatesAfter addedPartial evs /\
      (forall i, i <> stream -> streams st' !! i = streams st !! i).
Proof.
  induction events as [|event rest IH]; intros pm ap st es Hwf Hsome Hnone Hes Hopen;
    [discriminate|].
  assert (Hstep : forall e st2,
            streams st2 = alter (EventStream.push e) stream (streams st) ->
            streams st2 !! stream
            = Some (EventStream.mk (EventStream.queue es ++ [e]) false
                      (EventStream.finalResult es)) /\
            (forall i, i <> stream -> streams st2 !! i = streams st !! i)).
  { intros e st2 ->. split.
    - rewrite list_lookup_alter_eq, Hes. cbn. now rewrite push_open.
    - intros i Hi. apply list_lookup_alter_ne. congruence. }
  destruct event as [partial|kind partial|msg|err]; cbn [consumeEvents].
  - cbn in Hwf. apply andb_prop in Hwf as [Hap Hwf].
    destruct ap; [discriminate|].
    unfold bind at 1. cbn [arrayPush]. unfold bind at 1. cbn [pushEvent].
    match goal with |- context [consumeEvents _ _ _ _ _ _ ?s] => set (st2 := s) end.
    destruct (Hstep (message_start (MAssistant partial)) st2 eq_refl) as [Hes2 Hother2].
    destruct (IH (Some partial) true st2 _ Hwf ltac:(discriminate) ltac:(discriminate)
                Hes2 eq_refl) as [st' [evs [Hrun [Hq [Hups Hother]]]]].
    exists st', (message_start (MAssistant partial) :: evs).
    split; [exact Hrun|]. split; [|split].
    + rewrite Hq. cbn [EventStream.queue EventStream.finalResult].
      now rewrite <- app_assoc.
    + exists partial, evs. split; [reflexivity|exact Hups].
    + intros i Hi. now rewrite (Hother i Hi), (Hother2 i Hi).
  - cbn in Hwf. destruct pm as [old|].
    + destruct ap; [|specialize (Hnone eq_refl); discriminate].
      unfold bind at 1. cbn [arraySetLast]. unfold bind at 1. cbn [pushEvent].
      match goal with |- context [consumeEvents _ _ _ _ _ _ ?s] => set (st2 := s) end.
      destruct (Hstep (message_update (MAssistant partial) (AME_update kind partial))
                  st2 eq_refl) as [Hes2 Hother2].
      destruct (IH (Some partial) true st2 _ Hwf ltac:(discriminate) ltac:(discriminate)
                  Hes2 eq_refl) as [st' [evs [Hrun [Hq [Hups Hother]]]]].
      exists st', (message_update (MAssistant partial) (AME_update kind partial) :: evs).
      split; [exact Hrun|]. split; [|split].
      * rewrite Hq. cbn [EventStream.queue EventStream.finalResult].
        now rewrite <- app_assoc.
      * constructor; [reflexivity|exact Hups].
      * intros i Hi. now rewrite (Hother i Hi), (Hother2 i Hi).
    + destruct ap; [exfalso; now apply Hsome|].
      apply (IH None false st es Hwf); [discriminate|reflexivity|exact Hes|exact Hopen].
  - destruct ap.
    + unfold bind at 1. cbn [arraySetLast]. unfold bind at 1. cbn [ret].
      unfold bind at 1. cbn [pushEvent ret]. eexists. exists [].
      split; [reflexivity|].
      destruct (Hstep (message_end (MAssistant (resp_result response)))
                  (setStreams
                     (alter (EventStream.push
                               (message_end (MAssistant (resp_result response))))
                        stream (streams st)) st) eq_refl) as [Hes2 Hother2].
      split; [exact Hes2|]. split; [constructor|exact Hother2].
    + unfold bind at 1. cbn [arrayPush]. unfold bind at 1. cbn [pushEvent].
      unfold bind at 1. cbn [pushEvent ret]. eexists.
      exists [message_start (MAssistant (resp_result response))].
      split; [reflexivity|]. cbn [streams setStreams setArrays]. split; [|split].
      * rewrite !list_lookup_alter_eq, Hes. cbn.
        rewrite (push_open _ es Hopen), push_open by reflexivity. cbn.
        now rewrite <- app_assoc.
      * exists (resp_result response), []. split; [reflexivity|constructor].
      * intros i Hi. now rewrite !list_lookup_alter_ne by congruence.
  - destruct ap.
    + unfold bind at 1. cbn [arraySetLast]. unfold bind at 1. cbn [ret].
      unfold bind at 1. cbn [pushEvent ret]. eexists. exists [].
      split; [reflexivity|].
      destruct (Hstep (message_end (MAssistant (resp_result response)))
                  (setStreams
                     (alter (EventStream.push
                               (message_end (MAssistant (resp_result response))))
                        stream (streams st)) st) eq_refl) as [Hes2 Hother2].
      split; [exact Hes2|]. split; [constructor|exact Hother2].
    + unfold bind at 1. cbn [arrayPush]. unfold bind at 1. cbn [pushEvent].
      unfold bind at 1. cbn [pushEvent ret]. eexists.
      exists [message_start (MAssistant (resp_result response))].
      split; [reflexivity|]. cbn [streams setStreams setArrays]. split; [|split].
      * rewrite !list_lookup_alter_eq, Hes. cbn.
        rewrite (push_open _ es Hopen), push_open by reflexivity. cbn.
        now rewrite <- app_assoc.
      * exists (resp_result response), []. split; [reflexivity|constructor].
      * intros i Hi. now rewrite !list_lookup_alter_ne by congruence.
Qed.

Lemma extcall_keeps {A} c (f : Oracle A) st a st' :
  extcall c f st = (Done a, st') ->
  arrays st' = arrays st /\ streams st' = streams st.
Proof. intros H. apply extcall_Done in H as [w' [_ ->]]. split; reflexivity. Qed.

(** [streamAssistantResponse] up to the adapter's answer: the response
    it consumes, and a state with the arrays and streams it started
    from. *)
Lemma streamAssistantResponse_Done_inv context config signal stream streamFn st message
    st' :
  streamAssistantResponse context config signal stream streamFn st = (Done message, st') ->
  exists response st1 m c o w',
    default streamSimple streamFn m c o (world st1) = (Returns response, w') /\
    arrays st1 = arrays st /\ streams st1 = streams st /\
    consumeEvents context stream response (resp_events response) None false
      (addCall (CallStreamFn (model_id (model config))) (setWorld w' st1))
    = (Done message, st').
Proof.
  intros Hrun. unfold streamAssistantResponse in Hrun.
  apply bind_Done_inv in Hrun as [messages0 [s1 [H1 Hrun]]].
  injection H1 as _ <-.
  apply bind_Done_inv in Hrun as [messages1 [s2 [H2 Hrun]]].
  assert (K2 : arrays s2 = arrays st /\ streams s2 = streams st).
  { destruct (transformContext config);
      [now apply extcall_keeps in H2|injection H2 as _ <-; split; reflexivity]. }
  apply bind_Done_inv in Hrun as [llmMessages [s3 [H3 Hrun]]].
  apply extcall_keeps in H3 as [A3 S3].
  apply bind_Done_inv in Hrun as [key [s4 [H4 Hrun]]].
  assert (K4 : arrays s4 = arrays s3 /\ streams s4 = streams s3).
  { destruct (getApiKey config);
      [now apply extcall_keeps in H4|injection H4 as _ <-; split; reflexivity]. }
  apply bind_Done_inv in Hrun as [response [s5 [H5 Hrun]]].
  apply extcall_Done in H5 as [w' [Hcall ->]].
  destruct K2 as [A2 S2], K4 as [A4 S4].
  eexists response, s4, _, _, _, w'. split; [exact Hcall|].
  split; [congruence|]. split; [congruence|exact Hrun].
Qed.

(** X13. When [streamAssistantResponse] returns, with an adapter whose
    event sequences end in [done] or [error]: the stream has received
    one [message_start], then only [message_update] events, then one
    [message_end] that carries the message returned; and the log has
    grown by that message alone, whatever partial messages were
    streamed and whatever [transformContext] and [convertToLlm] made
    of the log. *)
Theorem assistant_response_events context config signal stream streamFn (st : State)
    message st' es log :
  responsesWellFormed (default streamSimple streamFn) ->
  streamAssistantResponse context config signal stream streamFn st = (Done message, st') ->
  streams st !! stream = Some es ->
  EventStream.sealed es = false ->
  arrays st !! messages context = Some log ->
  exists first updates,
    streams st' !! stream
      = Some (EventStream.mk
                (EventStream.queue es
                 ++ message_start (MAssistant first) :: updates
                 ++ [message_end (MAssistant message)])
                false (EventStream.finalResult es)) /\
    Forall (fun e => isMessageUpdate e = true) updates /\
    arrays st' !! messages context = Some (log ++ [MAssistant message]).
Proof.
  intros Hwf Hrun Hes Hopen Hlog.
  apply streamAssistantResponse_Done_inv in Hrun
    as [response [st1 [m [c [o [w' [Hcall [Ha [Hs Hrun]]]]]]]]].
  set (st2 := addCall _ _) in Hrun.
  assert (Hes2 : streams st2 !! stream = Some es) by (subst st2; cbn; now rewrite Hs).
  assert (Hlog2 : arrays st2 !! messages context = Some log)
    by (subst st2; cbn; now rewrite Ha).
  specialize (Hwf _ _ _ _ _ _ Hcall).
  destruct (consumeEvents_stream context stream response (resp_events response) None
              false st2 es Hwf ltac:(discriminate) ltac:(reflexivity) Hes2 Hopen)
    as [sa [evs [Hrun1 [Hq [[first [updates [-> Hups]]] _]]]]].
  destruct (consumeEvents_log context stream response (resp_events response) None
              false st2 Hwf ltac:(discriminate) ltac:(reflexivity))
    as [sb [Hrun2 [Hlog' _]]].
  rewrite Hrun in Hrun1, Hrun2.
  injection Hrun1 as Hmessage Hsa. injection Hrun2 as _ Hsb. subst sa sb.
  rewrite <- Hmessage in Hq, Hlog'.
  exists first, updates. split; [exact Hq|]. split; [exact Hups|].
  apply (Hlog' log (MAssistant message)). exact Hlog2.
Qed.

Lemma consumeEvents_updates_only context stream response events st :
  Forall (fun e => isUpdateEvent e = true) events ->
  consumeEvents context stream response events None false st
  = (Done (resp_result response), st).
Proof.
  induction 1 as [|event rest Hevent _ IH]; [reflexivity|].
  destruct event; try discriminate. exact IH.
Qed.

(** X14. Updates that come before any [start] are dropped, and a
    response that ends without [done] or [error] still gives its
    result: with an adapter whose responses hold update events only,
    [streamAssistantResponse] returns the message of the response but
    pushes no event and leaves every array as it was, so that the
    message never enters the log. *)
Theorem response_without_start_or_end context config signal stream streamFn (st : State)
    message st' :
  (forall m c o w response w',
     default streamSimple streamFn m c o w = (Returns response, w') ->
     Forall (fun e => isUpdateEvent e = true) (resp_events response)) ->
  streamAssistantResponse context config signal stream streamFn st = (Done message, st') ->
  arrays st' = arrays st /\ streams st' = streams st /\
  exists m c o w response w',
    default streamSimple streamFn m c o w = (Returns response, w') /\
    message = resp_result response.
Proof.
  intros Hsilent Hrun.
  apply streamAssistantResponse_Done_inv in Hrun
    as [response [st1 [m [c [o [w' [Hcall [Ha [Hs Hrun]]]]]]]]].
  rewrite (consumeEvents_updates_only _ _ _ _ _ (Hsilent _ _ _ _ _ _ Hcall)) in Hrun.
  injection Hrun as <- <-. cbn. split; [exact Ha|]. split; [exact Hs|].
  now exists m, c, o, (world st1), response, w'.
Qed.

(** ** What a tool call adds to the log *)

Section Advice.

Variable context : AgentContext.
Variable newMessages : loc.
Hypothesis log_new : messages context <> newMessages.

Variable nestedLoop : AgentLoopFn.
Hypothesis nested_preserved :
  forall advisor prompts context signal streamFn st,
    preserved anyCall st
      (snd (nestedLoop prompts context (advisorConfigOf advisor) signal streamFn st)).

(** The advisor messages of one tool call: at most one for each
    advisor, in the advisors' order, none with an empty content. *)
Definition adviceOf (advisors : list AdvisorConfig) (seg segn : list AgentMessage)
    : Prop :=
  segn = seg /\
  exists advice,
    seg = map MAdvisor advice /\
    sublist (map advisorName advice) (map adv_name advisors) /\
    Forall (fun m => adv_content m <> "") advice.

Lemma appends_advice advisors toolCall toolResult stream signal streamFn :
  appends (messages context) newMessages
    (fun _ seg segn => adviceOf advisors seg segn)
    (handleAdvisorsLoop nestedLoop advisors context newMessages toolCall toolResult
       stream signal streamFn).
Proof.
  induction advisors as [|advisor rest IH]; cbn [handleAdvisorsLoop].
  - apply appends_ret. split; [reflexivity|]. exists []. repeat split; constructor.
  - apply appends_silent_bind; [apply silent_readArray|intros seen].
    apply appends_silent_bind; [apply silent_extcall|intros triggered].
    eapply appends_bind with
      (P1 := fun _ seg segn =>
               segn = seg /\
               (seg = [] \/
                exists m, seg = [MAdvisor m] /\ advisorName m = adv_name advisor /\
                          adv_content m <> "")).
    + destruct triggered; [|apply appends_ret; split; [reflexivity|now left]].
      apply silent_pushEvent; [reflexivity|].
      apply appends_silent_bind; [apply silent_readArray|intros copy].
      intros st a st' Hrun.
      apply bind_Done_inv in Hrun as [advisorMsg [s1 [Hadvisor Hrun]]].
      destruct (silent_runAdvisor context newMessages nestedLoop nested_preserved
                  _ _ _ _ _ _ _ _ Hadvisor) as [sa [sb [Hstep1 [-> ->]]]].
      destruct advisorMsg as [m|].
      * destruct (runAdvisor_message _ _ _ _ _ _ _ _ _ Hadvisor) as [Hname [_ Hbody]].
        assert (Hrest : appends (messages context) newMessages
                          (fun _ seg segn => seg = [MAdvisor m] /\ segn = [MAdvisor m])
                          (arrayPush (messages context) (MAdvisor m) ;;
                           arrayPush newMessages (MAdvisor m) ;;
                           pushEvent stream (message_start (MAdvisor m)) ;;
                           pushEvent stream (message_end (MAdvisor m)) ;;
                           pushEvent stream
                             (advisor_end (adv_name advisor) (adv_content m)))).
        { apply appends_push_log; [exact log_new|].
          apply appends_push_new; [exact log_new|].
          apply silent_pushEvent; [reflexivity|].
          apply silent_pushEvent; [reflexivity|].
          intros s x s' [= <- <-]. exists [], []. split; [|split; reflexivity].
          apply offLog_logStep.
          apply (respects_pushEvent anyCall nowhere everywhere anyStream anyStream_push
                   stream (advisor_end (adv_name advisor) (adv_content m)) I eq_refl s). }
        destruct (Hrest _ _ _ Hrun) as [seg [segn [Hstep2 [-> ->]]]].
        exists [MAdvisor m], [MAdvisor m]. split.
        -- apply (logStep_trans _ _ [] [] [MAdvisor m] [MAdvisor m] st s1 st');
             assumption.
        -- split; [reflexivity|]. right. now exists m.
      * injection Hrun as _ <-. exists [], []. split; [exact Hstep1|].
        split; [reflexivity|now left].
    + intros _ s1 n1 [-> Hfirst]. eapply appends_weaken; [exact IH|].
      intros _ seg segn [-> [advice [-> [Hsub Hbodies]]]]. split; [reflexivity|].
      destruct Hfirst as [->|[m [-> [Hname Hbody]]]].
      * exists advice. split; [reflexivity|]. split; [|exact Hbodies].
        cbn. now apply sublist_cons.
      * exists (m :: advice). split; [reflexivity|]. split; [|now constructor].
        cbn. rewrite Hname. now apply sublist_skip.
Qed.

Lemma toolStep_log toolCall config signal stream streamFn st trm st' log new :
  arrays st !! messages context = Some log ->
  arrays st !! newMessages = Some new ->
  toolStep nestedLoop context newMessages toolCall config signal stream streamFn st
    = (Done trm, st') ->
  exists advice,
    arrays st' !! messages context
      = Some (log ++ MToolResult trm :: map MAdvisor advice) /\
    arrays st' !! newMessages
      = Some (new ++ MToolResult trm :: map MAdvisor advice) /\
    sublist (map advisorName advice) (map adv_name (default [] (advisors config))) /\
    Forall (fun m => adv_content m <> "") advice.
Proof.
  intros Hlog Hnew Hrun. unfold toolStep in Hrun.
  apply bind_Done_inv in Hrun as [r [s1 [Hdispatch Hrun]]].
  apply bind_Done_inv in Hrun as [[] [s2 [Hadvisors Hrun]]].
  injection Hrun as <- <-.
  destruct (appends_dispatchToolCall context newMessages log_new toolCall signal stream
              _ _ _ Hdispatch) as [seg [segn [Hstep1 [-> [-> _]]]]].
  destruct (Hstep1 log new (conj Hlog Hnew)) as [Hlog1 Hnew1].
  assert (Hadvice : exists seg segn,
            logStep (messages context) newMessages seg segn s1 s2 /\
            adviceOf (default [] (advisors config)) seg segn).
  { unfold handleAdvisors in Hadvisors. destruct (advisors config) as [l|]; cbn [default].
    - exact (appends_advice l toolCall r stream signal streamFn _ _ _ Hadvisors).
    - injection Hadvisors as <-. exists [], []. split.
      + apply logStep_nil. auto.
      + split; [reflexivity|]. exists []. repeat split; constructor. }
  destruct Hadvice as [seg [segn [Hstep2 [-> [advice [-> [Hsub Hbodies]]]]]]].
  destruct (Hstep2 _ _ (conj Hlog1 Hnew1)) as [Hlog2 Hnew2].
  exists advice. rewrite <- !app_assoc in Hlog2, Hnew2. repeat split; assumption.
Qed.

End Advice.

(** X15. What one tool call adds to the log and to the new messages
    of a run is its tool result, followed at once by the messages of
    the advisors it triggered: at most one message for each configured
    advisor, in the order of the configuration, each with a content
    that is not empty. *)
Theorem advisor_messages_follow_their_tool_result (fuel : nat) context newMessages
    toolCall config signal stream streamFn (st : State) trm st' log new :
  messages context <> newMessages ->
  arrays st !! messages context = Some log ->
  arrays st !! newMessages = Some new ->
  toolStep (nestedAt fuel) context newMessages toolCall config signal stream streamFn st
    = (Done trm, st') ->
  exists advice,
    arrays st' !! messages context
      = Some (log ++ MToolResult trm :: map MAdvisor advice) /\
    arrays st' !! newMessages
      = Some (new ++ MToolResult trm :: map MAdvisor advice) /\
    sublist (map advisorName advice) (map adv_name (default [] (advisors config))) /\
    Forall (fun m => adv_content m <> "") advice.
Proof.
  intros Hne. apply toolStep_log; [exact Hne|].
  apply (nestedAt_preserved anyCall anyCall_other).
Qed.

(** ** How a run ends *)

Lemma consumeEvents_calls context stream response events :
  forall partialMessage addedPartial st,
    calls (snd (consumeEvents context stream response events partialMessage
                  addedPartial st)) = calls st.
Proof.
  induction events as [|event rest IH]; intros pm ap st; [reflexivity|].
  destruct event as [partial|kind partial|msg|err]; cbn [consumeEvents].
  - unfold bind at 1. cbn [arrayPush]. unfold bind at 1. cbn [pushEvent].
    now rewrite IH.
  - destruct pm as [old|]; [|apply IH].
    unfold bind at 1. cbn [arraySetLast]. unfold bind at 1. cbn [pushEvent].
    now rewrite IH.
  - destruct ap; reflexivity.
  - destruct ap; reflexivity.
Qed.

Lemma finish_calls newMessages stream st st' :
  finish newMessages stream st = (Done tt, st') -> calls st' = calls st.
Proof. unfold finish, bind, readArray, pushEvent, endStream. now intros [= <-]. Qed.

(** The last call of a run that has returned. *)
Definition endsWith (config : AgentLoopConfig) (st : State) : Prop :=
  exists cs c,
    calls st = cs ++ [c] /\
    (c = CallGetFollowUpMessages \/ c = CallStreamFn (model_id (model config))).

Lemma runLoopFrom_ends (nestedLoop : AgentLoopFn) context newMessages config signal
    stream streamFn poll :
  getFollowUpMessages config = Some poll ->
  forall fuel firstTurn hasMore pending steer st st',
    runLoopFrom nestedLoop fuel context newMessages config signal stream streamFn
      firstTurn hasMore pending steer st = (Done tt, st') ->
    endsWith config st'.
Proof.
  intros Hpoll. induction fuel as [|fuel IH];
    intros firstTurn hasMore pending steer st st' Hrun; cbn [runLoopFrom] in Hrun.
  - destruct (hasMore || nonEmpty pending); [discriminate|].
    rewrite Hpoll in Hrun. cbn [pollMessages] in Hrun.
    apply bind_Done_inv in Hrun as [followUp [s1 [Hcall Hrun]]].
    destruct followUp as [|m ms]; cbn [nonEmpty] in Hrun; [|discriminate].
    apply extcall_Done in Hcall as [w' [_ ->]].
    apply finish_calls in Hrun.
    exists (calls st), CallGetFollowUpMessages. split; [exact Hrun|now left].
  - destruct (hasMore || nonEmpty pending).
    + apply bind_Done_inv in Hrun as [[] [s1 [_ Hrun]]].
      apply bind_Done_inv in Hrun as [[] [s2 [_ Hrun]]].
      apply bind_Done_inv in Hrun as [message [s3 [Hstream Hrun]]].
      apply bind_Done_inv in Hrun as [[] [s4 [Hpush Hrun]]].
      destruct (isErrorStop (am_stopReason message)).
      * apply streamAssistantResponse_Done_inv in Hstream
          as [response [sa [m [c [o [w' [_ [_ [_ Hconsume]]]]]]]]].
        pose proof (consumeEvents_calls context stream response (resp_events response)
                      None false
                      (addCall (CallStreamFn (model_id (model config)))
                         (setWorld w' sa))) as Hc.
        rewrite Hconsume in Hc. cbn [snd calls addCall setWorld] in Hc.
        apply bind_Done_inv in Hrun as [[] [s5 [Hend Hrun]]].
        apply finish_calls in Hrun.
        injection Hpush as <-. injection Hend as <-.
        exists (calls sa), (CallStreamFn (model_id (model config))).
        split; [rewrite Hrun; exact Hc|now right].
      * apply bind_Done_inv in Hrun as [r [s5 [_ Hrun]]].
        apply bind_Done_inv in Hrun as [[] [s6 [_ Hrun]]].
        destruct (snd r) as [[|x xs]|].
        -- apply bind_Done_inv in Hrun as [next [s7 [_ Hrun]]]. eapply IH, Hrun.
        -- eapply IH, Hrun.
        -- apply bind_Done_inv in Hrun as [next [s7 [_ Hrun]]]. eapply IH, Hrun.
    + rewrite Hpoll in Hrun. cbn [pollMessages] in Hrun.
      apply bind_Done_inv in Hrun as [followUp [s1 [Hcall Hrun]]].
      destruct followUp as [|m ms]; cbn [nonEmpty] in Hrun; [|eapply IH, Hrun].
      apply extcall_Done in Hcall as [w' [_ ->]].
      apply finish_calls in Hrun.
      exists (calls st), CallGetFollowUpMessages. split; [exact Hrun|now left].
Qed.

(** X16. With [getFollowUpMessages] configured, the last call made by
    a run that returns is a follow-up poll or the call of the model's
    stream function (the exit on [error] and [aborted]): it is never a
    tool, a callback of an advisor or a steering poll. This holds for
    both entry points. *)
Theorem run_ends_after_follow_up_poll (fuel : nat) config signal streamFn poll :
  getFollowUpMessages config = Some poll ->
  (forall prompts context (st : State) s st',
     agentLoop fuel prompts context config signal streamFn st = ((s, Done tt), st') ->
     endsWith config st') /\
  (forall context (st : State) s st',
     agentLoopContinue fuel context config signal streamFn st = inr ((s, Done tt), st') ->
     endsWith config st').
Proof.
  intros Hpoll. split.
  - intros prompts context st s st' Hrun. rewrite agentLoop_unfold in Hrun.
    unfold agentLoopWith in Hrun.
    destruct (createAgentStream st) as [stream st0].
    destruct (agentLoopBody _ _ _ _ _ _ _ _ st0) as [out st1] eqn:Hbody.
    injection Hrun as _ -> ->.
    unfold agentLoopBody in Hbody.
    apply bind_Done_inv in Hbody as [nm [s1 [_ Hbody]]].
    apply bind_Done_inv in Hbody as [old [s2 [_ Hbody]]].
    apply bind_Done_inv in Hbody as [copied [s3 [_ Hbody]]].
    apply bind_Done_inv in Hbody as [[] [s4 [_ Hbody]]].
    apply bind_Done_inv in Hbody as [[] [s5 [_ Hbody]]].
    apply bind_Done_inv in Hbody as [[] [s6 [_ Hbody]]].
    unfold runLoop in Hbody.
    apply bind_Done_inv in Hbody as [pending [s7 [_ Hbody]]].
    eapply runLoopFrom_ends; eassumption.
  - intros context st s st' Hrun. unfold agentLoopContinue, agentLoopContinueWith in Hrun.
    destruct (Nat.eqb _ 0); [discriminate|].
    assert (Hbody : exists stream st0,
              agentLoopContinueBody (nestedAt fuel) fuel context config signal stream
                streamFn st0 = (Done tt, st')).
    { destruct (last _) as [[| | | |]|];
        try discriminate;
        destruct (createAgentStream st) as [stream st0];
        destruct (agentLoopContinueBody _ _ _ _ _ _ _ st0) as [out st1] eqn:Hbody;
        injection Hrun as _ -> ->; now exists stream, st0. }
    destruct Hbody as [stream [st0 Hbody]]. unfold agentLoopContinueBody in Hbody.
    apply bind_Done_inv in Hbody as [nm [s1 [_ Hbody]]].
    apply bind_Done_inv in Hbody as [[] [s4 [_ Hbody]]].
    apply bind_Done_inv in Hbody as [[] [s5 [_ Hbody]]].
    unfold runLoop in Hbody.
    apply bind_Done_inv in Hbody as [pending [s7 [_ Hbody]]].
    eapply runLoopFrom_ends; eassumption.
Qed.

(** X17. When the agent would stop, with no tool call left and
    nothing pending, the loop asks [getFollowUpMessages]: on an empty
    answer it ends the run at once; on messages it starts a new turn,
    which appends them to the log and to the new messages, in order,
    before anything else is called. *)
Theorem follow_up_messages_start_a_new_turn (nestedLoop : AgentLoopFn) (fuel : nat)
    context newMessages config signal stream streamFn poll (firstTurn : bool) steer
    (st : State) followUp w' :
  messages context <> newMessages ->
  getFollowUpMessages config = Some poll ->
  poll (world st) = (Returns followUp, w') ->
  (followUp = [] ->
   runLoopFrom nestedLoop fuel context newMessages config signal stream streamFn
     firstTurn false [] steer st
   = finish newMessages stream (addCall CallGetFollowUpMessages (setWorld w' st))) /\
  (nonEmpty followUp = true ->
   exists st1,
     ((if firstTurn then (ret tt : M unit) else pushEvent stream turn_start) ;;
      injectPending context newMessages stream followUp)
       (addCall CallGetFollowUpMessages (setWorld w' st)) = (Done tt, st1) /\
     calls st1 = calls st ++ [CallGetFollowUpMessages] /\
     logStep (messages context) newMessages followUp followUp st st1 /\
     runLoopFrom nestedLoop (Datatypes.S (Datatypes.S fuel)) context newMessages config
       signal stream streamFn firstTurn false [] steer st
     = runLoopFrom nestedLoop (Datatypes.S fuel) context newMessages config signal
         stream streamFn true true [] None st1).
Proof.
  intros Hne Hcfg Hpoll.
  set (st0 := addCall CallGetFollowUpMessages (setWorld w' st)).
  assert (Hcall : pollMessages CallGetFollowUpMessages (getFollowUpMessages config) st
                  = (Done followUp, st0)).
  { rewrite Hcfg. unfold pollMessages, extcall, bind, perform, await, ret.
    now rewrite Hpoll. }
  split.
  - intros ->. destruct fuel; cbn [runLoopFrom orb nonEmpty];
      now rewrite (bind_Done_eq _ _ _ _ _ Hcall).
  - intros Hsome.
    destruct (runLoopFrom_inject nestedLoop fuel context newMessages config signal
                stream streamFn firstTurn followUp None st0) as [st1 [Hrun [Hc Heq]]].
    exists st1. split; [exact Hrun|]. split; [rewrite Hc; reflexivity|]. split.
    + apply bind_Done_inv in Hrun as [[] [sa [Ha Hrun]]].
      destruct (appends_injectPending context newMessages Hne stream followUp _ _ _ Hrun)
        as [seg [segn [Hstep [-> ->]]]].
      intros v vn Hl. apply Hstep.
      destruct firstTurn; injection Ha as <-; exact Hl.
    + cbn [runLoopFrom orb nonEmpty]. rewrite (bind_Done_eq _ _ _ _ _ Hcall), Hsome.
      exact Heq.
Qed.

(** ** Which runs end their stream *)

(** *** A body that has not returned leaves its stream open *)

Lemma quietStep_create es : quietStep EventStream.create es -> stillOpen es.
Proof.
  intros [evs [-> Hq]]. rewrite pushAll_open by reflexivity.
  split; [exact Hq|reflexivity].
Qed.

Section OpenStreams.

Variable nestedLoop : AgentLoopFn.
Hypothesis nested_preserved :
  forall advisor prompts context signal streamFn st,
    preserved anyCall st
      (snd (nestedLoop prompts context (advisorConfigOf advisor) signal streamFn st)).

Ltac quiet_prefix stream :=
  repeat first
    [ apply (quietUnlessDone_runLoop _ stream nestedLoop nested_preserved)
    | apply quietUnlessDone_bind; [|intros ?]
    | apply (respects_bind anyCall everywhere (fun i => i = stream) quietStep);
      [|intros ?]
    | apply (respects_forEach anyCall everywhere (fun i => i = stream) quietStep);
      intros ?
    | apply (respects_pushEvent anyCall everywhere (fun i => i = stream) quietStep
               quietStep_push); [reflexivity|reflexivity]
    | apply (respects_newArray anyCall everywhere (fun i => i = stream) quietStep)
    | apply (respects_readArray anyCall everywhere (fun i => i = stream) quietStep) ].

Lemma agentLoopBody_quiet fuel prompts context config signal stream streamFn :
  quietUnlessDone stream
    (agentLoopBody nestedLoop fuel prompts context config signal stream streamFn).
Proof. unfold agentLoopBody. quiet_prefix stream. Qed.

Lemma agentLoopContinueBody_quiet fuel context config signal stream streamFn :
  quietUnlessDone stream
    (agentLoopContinueBody nestedLoop fuel context config signal stream streamFn).
Proof. unfold agentLoopContinueBody. quiet_prefix stream. Qed.

Lemma created_stream_open (st st' : State) :
  frame anyCall everywhere (fun i => i = List.length (streams st)) quietStep
    (setStreams (streams st ++ [EventStream.create]) st) st' ->
  exists es, streams st' !! List.length (streams st) = Some es /\ stillOpen es.
Proof.
  intros [_ _ Hs].
  destruct (Hs (List.length (streams st)) EventStream.create) as [es [Hes [Hstep _]]].
  - cbn [streams setStreams]. rewrite lookup_app_r by lia. now rewrite Nat.sub_diag.
  - exists es. split; [exact Hes|]. apply quietStep_create, Hstep. reflexivity.
Qed.

(** A run started with [agentLoop] whose body has not returned has
    pushed no [agent_end], and its stream is not sealed. *)
Lemma agentLoopWith_open fuel prompts context config signal streamFn st :
  let r := agentLoopWith nestedLoop fuel prompts context config signal streamFn st in
  snd (fst r) <> Done tt ->
  exists es, streams (snd r) !! fst (fst r) = Some es /\ stillOpen es.
Proof.
  unfold agentLoopWith, createAgentStream.
  pose proof (agentLoopBody_quiet fuel prompts context config signal
                (List.length (streams st)) streamFn
                (setStreams (streams st ++ [EventStream.create]) st)) as H.
  destruct (agentLoopBody _ _ _ _ _ _ _ _ _) as [out st']. cbn [fst snd] in *.
  intros Hout. destruct H as [[[] ->]|Hq]; [congruence|].
  now apply created_stream_open.
Qed.

Lemma agentLoopContinueWith_open fuel context config signal streamFn st s out st' :
  agentLoopContinueWith nestedLoop fuel context config signal streamFn st
    = inr ((s, out), st') ->
  out <> Done tt ->
  exists es, streams st' !! s = Some es /\ stillOpen es.
Proof.
  unfold agentLoopContinueWith, createAgentStream.
  destruct (Nat.eqb _ 0); [discriminate|].
  pose proof (agentLoopContinueBody_quiet fuel context config signal
                (List.length (streams st)) streamFn
                (setStreams (streams st ++ [EventStream.create]) st)) as H.
  destruct (agentLoopContinueBody _ _ _ _ _ _ _ _) as [out0 st0']. cbn [fst snd] in *.
  intros Heq Hout.
  assert (Hres : inr ((List.length (streams st), out0), st0')
                 = (inr ((s, out), st') : JsValue + (sid * Outcome unit) * State)).
  { destruct (last (arrays st !!! messages context)) as [[| | | |]|];
      first [discriminate|exact Heq]. }
  injection Hres as <- <- <-.
  destruct H as [[[] ->]|Hq]; [congruence|].
  now apply created_stream_open.
Qed.

End OpenStreams.

(** *** Callbacks that return *)

(** A caller-supplied function that returns, or whose promise
    resolves, whatever the state of the world: it neither throws nor
    rejects. [returnsWith Q] also says what it returns. *)
Definition returnsWith {A} (Q : A -> Prop) (f : Oracle A) : Prop :=
  forall w, exists a w', f w = (Returns a, w') /\ Q a.

Definition anyResult {A} : A -> Prop := fun _ => True.

Definition returnsAlways {A} (f : Oracle A) : Prop := returnsWith anyResult f.

(** The callbacks of an advisor that the loop awaits outside a [try]
    block: its trigger, and the callbacks of its nested run, at every
    depth. [createContext] and [extractResult] are awaited inside the
    [try] of [runAdvisor], and may throw. *)
Fixpoint advisorReturns (advisor : AdvisorConfig) : Prop :=
  match advisor with
  | mkAdvisorConfig _ _ fires _ nested _ _ convert _ resolveKey _ =>
      (forall params, returnsAlways (fires params)) /\
      (forall f, convert = Some f -> forall ms, returnsAlways (f ms)) /\
      (forall g, resolveKey = Some g -> forall p, returnsAlways (g p)) /\
      match nested with
      | None => True
      | Some l =>
          (fix all (l : list AdvisorConfig) : Prop :=
             match l with
             | [] => True
             | a :: rest => advisorReturns a /\ all rest
             end) l
      end
  end.

Definition advisorsReturn (advisors : option (list AdvisorConfig)) : Prop :=
  match advisors with
  | None => True
  | Some l => Forall advisorReturns l
  end.

(** The callbacks that [streamAssistantResponse] awaits before it calls
    the stream function. *)
Definition requestCallbacksReturn (config : AgentLoopConfig) : Prop :=
  (forall f, transformContext config = Some f ->
     forall ms signal, returnsAlways (f ms signal)) /\
  (forall ms, returnsAlways (convertToLlm config ms)) /\
  (forall g, getApiKey config = Some g -> forall p, returnsAlways (g p)).

(** The callbacks of a run that the loop awaits outside a [try] block.
    Tools, [validateToolArguments], [createContext] and [extractResult]
    are not among them: what they throw is caught. *)
Definition callbacksReturn (config : AgentLoopConfig) (streamFn : option StreamFn)
    : Prop :=
  requestCallbacksReturn config /\
  (forall m c o, returnsAlways (default streamSimple streamFn m c o)) /\
  (forall poll, getSteeringMessages config = Some poll -> returnsAlways poll) /\
  (forall poll, getFollowUpMessages config = Some poll -> returnsAlways poll) /\
  advisorsReturn (advisors config).

Lemma advisorReturns_unfold advisor :
  advisorReturns advisor ->
  (forall params, returnsAlways (trigger advisor params)) /\
  (forall f, adv_convertToLlm advisor = Some f -> forall ms, returnsAlways (f ms)) /\
  (forall g, adv_getApiKey advisor = Some g -> forall p, returnsAlways (g p)) /\
  advisorsReturn (adv_advisors advisor).
Proof.
  destruct advisor as [n m fires ts nested cc er convert key resolveKey tl].
  cbn [advisorReturns trigger adv_convertToLlm adv_getApiKey adv_advisors].
  intros [H1 [H2 [H3 H4]]]. repeat split; try assumption.
  destruct nested as [l|]; [|exact I]. cbn [advisorsReturn].
  induction l as [|a rest IH]; [constructor|].
  destruct H4 as [Ha Hrest]. constructor; [exact Ha|exact (IH Hrest)].
Qed.

Lemma returnsAlways_plain {A} (a : A) : returnsAlways (fun w : W => (Returns a, w)).
Proof. intros w. exists a, w. split; [reflexivity|exact I]. Qed.

Lemma advisorConfig_callbacksReturn advisor streamFn :
  advisorReturns advisor ->
  (forall m c o, returnsAlways (default streamSimple streamFn m c o)) ->
  callbacksReturn (advisorConfigOf advisor) streamFn.
Proof.
  intros Hadv Hstream.
  apply advisorReturns_unfold in Hadv as [_ [Hconv [Hkey Hnested]]].
  unfold callbacksReturn, requestCallbacksReturn, advisorConfigOf.
  cbn [transformContext convertToLlm getApiKey getSteeringMessages
       getFollowUpMessages advisors].
  repeat split; try discriminate; try assumption.
  intros ms. destruct (adv_convertToLlm advisor) as [f|] eqn:Hf.
  - now apply (Hconv f).
  - apply returnsAlways_plain.
Qed.

(** *** Computations that return, and computations that go on *)

(** [always Q m]: from every state [m] returns, with a result in [Q]. *)
Definition always {A} (Q : A -> Prop) (m : M A) : Prop :=
  forall st, exists a st', m st = (Done a, st') /\ Q a.

(** An outcome other than an exception or an endless wait. *)
Definition goesOn {A} (out : Outcome A) : Prop :=
  match out with
  | Done _ | OutOfFuel => True
  | Threw _ | Hung => False
  end.

(** [proceeds m]: [m] returns, unless the fuel of the model runs out. *)
Definition proceeds {A} (m : M A) : Prop := forall st, goesOn (fst (m st)).

Lemma always_weaken {A} (Q Q' : A -> Prop) (m : M A) :
  always Q m -> (forall a, Q a -> Q' a) -> always Q' m.
Proof.
  intros Hm HQ st. destruct (Hm st) as [a [st' [H Ha]]].
  exists a, st'. split; [exact H|now apply HQ].
Qed.

Lemma always_ret {A} (Q : A -> Prop) (a : A) : Q a -> always Q (ret a).
Proof. intros Ha st. exists a, st. split; [reflexivity|exact Ha]. Qed.

Lemma always_bind {A B} (Q : A -> Prop) (Q' : B -> Prop) (m : M A) (k : A -> M B) :
  always Q m -> (forall a, Q a -> always Q' (k a)) -> always Q' (bind m k).
Proof.
  intros Hm Hk st. destruct (Hm st) as [a [st1 [H Ha]]].
  rewrite (bind_Done_eq _ _ _ _ _ H). apply (Hk a Ha).
Qed.

Lemma always_proceeds {A} (Q : A -> Prop) (m : M A) : always Q m -> proceeds m.
Proof. intros Hm st. destruct (Hm st) as [a [st' [-> _]]]. exact I. Qed.

Lemma proceeds_bind {A B} (m : M A) (k : A -> M B) :
  proceeds m -> (forall a, proceeds (k a)) -> proceeds (bind m k).
Proof.
  intros Hm Hk st. unfold bind. specialize (Hm st).
  destruct (m st) as [[a|e| |] st1]; cbn [fst] in *; try assumption. apply Hk.
Qed.

Lemma proceeds_after {A B} (Q : A -> Prop) (m : M A) (k : A -> M B) :
  always Q m -> (forall a, Q a -> proceeds (k a)) -> proceeds (bind m k).
Proof.
  intros Hm Hk st. destruct (Hm st) as [a [st1 [H Ha]]].
  rewrite (bind_Done_eq _ _ _ _ _ H). apply (Hk a Ha).
Qed.

Lemma proceeds_outOfFuel {A} : proceeds (@outOfFuel A).
Proof. intros st. exact I. Qed.

Lemma always_pushEvent s e : always anyResult (pushEvent s e).
Proof. intros st. eexists. eexists. split; [reflexivity|exact I]. Qed.

Lemma always_endStream s v : always anyResult (endStream s v).
Proof. intros st. eexists. eexists. split; [reflexivity|exact I]. Qed.

Lemma always_newArray v : always anyResult (newArray v).
Proof. intros st. eexists. eexists. split; [reflexivity|exact I]. Qed.

Lemma always_readArray l : always anyResult (readArray l).
Proof. intros st. eexists. eexists. split; [reflexivity|exact I]. Qed.

Lemma always_arrayPush l m : always anyResult (arrayPush l m).
Proof. intros st. eexists. eexists. split; [reflexivity|exact I]. Qed.

Lemma always_arraySetLast l m : always anyResult (arraySetLast l m).
Proof. intros st. eexists. eexists. split; [reflexivity|exact I]. Qed.

Lemma always_now : always anyResult now.
Proof.
  intros st. unfold now. destruct (Date_now (world st)) as [t w'].
  eexists. eexists. split; [reflexivity|exact I].
Qed.

Lemma always_extcall {A} (Q : A -> Prop) c (f : Oracle A) :
  returnsWith Q f -> always Q (extcall c f).
Proof.
  intros Hf st. destruct (Hf (world st)) as [a [w' [H Ha]]].
  exists a, (addCall c (setWorld w' st)). split; [|exact Ha].
  unfold extcall, bind, perform. rewrite H. reflexivity.
Qed.

Lemma always_forEach {A} (xs : list A) (body : A -> M unit) :
  (forall x, always anyResult (body x)) -> always anyResult (forEach xs body).
Proof.
  intros Hb. induction xs as [|x xs IH]; cbn [forEach].
  - now apply always_ret.
  - eapply always_bind; [apply Hb|intros _ _; exact IH].
Qed.

Lemma always_pollMessages (Q : list AgentMessage -> Prop) c f :
  (forall poll, f = Some poll -> returnsWith Q poll) -> Q [] ->
  always Q (pollMessages c f).
Proof.
  intros Hf Hnil. destruct f as [poll|]; cbn [pollMessages].
  - apply always_extcall. now apply Hf.
  - now apply always_ret.
Qed.

(** Sequences of steps that always return. *)
Ltac returns_tac :=
  repeat first
    [ apply always_pushEvent | apply always_endStream | apply always_newArray
    | apply always_readArray | apply always_arrayPush | apply always_arraySetLast
    | apply always_now
    | apply always_ret; exact I
    | apply always_forEach; intros ?
    | eapply always_bind; [|intros ? _]
    | match goal with
      | |- always _ (match ?x with _ => _ end) => destruct x
      | |- always _ (if ?x then _ else _) => destruct x
      end ].

Lemma always_runTool tool toolCall signal stream :
  always anyResult (runTool tool toolCall signal stream).
Proof.
  intros st. destruct (runTool_total tool toolCall signal stream st) as [r [st' H]].
  exists r, st'. split; [exact H|exact I].
Qed.

Lemma always_dispatchToolCall context newMessages toolCall signal stream :
  always anyResult (dispatchToolCall context newMessages toolCall signal stream).
Proof.
  unfold dispatchToolCall.
  eapply always_bind; [apply always_pushEvent|intros _ _].
  eapply always_bind; [apply always_runTool|intros r _].
  returns_tac.
Qed.

Lemma always_skipRemaining context newMessages remaining stream results :
  always anyResult (skipRemaining context newMessages remaining stream results).
Proof.
  revert results. induction remaining as [|skipped rest IH]; intros results;
    cbn [skipRemaining].
  - now apply always_ret.
  - eapply always_bind with (Q := anyResult);
      [unfold skipToolCall; returns_tac|intros r _].
    eapply always_bind; [apply always_arrayPush|intros _ _].
    eapply always_bind; [apply always_arrayPush|intros _ _].
    apply IH.
Qed.

Lemma always_injectPending context newMessages stream pendingMessages :
  always anyResult (injectPending context newMessages stream pendingMessages).
Proof. unfold injectPending. returns_tac. Qed.

Lemma always_finish newMessages stream :
  always anyResult (finish newMessages stream).
Proof. unfold finish. returns_tac. Qed.

Lemma always_createAdvisorMessage name modelId body :
  always anyResult (createAdvisorMessage name modelId body).
Proof. unfold createAdvisorMessage. returns_tac. Qed.

(** The response loop returns what [response.result()] resolves to. *)
Lemma always_consumeEvents context stream response events :
  forall partialMessage addedPartial,
    always (fun m => m = resp_result response)
      (consumeEvents context stream response events partialMessage addedPartial).
Proof.
  induction events as [|event rest IH]; intros partialMessage addedPartial;
    cbn [consumeEvents].
  - now apply always_ret.
  - destruct event as [partial|kind partial|msg|err].
    + eapply always_bind; [apply always_arrayPush|intros _ _].
      eapply always_bind; [apply always_pushEvent|intros _ _]. apply IH.
    + destruct partialMessage as [old|]; [|apply IH].
      eapply always_bind; [apply always_arraySetLast|intros _ _].
      eapply always_bind; [apply always_pushEvent|intros _ _]. apply IH.
    + eapply always_bind with (Q := anyResult);
        [destruct addedPartial; returns_tac|intros _ _].
      eapply always_bind with (Q := anyResult);
        [destruct addedPartial; returns_tac|intros _ _].
      eapply always_bind; [apply always_pushEvent|intros _ _].
      now apply always_ret.
    + eapply always_bind with (Q := anyResult);
        [destruct addedPartial; returns_tac|intros _ _].
      eapply always_bind with (Q := anyResult);
        [destruct addedPartial; returns_tac|intros _ _].
      eapply always_bind; [apply always_pushEvent|intros _ _].
      now apply always_ret.
Qed.

(** With callbacks that return, [streamAssistantResponse] returns the
    message of a response that the stream function gave. *)
Lemma always_streamAssistantResponse (Q : StreamResponse -> Prop) context config
    signal stream streamFn :
  requestCallbacksReturn config ->
  (forall m c o, returnsWith Q (default streamSimple streamFn m c o)) ->
  always (fun message => exists response, Q response /\ message = resp_result response)
    (streamAssistantResponse context config signal stream streamFn).
Proof.
  intros [Htransform [Hconvert Hkey]] Hstream. unfold streamAssistantResponse.
  eapply always_bind; [apply always_readArray|intros messages0 _].
  eapply always_bind with (Q := anyResult).
  { destruct (transformContext config) as [f|] eqn:Hf.
    - apply always_extcall. now apply (Htransform f).
    - now apply always_ret. }
  intros messages1 _.
  eapply always_bind; [apply always_extcall, Hconvert|intros llmMessages _].
  eapply always_bind with (Q := anyResult).
  { destruct (getApiKey config) as [g|] eqn:Hg.
    - apply always_extcall. now apply (Hkey g).
    - now apply always_ret. }
  intros key _.
  eapply always_bind; [apply always_extcall, Hstream|intros response Hresponse].
  eapply always_weaken; [apply always_consumeEvents|].
  intros message ->. now exists response.
Qed.

(** *** Runs whose callbacks return *)

(** [stream.result()] has a value to resolve to. *)
Definition resultReady (s : sid) (st : State) : Prop :=
  exists v, EventStream.finalResult (streams st !!! s) = Some v.

Lemma pushAll_finalResult (evs : list AgentEvent) (es : EventStream.t) :
  EventStream.finalResult (EventStream.pushAll evs es) = EventStream.finalResult es.
Proof.
  revert es. induction evs as [|e evs IH]; intros es; [reflexivity|].
  cbn. rewrite IH. unfold EventStream.push.
  destruct (EventStream.sealed es); reflexivity.
Qed.

Lemma resultReady_pushAll evs stream s st :
  resultReady s st ->
  resultReady s (setStreams (alter (EventStream.pushAll evs) stream (streams st)) st).
Proof.
  intros [v Hv]. exists v. cbn [streams setStreams].
  rewrite list_lookup_total_alt in Hv |- *.
  destruct (decide (stream = s)) as [->|Hne].
  - rewrite list_lookup_alter_eq.
    destruct (streams st !! s) as [es|]; cbn in *; [|exact Hv].
    now rewrite pushAll_finalResult.
  - now rewrite list_lookup_alter_ne.
Qed.

Lemma bind_Threw_eq {A B} (m : M A) (k : A -> M B) st e st1 :
  m st = (Threw e, st1) -> bind m k st = (Threw e, st1).
Proof. intros H. unfold bind. now rewrite H. Qed.

(** An awaited call returns or throws. *)
Lemma extcall_outcome {A} c (f : Oracle A) st :
  (exists a st', extcall c f st = (Done a, st')) \/
  (exists e st', extcall c f st = (Threw e, st')).
Proof.
  unfold extcall, bind, perform, await, ret, throw.
  destruct (f (world st)) as [[a|e|e] w'];
    [left|right|right]; eexists; eexists; reflexivity.
Qed.

Lemma spawn_run (run : State -> (sid * Outcome unit) * State) st :
  spawn run st = (Done (fst (run st)), snd (run st)).
Proof. unfold spawn. now destruct (run st). Qed.

Lemma forEach_push_run {A} (xs : list A) (f : A -> AgentEvent) stream st :
  forEach xs (fun x => pushEvent stream (f x)) st
  = (Done tt,
     setStreams (alter (EventStream.pushAll (map f xs)) stream (streams st)) st).
Proof.
  rewrite <- forEach_push_streams.
  destruct (always_forEach xs (fun x => pushEvent stream (f x))
              (fun x => always_pushEvent stream (f x)) st) as [[] [st' [-> _]]].
  reflexivity.
Qed.

Section GoingOn.

Variable nestedLoop : AgentLoopFn.
Variable streamFn : option StreamFn.

(** What the runs of advisors are assumed to do: go on, and leave a
    result on their stream when their body returns. *)
Hypothesis nested_goesOn :
  forall advisor prompts context signal st,
    advisorReturns advisor ->
    let r := nestedLoop prompts context (advisorConfigOf advisor) signal streamFn st in
    goesOn (snd (fst r)) /\
    (snd (fst r) = Done tt -> resultReady (fst (fst r)) (snd r)).

(** The [try] block of [runAdvisor] throws or returns; it waits for
    ever only on a child stream that never ends. *)
Lemma proceeds_runAdvisor advisor params parentStream signal :
  advisorReturns advisor ->
  proceeds (runAdvisor nestedLoop advisor params parentStream signal streamFn).
Proof.
  intros Hadv st. unfold runAdvisor.
  match goal with
  | |- goesOn (fst (tryCatch ?m ?h st)) =>
      cut (fst (m st) <> Hung);
        [intros Hbody; unfold tryCatch;
         destruct (m st) as [[a|e| |] st1]; cbn in *; [exact I|exact I|congruence|exact I]|]
  end.
  destruct (extcall_outcome (CallCreateContext (adv_name advisor))
              (createContext advisor params) st)
    as [[advisorCtx [st1 H1]]|[e [st1 H1]]];
    [|rewrite (bind_Threw_eq _ _ _ _ _ H1); discriminate].
  rewrite (bind_Done_eq _ _ _ _ _ H1). cbv beta zeta.
  unfold bind at 1. cbn [newArray].
  rewrite (bind_Done_eq _ _ _ _ _ (spawn_run _ _)). cbv beta zeta.
  match goal with
  | |- context [nestedLoop ?p ?c ?cfg ?sg ?sf ?s] =>
      pose proof (nested_goesOn advisor p c sg s Hadv) as Hnested;
      destruct (nestedLoop p c cfg sg sf s) as [[child out] st3]
  end.
  cbn [fst snd] in *. destruct Hnested as [Hgo Hready].
  unfold bind at 1. cbn [readQueue].
  rewrite (bind_Done_eq _ _ _ _ _ (forEach_push_run _ _ _ _)).
  destruct out as [[]|e| |]; cbn [awaitEnd]; try contradiction;
    [|unfold bind, outOfFuel; discriminate].
  unfold bind at 1. cbn [ret].
  destruct (resultReady_pushAll
              (map (advisor_event (adv_name advisor))
                 (EventStream.queue (streams st3 !!! child)))
              parentStream child st3 (Hready eq_refl)) as [v Hv].
  unfold bind at 1, streamResult. rewrite Hv.
  assert (Hlast : forall (body : string) st5,
            fst (match body with
                 | EmptyString => ret None
                 | _ =>
                     m <- createAdvisorMessage (adv_name advisor)
                            (model_id (adv_model advisor)) body ;;
                     ret (Some m)
                 end st5) <> Hung).
  { intros body st5. destruct body as [|c body]; [discriminate|].
    destruct (always_createAdvisorMessage (adv_name advisor)
                (model_id (adv_model advisor)) (String c body) st5)
      as [m [st6 [H6 _]]].
    rewrite (bind_Done_eq _ _ _ _ _ H6). discriminate. }
  destruct (extractResult advisor) as [f|].
  - match goal with
    | |- fst (bind (extcall ?c ?g) _ ?s) <> Hung =>
        destruct (extcall_outcome c g s) as [[body [st5 H5]]|[e [st5 H5]]]
    end.
    + rewrite (bind_Done_eq _ _ _ _ _ H5). apply Hlast.
    + rewrite (bind_Threw_eq _ _ _ _ _ H5). discriminate.
  - unfold bind at 1. cbn [ret]. apply Hlast.
Qed.

Lemma proceeds_handleAdvisorsLoop advisors context newMessages toolCall toolResult
    stream signal :
  Forall advisorReturns advisors ->
  proceeds
    (handleAdvisorsLoop nestedLoop advisors context newMessages toolCall toolResult
       stream signal streamFn).
Proof.
  induction 1 as [|advisor rest Hadv _ IH]; cbn [handleAdvisorsLoop].
  - apply (always_proceeds anyResult). now apply always_ret.
  - eapply proceeds_after; [apply always_readArray|intros seen _].
    eapply proceeds_after;
      [apply always_extcall; apply (advisorReturns_unfold advisor Hadv)
      |intros triggered _].
    apply proceeds_bind; [|intros _; exact IH].
    destruct triggered; [|apply (always_proceeds anyResult); now apply always_ret].
    eapply proceeds_after; [apply always_pushEvent|intros _ _].
    eapply proceeds_after; [apply always_readArray|intros copy _].
    apply proceeds_bind; [now apply proceeds_runAdvisor|intros advisorMsg].
    apply (always_proceeds anyResult). destruct advisorMsg; returns_tac.
Qed.

Lemma proceeds_handleAdvisors advisors context newMessages toolCall toolResult
    stream signal :
  advisorsReturn advisors ->
  proceeds
    (handleAdvisors nestedLoop advisors context newMessages toolCall toolResult
       stream signal streamFn).
Proof.
  destruct advisors as [l|]; cbn [handleAdvisors advisorsReturn].
  - apply proceeds_handleAdvisorsLoop.
  - intros _. apply (always_proceeds anyResult). now apply always_ret.
Qed.

Variable config : AgentLoopConfig.
Hypothesis config_returns : callbacksReturn config streamFn.

Lemma steering_returns :
  forall poll, getSteeringMessages config = Some poll -> returnsAlways poll.
Proof. apply config_returns. Qed.

Lemma followUp_returns :
  forall poll, getFollowUpMessages config = Some poll -> returnsAlways poll.
Proof. apply config_returns. Qed.

Lemma stream_returns :
  forall m c o, returnsAlways (default streamSimple streamFn m c o).
Proof. apply config_returns. Qed.

Lemma proceeds_executeToolCallsFrom context newMessages toolCalls signal stream :
  forall results,
    proceeds
      (executeToolCallsFrom nestedLoop context newMessages toolCalls config signal
         stream streamFn results).
Proof.
  induction toolCalls as [|toolCall rest IH]; intros results;
    cbn [executeToolCallsFrom].
  - apply (always_proceeds anyResult). now apply always_ret.
  - eapply proceeds_after; [apply always_dispatchToolCall|intros toolResult _].
    apply proceeds_bind;
      [apply proceeds_handleAdvisors; apply config_returns|intros _].
    destruct (getSteeringMessages config) as [poll|] eqn:Hpoll; [|apply IH].
    eapply proceeds_after;
      [apply always_extcall; now apply steering_returns|intros steering _].
    destruct (nonEmpty steering); [|apply IH].
    eapply proceeds_after; [apply always_skipRemaining|intros skipped _].
    apply (always_proceeds anyResult). now apply always_ret.
Qed.

(** A run goes on from turn to turn until it finishes: nothing throws,
    and nothing is waited for that never comes. *)
Lemma proceeds_runLoopFrom fuel context newMessages signal stream :
  forall firstTurn hasMoreToolCalls pendingMessages steeringAfterTools,
    proceeds
      (runLoopFrom nestedLoop fuel context newMessages config signal stream
         streamFn firstTurn hasMoreToolCalls pendingMessages steeringAfterTools).
Proof.
  induction fuel as [|fuel IH]; intros firstTurn hasMore pending steering;
    cbn [runLoopFrom].
  - destruct (hasMore || nonEmpty pending); [apply proceeds_outOfFuel|].
    eapply proceeds_after;
      [apply (always_pollMessages anyResult); [apply followUp_returns|exact I]
      |intros followUp _].
    destruct (nonEmpty followUp); [apply proceeds_outOfFuel|].
    apply (always_proceeds anyResult), always_finish.
  - destruct (hasMore || nonEmpty pending).
    + eapply proceeds_after with (Q := anyResult);
        [destruct firstTurn; returns_tac|intros _ _].
      eapply proceeds_after; [apply always_injectPending|intros _ _].
      eapply proceeds_after;
        [apply (always_streamAssistantResponse anyResult);
           [apply config_returns|exact stream_returns]
        |intros message _].
      eapply proceeds_after; [apply always_arrayPush|intros _ _].
      destruct (isErrorStop (am_stopReason message)).
      * apply (always_proceeds anyResult).
        eapply always_bind; [apply always_pushEvent|intros _ _].
        apply always_finish.
      * cbv zeta.
        apply proceeds_bind.
        { destruct (nonEmpty (toolCallsOf (am_content message))).
          - apply proceeds_executeToolCallsFrom.
          - apply (always_proceeds anyResult). now apply always_ret. }
        intros r.
        eapply proceeds_after; [apply always_pushEvent|intros _ _].
        destruct (snd r) as [[|m ms]|].
        -- eapply proceeds_after;
             [apply (always_pollMessages anyResult); [apply steering_returns|exact I]
             |intros polled _].
           apply IH.
        -- apply IH.
        -- eapply proceeds_after;
             [apply (always_pollMessages anyResult); [apply steering_returns|exact I]
             |intros polled _].
           apply IH.
    + eapply proceeds_after;
        [apply (always_pollMessages anyResult); [apply followUp_returns|exact I]
        |intros followUp _].
      destruct (nonEmpty followUp); [apply IH|].
      apply (always_proceeds anyResult), always_finish.
Qed.

Lemma proceeds_runLoop fuel context newMessages signal stream :
  proceeds
    (runLoop nestedLoop fuel context newMessages config signal stream streamFn).
Proof.
  unfold runLoop.
  eapply proceeds_after;
    [apply (always_pollMessages anyResult); [apply steering_returns|exact I]
    |intros pending _].
  apply proceeds_runLoopFrom.
Qed.

Lemma agentLoopWith_goesOn fuel prompts context signal st :
  goesOn
    (snd (fst (agentLoopWith nestedLoop fuel prompts context config signal
                 streamFn st))).
Proof.
  unfold agentLoopWith, createAgentStream.
  assert (H : proceeds
                (agentLoopBody nestedLoop fuel prompts context config signal
                   (List.length (streams st)) streamFn)).
  { unfold agentLoopBody.
    eapply proceeds_after; [apply always_newArray|intros newMessages _].
    eapply proceeds_after; [apply always_readArray|intros old _].
    eapply proceeds_after; [apply always_newArray|intros copied _].
    eapply proceeds_after; [apply always_pushEvent|intros _ _].
    eapply proceeds_after; [apply always_pushEvent|intros _ _].
    eapply proceeds_after with (Q := anyResult); [returns_tac|intros _ _].
    apply proceeds_runLoop. }
  specialize (H (setStreams (streams st ++ [EventStream.create]) st)).
  destruct (agentLoopBody _ _ _ _ _ _ _ _ _) as [out st']. exact H.
Qed.

Lemma agentLoopContinueWith_goesOn fuel context signal st s out st' :
  agentLoopContinueWith nestedLoop fuel context config signal streamFn st
    = inr ((s, out), st') ->
  goesOn out.
Proof.
  unfold agentLoopContinueWith, createAgentStream.
  destruct (Nat.eqb _ 0); [discriminate|].
  assert (H : proceeds
                (agentLoopContinueBody nestedLoop fuel context config signal
                   (List.length (streams st)) streamFn)).
  { unfold agentLoopContinueBody.
    eapply proceeds_after; [apply always_newArray|intros newMessages _].
    eapply proceeds_after; [apply always_pushEvent|intros _ _].
    eapply proceeds_after; [apply always_pushEvent|intros _ _].
    apply proceeds_runLoop. }
  specialize (H (setStreams (streams st ++ [EventStream.create]) st)).
  destruct (agentLoopContinueBody _ _ _ _ _ _ _ _) as [out0 st0'].
  cbn [fst] in H. intros Heq.
  assert (Hres : inr ((List.length (streams st), out0), st0')
                 = (inr ((s, out), st') : JsValue + (sid * Outcome unit) * State)).
  { destruct (last (arrays st !!! messages context)) as [[| | | |]|];
      first [discriminate|exact Heq]. }
  injection Hres as <- <- <-. exact H.
Qed.

End GoingOn.

(** The stream of a run whose body returned holds a result. *)
Lemma agentLoop_resultReady fuel prompts context config signal streamFn st :
  let r := agentLoop fuel prompts context config signal streamFn st in
  snd (fst r) = Done tt -> resultReady (fst (fst r)) (snd r).
Proof.
  intros r Hdone. subst r. rewrite agentLoop_unfold in *.
  pose proof (nestedAt_preserved anyCall anyCall_other fuel) as Hnested.
  destruct (agentLoopWith_run anyCall anyCall_other (nestedAt fuel) Hnested fuel
              prompts context config signal streamFn st (pollsOK_anyCall config))
    as [_ [_ [es [Hes Hstep]]]].
  pose proof (agentLoopWith_sealed (nestedAt fuel) fuel prompts context config signal
                streamFn st es Hdone Hes) as Hsealed.
  apply runStep_create in Hstep as [[_ Hopen]|[pre [v [_ [_ [_ Hv]]]]]]; [congruence|].
  exists v. now rewrite (list_lookup_total_correct _ _ _ Hes).
Qed.

(** Runs of advisors whose callbacks return go on, at every depth. *)
Lemma nestedAt_goesOn streamFn :
  (forall m c o, returnsAlways (default streamSimple streamFn m c o)) ->
  forall fuel advisor prompts context signal st,
    advisorReturns advisor ->
    let r := nestedAt fuel prompts context (advisorConfigOf advisor) signal
               streamFn st in
    goesOn (snd (fst r)) /\
    (snd (fst r) = Done tt -> resultReady (fst (fst r)) (snd r)).
Proof.
  intros Hstream. induction fuel as [|fuel IH];
    intros advisor prompts context signal st Hadv; cbn [nestedAt].
  - split; [exact I|discriminate].
  - split; [|apply agentLoop_resultReady].
    rewrite agentLoop_unfold.
    apply (agentLoopWith_goesOn (nestedAt fuel) streamFn IH).
    now apply advisorConfig_callbacksReturn.
Qed.

(** With callbacks that return, a run of either entry point neither
    throws nor waits for ever. *)
Lemma agentLoop_goesOn fuel prompts context config signal streamFn st :
  callbacksReturn config streamFn ->
  goesOn (snd (fst (agentLoop fuel prompts context config signal streamFn st))).
Proof.
  intros Hconfig. rewrite agentLoop_unfold.
  apply (agentLoopWith_goesOn (nestedAt fuel) streamFn); [|exact Hconfig].
  apply nestedAt_goesOn. apply Hconfig.
Qed.

Lemma agentLoopContinue_goesOn fuel context config signal streamFn st s out st' :
  callbacksReturn config streamFn ->
  agentLoopContinue fuel context config signal streamFn st = inr ((s, out), st') ->
  goesOn out.
Proof.
  intros Hconfig Hrun. unfold agentLoopContinue in Hrun. fold (nestedAt fuel) in Hrun.
  eapply (agentLoopContinueWith_goesOn (nestedAt fuel) streamFn); [|exact Hconfig|exact Hrun].
  apply nestedAt_goesOn. apply Hconfig.
Qed.

(** *** What running out of fuel means *)

(** One unit of fuel pays for a turn, which calls the stream function,
    or for a restart on follow-up messages, which follows a poll of
    [getFollowUpMessages]. [turnCalls] counts those calls in the record
    of a state, nested runs included. *)
Definition isTurnCall (c : Call) : bool :=
  match c with
  | CallStreamFn _ | CallGetFollowUpMessages => true
  | _ => false
  end.

Definition turnCalls (st : State) : nat :=
  List.length (List.filter isTurnCall (calls st)).

Lemma turnCalls_addCall c st :
  turnCalls (addCall c st) = turnCalls st + (if isTurnCall c then 1 else 0).
Proof.
  unfold turnCalls, addCall. cbn [calls].
  rewrite List.filter_app, length_app. cbn [List.filter].
  now destruct (isTurnCall c).
Qed.

(** [sober m]: [m] does not run out of fuel, and the turn calls made so
    far stay on record. *)
Definition sober {A} (m : M A) : Prop :=
  forall st, turnCalls st <= turnCalls (snd (m st)) /\ fst (m st) <> OutOfFuel.

(** [takesTurn m]: moreover, when [m] returns it has made a turn call. *)
Definition takesTurn {A} (m : M A) : Prop :=
  sober m /\
  forall st a st', m st = (Done a, st') -> S (turnCalls st) <= turnCalls st'.

(** [spends n m]: when [m] runs out of fuel, it has made [n] turn calls. *)
Definition spends (n : nat) {A} (m : M A) : Prop :=
  forall st,
    turnCalls st <= turnCalls (snd (m st)) /\
    (fst (m st) = OutOfFuel -> turnCalls st + n <= turnCalls (snd (m st))).

Lemma sober_spends n {A} (m : M A) : sober m -> spends n m.
Proof. intros Hm st. destruct (Hm st) as [Hle Hne]. split; [exact Hle|contradiction]. Qed.

Lemma spends_le n n' {A} (m : M A) : spends n m -> n' <= n -> spends n' m.
Proof.
  intros Hm Hle st. destruct (Hm st) as [H1 H2]. split; [exact H1|].
  intros Hout. specialize (H2 Hout). lia.
Qed.

Lemma sober_bind {A B} (m : M A) (k : A -> M B) :
  sober m -> (forall a, sober (k a)) -> sober (bind m k).
Proof.
  intros Hm Hk st. unfold bind. destruct (Hm st) as [Hle Hne].
  destruct (m st) as [[a|e| |] st1]; cbn [fst snd] in *;
    try (split; [exact Hle|congruence]).
  destruct (Hk a st1) as [Hle' Hne']. split; [lia|exact Hne'].
Qed.

Lemma sober_tryCatch {A} (m : M A) (h : JsValue -> M A) :
  sober m -> (forall e, sober (h e)) -> sober (tryCatch m h).
Proof.
  intros Hm Hh st. unfold tryCatch. destruct (Hm st) as [Hle Hne].
  destruct (m st) as [[a|e| |] st1]; cbn [fst snd] in *;
    try (split; [exact Hle|congruence]).
  destruct (Hh e st1) as [Hle' Hne']. split; [lia|exact Hne'].
Qed.

Lemma spends_bind n {A B} (m : M A) (k : A -> M B) :
  spends n m -> (forall a, spends n (k a)) -> spends n (bind m k).
Proof.
  intros Hm Hk st. unfold bind. destruct (Hm st) as [Hle Hout].
  destruct (m st) as [[a|e| |] st1]; cbn [fst snd] in *;
    try (split; [exact Hle|intros H; first [discriminate H|exact (Hout eq_refl)]]).
  destruct (Hk a st1) as [Hle' Hout']. split; [lia|].
  intros H. specialize (Hout' H). lia.
Qed.

Lemma spends_tryCatch n {A} (m : M A) (h : JsValue -> M A) :
  spends n m -> (forall e, sober (h e)) -> spends n (tryCatch m h).
Proof.
  intros Hm Hh st. unfold tryCatch. destruct (Hm st) as [Hle Hout].
  destruct (m st) as [[a|e| |] st1]; cbn [fst snd] in *;
    try (split; [exact Hle|intros H; first [discriminate H|exact (Hout eq_refl)]]).
  destruct (Hh e st1) as [Hle' Hne']. split; [lia|contradiction].
Qed.

Lemma spends_turn n {A B} (m : M A) (k : A -> M B) :
  takesTurn m -> (forall a, spends n (k a)) -> spends (S n) (bind m k).
Proof.
  intros [Hm Hturn] Hk st. unfold bind. destruct (Hm st) as [Hle Hne].
  specialize (Hturn st).
  destruct (m st) as [[a|e| |] st1]; cbn [fst snd] in *;
    try (split; [exact Hle|congruence]).
  specialize (Hturn a st1 eq_refl).
  destruct (Hk a st1) as [Hle' Hout']. split; [lia|].
  intros H. specialize (Hout' H). lia.
Qed.

Lemma spends_ret_bind n {A B} (a : A) (k : A -> M B) :
  spends n (k a) -> spends n (bind (ret a) k).
Proof. intros H st. exact (H st). Qed.

Lemma spends_outOfFuel {A} : spends 0 (@outOfFuel A).
Proof. intros st. cbn. split; [lia|intros _; lia]. Qed.

Lemma takesTurn_bind_l {A B} (m : M A) (k : A -> M B) :
  sober m -> (forall a, takesTurn (k a)) -> takesTurn (bind m k).
Proof.
  intros Hm Hk. split; [apply sober_bind; [exact Hm|intros a; apply Hk]|].
  intros st b st' Hrun. apply bind_Done_inv in Hrun as [a [st1 [H1 H2]]].
  destruct (Hm st) as [Hle _]. rewrite H1 in Hle. cbn [snd] in Hle.
  destruct (Hk a) as [_ Hturn]. specialize (Hturn st1 b st' H2). lia.
Qed.

Lemma takesTurn_bind_r {A B} (m : M A) (k : A -> M B) :
  takesTurn m -> (forall a, sober (k a)) -> takesTurn (bind m k).
Proof.
  intros [Hm Hturn] Hk. split; [now apply sober_bind|].
  intros st b st' Hrun. apply bind_Done_inv in Hrun as [a [st1 [H1 H2]]].
  specialize (Hturn st a st1 H1).
  destruct (Hk a st1) as [Hle _]. rewrite H2 in Hle. cbn [snd] in Hle. lia.
Qed.

Lemma sober_ret {A} (a : A) : sober (ret a).
Proof. intros st. split; [apply Nat.le_refl|discriminate]. Qed.

Lemma sober_throw {A} e : sober (@throw A e).
Proof. intros st. split; [apply Nat.le_refl|discriminate]. Qed.

Lemma sober_hang {A} : sober (@hang A).
Proof. intros st. split; [apply Nat.le_refl|discriminate]. Qed.

Lemma sober_pushEvent s e : sober (pushEvent s e).
Proof. intros st. split; [apply Nat.le_refl|discriminate]. Qed.

Lemma sober_endStream s v : sober (endStream s v).
Proof. intros st. split; [apply Nat.le_refl|discriminate]. Qed.

Lemma sober_newArray v : sober (newArray v).
Proof. intros st. split; [apply Nat.le_refl|discriminate]. Qed.

Lemma sober_readArray l : sober (readArray l).
Proof. intros st. split; [apply Nat.le_refl|discriminate]. Qed.

Lemma sober_arrayPush l m : sober (arrayPush l m).
Proof. intros st. split; [apply Nat.le_refl|discriminate]. Qed.

Lemma sober_arraySetLast l m : sober (arraySetLast l m).
Proof. intros st. split; [apply Nat.le_refl|discriminate]. Qed.

Lemma sober_readQueue s : sober (readQueue s).
Proof. intros st. split; [apply Nat.le_refl|discriminate]. Qed.

Lemma sober_streamResult s : sober (streamResult s).
Proof.
  intros st. unfold streamResult.
  destruct (EventStream.finalResult _); (split; [apply Nat.le_refl|discriminate]).
Qed.

Lemma sober_now : sober now.
Proof.
  intros st. unfold now. destruct (Date_now (world st)) as [t w'].
  split; [apply Nat.le_refl|discriminate].
Qed.

Lemma sober_await {A} (r : Completion A) : sober (await r).
Proof. destruct r; intros st; (split; [apply Nat.le_refl|discriminate]). Qed.

Lemma sober_perform {A} c (f : W -> A * W) : sober (perform c f).
Proof.
  intros st. unfold perform. destruct (f (world st)) as [a w']. cbn [fst snd].
  split; [|discriminate].
  rewrite turnCalls_addCall. unfold turnCalls at 2. cbn [calls setWorld]. fold (turnCalls st). lia.
Qed.

Lemma sober_extcall {A} c (f : Oracle A) : sober (extcall c f).
Proof.
  unfold extcall. apply sober_bind; [apply sober_perform|intros r; apply sober_await].
Qed.

Lemma takesTurn_extcall {A} c (f : Oracle A) :
  isTurnCall c = true -> takesTurn (extcall c f).
Proof.
  intros Hc. split; [apply sober_extcall|].
  intros st a st' Hrun. apply extcall_Done in Hrun as [w' [_ ->]].
  rewrite turnCalls_addCall, Hc. unfold turnCalls at 2. cbn [calls setWorld].
  fold (turnCalls st). lia.
Qed.

Lemma sober_forEach {A} (xs : list A) (body : A -> M unit) :
  (forall x, sober (body x)) -> sober (forEach xs body).
Proof.
  intros Hb. induction xs as [|x xs IH]; cbn [forEach].
  - apply sober_ret.
  - apply sober_bind; [apply Hb|intros _; exact IH].
Qed.

Ltac sober_tac :=
  repeat first
    [ apply sober_ret | apply sober_throw | apply sober_hang
    | apply sober_pushEvent | apply sober_endStream | apply sober_newArray
    | apply sober_readArray | apply sober_arrayPush | apply sober_arraySetLast
    | apply sober_readQueue | apply sober_streamResult | apply sober_now
    | apply sober_await | apply sober_perform | apply sober_extcall
    | apply sober_bind; [|intros ?]
    | apply sober_tryCatch; [|intros ?]
    | apply sober_forEach; intros ?
    | match goal with
      | |- sober (match ?x with _ => _ end) => destruct x
      end ].

Lemma sober_consumeEvents context stream response events :
  forall partialMessage addedPartial,
    sober (consumeEvents context stream response events partialMessage addedPartial).
Proof.
  induction events as [|event rest IH]; intros partialMessage addedPartial;
    cbn [consumeEvents]; [apply sober_ret|].
  destruct event as [partial|kind partial|msg|err];
    repeat first [ apply IH | sober_tac ].
Qed.

(** A response that arrived was asked for: one call of the stream
    function. *)
Lemma takesTurn_streamAssistantResponse context config signal stream streamFn :
  takesTurn (streamAssistantResponse context config signal stream streamFn).
Proof.
  unfold streamAssistantResponse.
  apply takesTurn_bind_l; [sober_tac|intros messages0].
  apply takesTurn_bind_l; [sober_tac|intros messages1].
  apply takesTurn_bind_l; [sober_tac|intros llmMessages].
  apply takesTurn_bind_l; [sober_tac|intros key].
  apply takesTurn_bind_r; [now apply takesTurn_extcall|intros response].
  apply sober_consumeEvents.
Qed.

Lemma sober_dispatchToolCall context newMessages toolCall signal stream :
  sober (dispatchToolCall context newMessages toolCall signal stream).
Proof. unfold dispatchToolCall, runTool, invokeTool. sober_tac. Qed.

Lemma sober_skipRemaining context newMessages remaining stream :
  forall results,
    sober (skipRemaining context newMessages remaining stream results).
Proof.
  induction remaining as [|skipped rest IH]; intros results; cbn [skipRemaining];
    [apply sober_ret|].
  unfold skipToolCall. repeat first [ apply IH | sober_tac ].
Qed.

Lemma sober_injectPending context newMessages stream pendingMessages :
  sober (injectPending context newMessages stream pendingMessages).
Proof. unfold injectPending. sober_tac. Qed.

Lemma sober_finish newMessages stream : sober (finish newMessages stream).
Proof. unfold finish. sober_tac. Qed.

Lemma sober_pollMessages c f : sober (pollMessages c f).
Proof. unfold pollMessages. sober_tac. Qed.

(** A child that has run out of fuel stops its parent; any other child
    leaves the parent's fuel alone. *)
Lemma spends_spawn n (run : State -> (sid * Outcome unit) * State) {B}
    (k : sid * Outcome unit -> M B) :
  (forall st,
     turnCalls st <= turnCalls (snd (run st)) /\
     (snd (fst (run st)) = OutOfFuel -> turnCalls st + n <= turnCalls (snd (run st)))) ->
  (forall started, spends 0 (k started)) ->
  (forall started, snd started <> OutOfFuel -> sober (k started)) ->
  spends n (bind (spawn run) k).
Proof.
  intros Hrun Hk Hsober st. rewrite (bind_Done_eq _ _ _ _ _ (spawn_run run st)).
  destruct (Hrun st) as [Hle Hout]. destruct (Hk (fst (run st)) (snd (run st))) as [Hle' _].
  split; [lia|]. intros Hfuel.
  assert (Hcase : snd (fst (run st)) = OutOfFuel \/ snd (fst (run st)) <> OutOfFuel)
    by (destruct (snd (fst (run st))); [right|right|right|left];
        first [reflexivity|discriminate]).
  destruct Hcase as [Hchild|Hchild].
  - specialize (Hout Hchild). lia.
  - destruct (Hsober (fst (run st)) Hchild (snd (run st))) as [_ Hne]. contradiction.
Qed.

Section Fuel.

Variable nestedLoop : AgentLoopFn.

(** The depth of nesting that the fuel of the run pays for. *)
Variable depth : nat.

Hypothesis nested_spends :
  forall prompts context config signal streamFn st,
    let r := nestedLoop prompts context config signal streamFn st in
    turnCalls st <= turnCalls (snd r) /\
    (snd (fst r) = OutOfFuel -> turnCalls st + (depth - 1) <= turnCalls (snd r)).

Lemma spends_runAdvisor advisor params parentStream signal streamFn :
  spends (depth - 1)
    (runAdvisor nestedLoop advisor params parentStream signal streamFn).
Proof.
  unfold runAdvisor. apply spends_tryCatch; [|intros e; sober_tac].
  apply spends_bind; [apply sober_spends, sober_extcall|intros advisorCtx].
  apply spends_bind; [apply sober_spends, sober_newArray|intros emptyLog].
  cbv zeta. apply spends_spawn.
  - intros st. apply nested_spends.
  - intros [child out].
    apply spends_bind; [apply sober_spends, sober_readQueue|intros events].
    apply spends_bind; [apply sober_spends; sober_tac|intros _].
    apply spends_bind;
      [destruct out; cbn [awaitEnd snd];
       first [apply spends_outOfFuel|apply sober_spends; sober_tac]
      |intros _].
    apply sober_spends. unfold createAdvisorMessage. sober_tac.
  - intros [child out] Hout. cbn [snd] in Hout.
    destruct out; [| | |contradiction]; cbn [awaitEnd snd fst];
      unfold createAdvisorMessage; sober_tac.
Qed.

Lemma spends_handleAdvisors advisors context newMessages toolCall toolResult
    stream signal streamFn :
  spends (depth - 1)
    (handleAdvisors nestedLoop advisors context newMessages toolCall toolResult
       stream signal streamFn).
Proof.
  destruct advisors as [l|]; cbn [handleAdvisors];
    [|apply sober_spends, sober_ret].
  induction l as [|advisor rest IH]; cbn [handleAdvisorsLoop];
    [apply sober_spends, sober_ret|].
  apply spends_bind; [apply sober_spends, sober_readArray|intros seen].
  apply spends_bind; [apply sober_spends, sober_extcall|intros triggered].
  apply spends_bind; [|intros _; exact IH].
  destruct triggered; [|apply sober_spends, sober_ret].
  apply spends_bind; [apply sober_spends, sober_pushEvent|intros _].
  apply spends_bind; [apply sober_spends, sober_readArray|intros copy].
  apply spends_bind; [apply spends_runAdvisor|intros advisorMsg].
  apply sober_spends. sober_tac.
Qed.

Lemma spends_executeToolCallsFrom context newMessages toolCalls config signal
    stream streamFn :
  forall results,
    spends (depth - 1)
      (executeToolCallsFrom nestedLoop context newMessages toolCalls config signal
         stream streamFn results).
Proof.
  induction toolCalls as [|toolCall rest IH]; intros results;
    cbn [executeToolCallsFrom]; [apply sober_spends, sober_ret|].
  apply spends_bind; [apply sober_spends, sober_dispatchToolCall|intros toolResult].
  apply spends_bind; [apply spends_handleAdvisors|intros _].
  destruct (getSteeringMessages config) as [poll|]; [|apply IH].
  apply spends_bind; [apply sober_spends, sober_extcall|intros steering].
  destruct (nonEmpty steering); [|apply IH].
  apply sober_spends.
  apply sober_bind; [apply sober_skipRemaining|intros skipped; apply sober_ret].
Qed.

(** A loop that has run out of [fuel] has called the stream function,
    or polled for follow-up messages, [fuel] times since it started. *)
Lemma spends_runLoopFrom fuel context newMessages config signal stream streamFn :
  fuel <= depth ->
  forall firstTurn hasMoreToolCalls pendingMessages steeringAfterTools,
    spends fuel
      (runLoopFrom nestedLoop fuel context newMessages config signal stream
         streamFn firstTurn hasMoreToolCalls pendingMessages steeringAfterTools).
Proof.
  induction fuel as [|fuel IH]; intros Hdepth firstTurn hasMore pending steering;
    cbn [runLoopFrom].
  - destruct (hasMore || nonEmpty pending); [apply spends_outOfFuel|].
    apply spends_bind; [apply sober_spends, sober_pollMessages|intros followUp].
    destruct (nonEmpty followUp);
      [apply spends_outOfFuel|apply sober_spends, sober_finish].
  - assert (Hrest : forall firstTurn hasMore pending steering,
              spends fuel
                (runLoopFrom nestedLoop fuel context newMessages config signal
                   stream streamFn firstTurn hasMore pending steering))
      by (apply IH; lia).
    destruct (hasMore || nonEmpty pending).
    + apply spends_bind; [apply sober_spends; sober_tac|intros _].
      apply spends_bind; [apply sober_spends, sober_injectPending|intros _].
      apply spends_turn; [apply takesTurn_streamAssistantResponse|intros message].
      apply spends_bind; [apply sober_spends, sober_arrayPush|intros _].
      destruct (isErrorStop (am_stopReason message)).
      * apply sober_spends.
        apply sober_bind; [apply sober_pushEvent|intros _; apply sober_finish].
      * cbv zeta. apply spends_bind.
        { destruct (nonEmpty (toolCallsOf (am_content message)));
            [|apply sober_spends, sober_ret].
          apply (spends_le (depth - 1)); [apply spends_executeToolCallsFrom|lia]. }
        intros r.
        apply spends_bind; [apply sober_spends, sober_pushEvent|intros _].
        destruct (snd r) as [[|m ms]|];
          first
            [ apply Hrest
            | apply spends_bind;
              [apply sober_spends, sober_pollMessages|intros polled; apply Hrest] ].
    + destruct (getFollowUpMessages config) as [poll|]; cbn [pollMessages].
      * apply spends_turn; [now apply takesTurn_extcall|intros followUp].
        destruct (nonEmpty followUp); [apply Hrest|].
        apply sober_spends, sober_finish.
      * apply spends_ret_bind. cbn [nonEmpty]. apply sober_spends, sober_finish.
Qed.

Lemma spends_runLoop fuel context newMessages config signal stream streamFn :
  fuel <= depth ->
  spends fuel
    (runLoop nestedLoop fuel context newMessages config signal stream streamFn).
Proof.
  intros Hdepth. unfold runLoop.
  apply spends_bind; [apply sober_spends, sober_pollMessages|intros pending].
  now apply spends_runLoopFrom.
Qed.

Lemma agentLoopWith_spends fuel prompts context config signal streamFn st :
  fuel <= depth ->
  let r := agentLoopWith nestedLoop fuel prompts context config signal streamFn st in
  turnCalls st <= turnCalls (snd r) /\
  (snd (fst r) = OutOfFuel -> turnCalls st + fuel <= turnCalls (snd r)).
Proof.
  intros Hdepth. unfold agentLoopWith, createAgentStream.
  assert (H : spends fuel
                (agentLoopBody nestedLoop fuel prompts context config signal
                   (List.length (streams st)) streamFn)).
  { unfold agentLoopBody.
    apply spends_bind; [apply sober_spends, sober_newArray|intros newMessages].
    apply spends_bind; [apply sober_spends, sober_readArray|intros old].
    apply spends_bind; [apply sober_spends, sober_newArray|intros copied].
    apply spends_bind; [apply sober_spends, sober_pushEvent|intros _].
    apply spends_bind; [apply sober_spends, sober_pushEvent|intros _].
    apply spends_bind; [apply sober_spends; sober_tac|intros _].
    now apply spends_runLoop. }
  specialize (H (setStreams (streams st ++ [EventStream.create]) st)).
  destruct (agentLoopBody _ _ _ _ _ _ _ _ _) as [out st']. exact H.
Qed.

Lemma agentLoopContinueWith_spends fuel context config signal streamFn st s out st' :
  fuel <= depth ->
  agentLoopContinueWith nestedLoop fuel context config signal streamFn st
    = inr ((s, out), st') ->
  out = OutOfFuel -> turnCalls st + fuel <= turnCalls st'.
Proof.
  intros Hdepth. unfold agentLoopContinueWith, createAgentStream.
  destruct (Nat.eqb _ 0); [discriminate|].
  assert (H : spends fuel
                (agentLoopContinueBody nestedLoop fuel context config signal
                   (List.length (streams st)) streamFn)).
  { unfold agentLoopContinueBody.
    apply spends_bind; [apply sober_spends, sober_newArray|intros newMessages].
    apply spends_bind; [apply sober_spends, sober_pushEvent|intros _].
    apply spends_bind; [apply sober_spends, sober_pushEvent|intros _].
    now apply spends_runLoop. }
  specialize (H (setStreams (streams st ++ [EventStream.create]) st)).
  destruct (agentLoopContinueBody _ _ _ _ _ _ _ _) as [out0 st0'].
  cbn [fst snd] in H. intros Heq.
  assert (Hres : inr ((List.length (streams st), out0), st0')
                 = (inr ((s, out), st') : JsValue + (sid * Outcome unit) * State)).
  { destruct (last (arrays st !!! messages context)) as [[| | | |]|];
      first [discriminate|exact Heq]. }
  injection Hres as <- <- <-. apply H.
Qed.

End Fuel.

(** A run that has run out of its fuel has made that many turn calls. *)
Lemma agentLoop_spends fuel :
  forall prompts context config signal streamFn st,
    let r := agentLoop fuel prompts context config signal streamFn st in
    turnCalls st <= turnCalls (snd r) /\
    (snd (fst r) = OutOfFuel -> turnCalls st + fuel <= turnCalls (snd r)).
Proof.
  induction fuel as [|fuel IH]; intros prompts context config signal streamFn st.
  - rewrite agentLoop_0. apply (agentLoopWith_spends noFuel 0); [|lia].
    intros ? ? ? ? ? st0. cbn. split; [lia|intros _; lia].
  - rewrite agentLoop_S. apply (agentLoopWith_spends (agentLoop fuel) (S fuel)); [|lia].
    intros p c cfg sg sf st0. replace (S fuel - 1) with fuel by lia. apply IH.
Qed.

Lemma nestedAt_spends fuel :
  forall prompts context config signal streamFn st,
    let r := nestedAt fuel prompts context config signal streamFn st in
    turnCalls st <= turnCalls (snd r) /\
    (snd (fst r) = OutOfFuel -> turnCalls st + (fuel - 1) <= turnCalls (snd r)).
Proof.
  destruct fuel as [|fuel]; intros prompts context config signal streamFn st;
    cbn [nestedAt].
  - cbn. split; [lia|intros _; lia].
  - replace (S fuel - 1) with fuel by lia. apply agentLoop_spends.
Qed.

Lemma agentLoopContinue_spends fuel context config signal streamFn st s st' :
  agentLoopContinue fuel context config signal streamFn st
    = inr ((s, OutOfFuel), st') ->
  turnCalls st + fuel <= turnCalls st'.
Proof.
  intros Hrun. unfold agentLoopContinue in Hrun. fold (nestedAt fuel) in Hrun.
  eapply (agentLoopContinueWith_spends (nestedAt fuel) fuel (nestedAt_spends fuel));
    [|exact Hrun|reflexivity].
  lia.
Qed.

(** *** Runs that take a single turn *)

(** A stream function whose responses carry no tool call, and queues
    that hold nothing. *)
Definition answersWithoutTools (streamFn : option StreamFn) : Prop :=
  forall m c o,
    returnsWith
      (fun response => toolCallsOf (am_content (resp_result response)) = [])
      (default streamSimple streamFn m c o).

Definition queuesEmpty (config : AgentLoopConfig) : Prop :=
  (forall poll, getSteeringMessages config = Some poll ->
     returnsWith (fun ms => ms = []) poll) /\
  (forall poll, getFollowUpMessages config = Some poll ->
     returnsWith (fun ms => ms = []) poll).

(** Such a run returns after its first turn: one unit of fuel is
    enough. *)
Lemma always_runLoop_oneTurn nestedLoop fuel context newMessages config signal
    stream streamFn :
  requestCallbacksReturn config -> answersWithoutTools streamFn ->
  queuesEmpty config ->
  always anyResult
    (runLoop nestedLoop (S fuel) context newMessages config signal stream streamFn).
Proof.
  intros Hrequest Hanswer [Hsteering HfollowUp]. unfold runLoop.
  eapply always_bind;
    [apply (always_pollMessages (fun ms => ms = [])); [exact Hsteering|reflexivity]
    |intros pending ->].
  cbn [runLoopFrom orb].
  eapply always_bind; [now apply (always_ret anyResult)|intros _ _].
  eapply always_bind; [apply always_injectPending|intros _ _].
  eapply always_bind;
    [apply (always_streamAssistantResponse _ _ _ _ _ _ Hrequest Hanswer)
    |intros message [response [Hcalls ->]]].
  eapply always_bind; [apply always_arrayPush|intros _ _].
  destruct (isErrorStop (am_stopReason (resp_result response))).
  - eapply always_bind; [apply always_pushEvent|intros _ _]. apply always_finish.
  - cbv zeta. rewrite Hcalls. cbn [nonEmpty].
    eapply always_bind with (Q := fun r => snd r = None);
      [now apply always_ret|intros r Hr].
    eapply always_bind; [apply always_pushEvent|intros _ _]. rewrite Hr.
    eapply always_bind;
      [apply (always_pollMessages (fun ms => ms = [])); [exact Hsteering|reflexivity]
      |intros polled ->].
    assert (Hend : always anyResult
                     (followUpMessages <- pollMessages CallGetFollowUpMessages
                                            (getFollowUpMessages config) ;;
                      if nonEmpty followUpMessages then
                        match fuel with
                        | O => outOfFuel
                        | S fuel' =>
                            runLoopFrom nestedLoop fuel' context newMessages config
                              signal stream streamFn false true followUpMessages None
                        end
                      else finish newMessages stream)).
    { eapply always_bind;
        [apply (always_pollMessages (fun ms => ms = []));
           [exact HfollowUp|reflexivity]
        |intros followUp ->].
      cbn [nonEmpty]. apply always_finish. }
    destruct fuel; exact Hend.
Qed.

Lemma agentLoopWith_oneTurn nestedLoop fuel prompts context config signal streamFn st :
  requestCallbacksReturn config -> answersWithoutTools streamFn ->
  queuesEmpty config ->
  snd (fst (agentLoopWith nestedLoop (S fuel) prompts context config signal
              streamFn st)) = Done tt.
Proof.
  intros Hrequest Hanswer Hqueues. unfold agentLoopWith, createAgentStream.
  assert (H : always anyResult
                (agentLoopBody nestedLoop (S fuel) prompts context config signal
                   (List.length (streams st)) streamFn)).
  { unfold agentLoopBody.
    eapply always_bind; [apply always_newArray|intros newMessages _].
    eapply always_bind; [apply always_readArray|intros old _].
    eapply always_bind; [apply always_newArray|intros copied _].
    eapply always_bind; [apply always_pushEvent|intros _ _].
    eapply always_bind; [apply always_pushEvent|intros _ _].
    eapply always_bind with (Q := anyResult); [returns_tac|intros _ _].
    now apply always_runLoop_oneTurn. }
  destruct (H (setStreams (streams st ++ [EventStream.create]) st))
    as [[] [st' [-> _]]].
  reflexivity.
Qed.

Lemma agentLoopContinueWith_oneTurn nestedLoop fuel context config signal streamFn
    st s out st' :
  requestCallbacksReturn config -> answersWithoutTools streamFn ->
  queuesEmpty config ->
  agentLoopContinueWith nestedLoop (S fuel) context config signal streamFn st
    = inr ((s, out), st') ->
  out = Done tt.
Proof.
  intros Hrequest Hanswer Hqueues. unfold agentLoopContinueWith, createAgentStream.
  destruct (Nat.eqb _ 0); [discriminate|].
  assert (H : always anyResult
                (agentLoopContinueBody nestedLoop (S fuel) context config signal
                   (List.length (streams st)) streamFn)).
  { unfold agentLoopContinueBody.
    eapply always_bind; [apply always_newArray|intros newMessages _].
    eapply always_bind; [apply always_pushEvent|intros _ _].
    eapply always_bind; [apply always_pushEvent|intros _ _].
    now apply always_runLoop_oneTurn. }
  destruct (H (setStreams (streams st ++ [EventStream.create]) st))
    as [[] [st0' [-> _]]].
  intros Heq.
  assert (Hres : inr ((List.length (streams st), Done tt), st0')
                 = (inr ((s, out), st') : JsValue + (sid * Outcome unit) * State)).
  { destruct (last (arrays st !!! messages context)) as [[| | | |]|];
      first [discriminate|exact Heq]. }
  now injection Hres as _ <- _.
Qed.

(** ** The stream of a run ends with its only [agent_end] *)


End AgentLoop.

Arguments Done {A} a.
Arguments Threw {A} e.
Arguments Hung {A}.
Arguments OutOfFuel {A}.

(** * Scripted runs *)

(** The mocks of the package's tests: a model whose replies are
    scripted, an echo tool, a steering queue and a clock. *)
Inductive Reply := ReplyTwoCalls | ReplyOneCall | ReplyText | ReplyAborted.

Definition createAssistantMessage (content : list AssistantContent)
    (stopReason : StopReason) : AssistantMessage :=
  mkAssistantMessage content stopReason "mock" 0.

Definition echoCall (id value : string) : AssistantContent :=
  ToolCallBlock (mkToolCall id "echo" value).

Definition replyMessage (r : Reply) : AssistantMessage :=
  match r with
  | ReplyTwoCalls =>
      createAssistantMessage [echoCall "tc-a" "x"; echoCall "tc-b" "y"] SR_toolUse
  | ReplyOneCall => createAssistantMessage [echoCall "tc-1" "x"] SR_toolUse
  | ReplyText => createAssistantMessage [TextBlock "done"] SR_stop
  | ReplyAborted => createAssistantMessage [echoCall "tc-1" "x"] SR_aborted
  end.

Record MockWorld := mkMockWorld {
  clock : Z;
  replies : list Reply;
  advisorReplies : list Reply;
  queued : list (list string) }.

Definition mockNow (w : MockWorld) : Z * MockWorld :=
  (clock w, mkMockWorld (clock w + 1) (replies w) (advisorReplies w) (queued w)).

Definition createUserMessage (text : string) : AgentMessage :=
  MUser (mkUserMessage (UserText text) 0).

Definition respond (r : Reply) : StreamResponse :=
  mkStreamResponse [AME_done (replyMessage r)] (replyMessage r).

Definition createMultiModelStreamFn : @StreamFn MockWorld := fun m _ _ w =>
  if String.eqb (model_id m) "mock-advisor" then
    match advisorReplies w with
    | [] => (ThrowsSync (JsError "No mock handler"), w)
    | r :: rest =>
        (Returns (respond r), mkMockWorld (clock w) (replies w) rest (queued w))
    end
  else
    match replies w with
    | [] => (ThrowsSync (JsError "No mock handler"), w)
    | r :: rest =>
        (Returns (respond r),
         mkMockWorld (clock w) rest (advisorReplies w) (queued w))
    end.

Definition pollQueued : Oracle (W:=MockWorld) (list AgentMessage) := fun w =>
  match queued w with
  | [] => (Returns [], w)
  | texts :: rest =>
      (Returns (map createUserMessage texts),
       mkMockWorld (clock w) (replies w) (advisorReplies w) rest)
  end.

Definition identityConverter (ms : list AgentMessage)
    : Oracle (W:=MockWorld) (list Message) :=
  fun w => (Returns (defaultAdvisorConvertToLlm ms), w).

Definition createEchoTool : @AgentTool MockWorld :=
  mkAgentTool "echo" "Echo" "Echo tool" "{}"
    (fun _ args _ w =>
       (([], Returns (mkAgentToolResult [TextContent ("echoed: " ++ args)] args)),
        w)).

Definition acceptArguments (t : @AgentTool MockWorld) (tc : ToolCall)
    : JsValue + Json :=
  inr (tc_arguments tc).

Definition createModel : Model := mkModel "mock-main" "openai".
Definition createAdvisorModel : Model := mkModel "mock-advisor" "openai".

Definition steeredConfig : @AgentLoopConfig MockWorld :=
  mkAgentLoopConfig createModel identityConverter None None None
    (Some pollQueued) None None None.

Definition echoContext : @AgentContext MockWorld :=
  mkAgentContext "" 0 (Some [createEchoTool]).

Definition startState (log : list AgentMessage) (rs : list Reply)
    (advice : list Reply) (queue : list (list string)) : @State MockWorld :=
  mkState (mkMockWorld 100 rs advice queue) [] [log] [].

Definition mockLoop := agentLoop mockNow acceptArguments createMultiModelStreamFn.
Definition mockContinue :=
  agentLoopContinue mockNow acceptArguments createMultiModelStreamFn.

(** An advisor on the echo tool whose [trigger] throws, and one whose
    [createContext] throws. *)
Definition failingTrigger : @AdvisorConfig MockWorld :=
  mkAdvisorConfig "failing-advisor" createAdvisorModel
    (fun _ w => (ThrowsSync (JsError "advisor trigger failed"), w))
    None None
    (fun _ w => (Returns (mkAdvisorContext "Review." [createUserMessage "check"]), w))
    None None None None None.

Definition failingCreateContext : @AdvisorConfig MockWorld :=
  mkAdvisorConfig "failing-advisor" createAdvisorModel
    (fun p w => (Returns (String.eqb (tp_toolName p) "echo"), w))
    None None
    (fun _ w => (ThrowsSync (JsError "advisor createContext failed"), w))
    None None None None None.

Definition advisedConfig (advisor : @AdvisorConfig MockWorld)
    : @AgentLoopConfig MockWorld :=
  mkAgentLoopConfig createModel identityConverter None None None
    None None (Some [advisor]) None.

(** ** The mocks meet the assumptions on adapters and callers *)

Lemma mock_responsesWellFormed : responsesWellFormed createMultiModelStreamFn.
Proof.
  intros m c o w resp w'. unfold createMultiModelStreamFn.
  destruct (String.eqb _ _);
    [destruct (advisorReplies w) as [|r rest]|destruct (replies w) as [|r rest]];
    try discriminate; intros [= <- _]; reflexivity.
Qed.

Lemma mock_responsesDistinctIds : responsesDistinctIds createMultiModelStreamFn.
Proof.
  intros m c o w resp w'. unfold createMultiModelStreamFn.
  destruct (String.eqb _ _);
    [destruct (advisorReplies w) as [|r rest]|destruct (replies w) as [|r rest]];
    try discriminate; intros [= <- _]; destruct r; cbn;
    repeat (constructor; [cbn; intuition discriminate|]); constructor.
Qed.

Lemma steeredConfig_pollsPlain : pollsPlain steeredConfig.
Proof.
  intros poll [[= <-]|[=]] w r w'. unfold pollQueued.
  destruct (queued w) as [|texts rest]; intros [= <- _]; [constructor|].
  unfold allPlain. induction texts; cbn; constructor; auto.
Qed.

(** ** The claims on scripted runs *)

(** Two tool calls in one assistant message, a user message queued
    while the first one runs. *)
Definition steeredRun :=
  mockLoop 5 [createUserMessage "go"] echoContext steeredConfig None None
    (startState [] [ReplyTwoCalls; ReplyText] [] [[]; ["stop and do X"]]).

(** The C1 theorem on [steeredRun]: the log of the run pairs [tc-a]
    and the skipped [tc-b] with one result each. *)
Lemma tool_calls_answered_once_witness :
  exists seg,
    arrays (snd steeredRun) !! 2 = Some (([] ++ [createUserMessage "go"]) ++ seg) /\
    everyCallAnswered seg.
Proof.
  destruct (tool_calls_answered_once mockNow acceptArguments createMultiModelStreamFn
              5 steeredConfig None None mock_responsesWellFormed
              mock_responsesDistinctIds steeredConfig_pollsPlain) as [Hstart _].
  apply (Hstart [createUserMessage "go"] echoContext
           (startState [] [ReplyTwoCalls; ReplyText] [] [[]; ["stop and do X"]])
           (fst (fst steeredRun)) (snd steeredRun) []).
  - reflexivity.
  - vm_compute. reflexivity.
Defined.

(** The pairing as the specification words it, for every assistant
    message. *)
Definition everyCallAnsweredAsStated (seg : list AgentMessage) : Prop :=
  forall pre a post,
    seg = pre ++ MAssistant a :: post ->
    forall id, In id (toolCallIds a) ->
      count_occ string_dec (resultIdsBeforeNextAssistant post) id = 1.

(** The adapter reports [aborted] on a message that holds a tool call. *)
Definition abortedRun :=
  mockLoop 5 [createUserMessage "go"] echoContext steeredConfig None None
    (startState [] [ReplyAborted] [] []).

(** C1, counterexample to the claim as stated: the run returns, its
    log ends with an assistant message that holds the call [tc-1], and
    no tool result follows. *)
Lemma aborted_call_is_left_unanswered :
  snd (fst abortedRun) = Done tt /\
  arrays (snd abortedRun) !! 2
    = Some ([createUserMessage "go"] ++ [MAssistant (replyMessage ReplyAborted)]) /\
  toolCallIds (replyMessage ReplyAborted) = ["tc-1"] /\
  ~ everyCallAnsweredAsStated [MAssistant (replyMessage ReplyAborted)].
Proof.
  split; [reflexivity|]. split; [reflexivity|]. split; [reflexivity|].
  intros H.
  specialize (H [] (replyMessage ReplyAborted) [] eq_refl "tc-1" (or_introl eq_refl)).
  discriminate H.
Qed.

(** The dispatcher on [tc-a] and [tc-b], with a message queued. *)
Definition midTurn : @State MockWorld :=
  mkState (mkMockWorld 100 [] [] [["stop and do X"]]) []
    [[createUserMessage "go"; MAssistant (replyMessage ReplyTwoCalls)];
     [createUserMessage "go"; MAssistant (replyMessage ReplyTwoCalls)]]
    [EventStream.create].

Definition echoedA : ToolResultMessage :=
  mkToolResultMessage "tc-a" "echo" [TextContent "echoed: x"] "x" false 100.

(** The C2 theorem on [midTurn]: [tc-b] is skipped, the one call made
    after the tool step is the steering poll. *)
Lemma steering_skips_remaining_calls_witness :
  messages echoContext <> 1 /\
  exists skipped st2,
    executeToolCallsFrom mockNow acceptArguments noFuel echoContext 1
      [mkToolCall "tc-a" "echo" "x"; mkToolCall "tc-b" "echo" "y"]
      steeredConfig None 0 None [] midTurn
    = (Done ([] ++ echoedA :: skipped,
             Some [createUserMessage "stop and do X"]), st2) /\
    Forall2 skippedResultFor [mkToolCall "tc-b" "echo" "y"] skipped /\
    calls st2 = [CallToolExecute "echo" "tc-a"; CallGetSteeringMessages].
Proof.
  assert (Hlog : messages echoContext <> 1) by discriminate.
  split; [exact Hlog|].
  destruct (steering_skips_remaining_calls mockNow acceptArguments
              createMultiModelStreamFn noFuel echoContext 1 Hlog steeredConfig None 0
              None) as [Hskip _].
  set (st1 := snd (toolStep mockNow acceptArguments noFuel echoContext 1
                     (mkToolCall "tc-a" "echo" "x") steeredConfig None 0 None
                     midTurn)).
  assert (Hstep : toolStep mockNow acceptArguments noFuel echoContext 1
                    (mkToolCall "tc-a" "echo" "x") steeredConfig None 0 None midTurn
                  = (Done echoedA, st1)) by (vm_compute; reflexivity).
  assert (Hpoll : pollQueued (world st1)
                  = (Returns [createUserMessage "stop and do X"],
                     mkMockWorld 101 [] [] [])) by (vm_compute; reflexivity).
  destruct (Hskip pollQueued (mkToolCall "tc-a" "echo" "x")
              [mkToolCall "tc-b" "echo" "y"] [] midTurn echoedA st1
              [createUserMessage "stop and do X"] (mkMockWorld 101 [] [] [])
              eq_refl Hstep Hpoll eq_refl)
    as [skipped [st2 [Hrun [Hskipped [Hcalls _]]]]].
  exists skipped, st2. split; [exact Hrun|]. split; [exact Hskipped|].
  rewrite Hcalls. vm_compute. reflexivity.
Defined.

(** A run continued from a log that ends with a user message, with a
    message queued before it starts. *)
Definition continuedRun :=
  mockContinue 5 echoContext steeredConfig None None
    (startState [createUserMessage "go"] [ReplyText] [] [["steer"]]).

Definition continuedEnd : @State MockWorld :=
  match continuedRun with
  | inr (_, st') => st'
  | inl _ => startState [] [] [] []
  end.

(** The C4 theorem on [continuedRun]: the queued message is polled
    first and enters the log before the assistant's answer. *)
Lemma steering_polled_first_by_both_entries_witness :
  getSteeringMessages steeredConfig = Some pollQueued /\
  (exists cs, calls continuedEnd = [] ++ CallGetSteeringMessages :: cs) /\
  exists ext es rest,
    arrays continuedEnd !! messages echoContext
      = Some ([createUserMessage "go"] ++ [createUserMessage "steer"] ++ ext) /\
    streams continuedEnd !! 0 = Some es /\
    EventStream.queue es
      = [agent_start; turn_start] ++ announce [createUserMessage "steer"] ++ rest.
Proof.
  split; [reflexivity|].
  destruct (steering_polled_first_by_both_entries mockNow acceptArguments
              createMultiModelStreamFn 5 steeredConfig None None pollQueued eq_refl)
    as [_ Hcontinue].
  destruct (Hcontinue echoContext
              (startState [createUserMessage "go"] [ReplyText] [] [["steer"]])
              0 (Done tt) continuedEnd [createUserMessage "go"] eq_refl)
    as [Hcalls Hpending]; [vm_compute; reflexivity|].
  split; [exact Hcalls|].
  apply (Hpending [createUserMessage "steer"] (mkMockWorld 100 [ReplyText] [] []));
    [vm_compute; reflexivity|lia].
Defined.

(** Whether a steering poll precedes the first call of the model. *)
Fixpoint pollsBeforeFirstLlmCall (cs : list Call) : bool :=
  match cs with
  | [] => false
  | CallGetSteeringMessages :: _ => true
  | CallStreamFn _ :: _ => false
  | _ :: rest => pollsBeforeFirstLlmCall rest
  end.

(** C4, counterexample to the claim as stated: the continue entry
    polls [getSteeringMessages] before its first call of the model, and
    the message it gets is in the log ahead of the model's answer. *)
Lemma continue_entry_polls_before_first_turn :
  continuedRun = inr ((0, Done tt), continuedEnd) /\
  calls continuedEnd
    = [CallGetSteeringMessages; CallConvertToLlm; CallStreamFn "mock-main";
       CallGetSteeringMessages] /\
  pollsBeforeFirstLlmCall (calls continuedEnd) = true /\
  arrays continuedEnd !! messages echoContext
    = Some [createUserMessage "go"; createUserMessage "steer";
            MAssistant (replyMessage ReplyText)].
Proof.
  split; [vm_compute; reflexivity|]. split; [vm_compute; reflexivity|].
  split; vm_compute; reflexivity.
Qed.

(** The first turn of [abortedRun], from the state in which [runLoop]
    enters it. *)
Definition firstTurnState (rs : list Reply) : @State MockWorld :=
  mkState (mkMockWorld 100 rs [] []) []
    [[createUserMessage "go"]; [createUserMessage "go"]] [EventStream.create].

(** The C5 theorem on the first turn of a run whose model reports
    [aborted]: the turn and the run end, the echo tool is not called. *)
Lemma error_stop_ends_run_witness :
  isErrorStop (am_stopReason (replyMessage ReplyAborted)) = true /\
  exists st2,
    runLoopFrom mockNow acceptArguments createMultiModelStreamFn noFuel 1
      echoContext 1 steeredConfig None 0 None true true [] None
      (firstTurnState [ReplyAborted])
    = (Done tt, st2) /\
    calls st2 = [CallConvertToLlm; CallStreamFn "mock-main"] /\
    streams st2 !! 0
      = Some (EventStream.mk
                ([message_start (MAssistant (replyMessage ReplyAborted));
                  message_end (MAssistant (replyMessage ReplyAborted))]
                 ++ [turn_end (MAssistant (replyMessage ReplyAborted)) [];
                     agent_end [createUserMessage "go";
                                MAssistant (replyMessage ReplyAborted)]])
                true
                (Some [createUserMessage "go";
                       MAssistant (replyMessage ReplyAborted)])).
Proof.
  split; [reflexivity|].
  set (st1 := snd (beginTurn createMultiModelStreamFn echoContext 1 steeredConfig
                     None 0 None true [] (firstTurnState [ReplyAborted]))).
  assert (Hturn : beginTurn createMultiModelStreamFn echoContext 1 steeredConfig
                    None 0 None true [] (firstTurnState [ReplyAborted])
                  = (Done (replyMessage ReplyAborted), st1))
    by (vm_compute; reflexivity).
  destruct (error_stop_ends_run mockNow acceptArguments createMultiModelStreamFn
              noFuel echoContext 1 steeredConfig None 0 None 0 true true [] None
              (firstTurnState [ReplyAborted]) (replyMessage ReplyAborted) st1
              eq_refl Hturn eq_refl)
    as [st2 [Hrun [Hcalls [_ [_ [_ Hstream]]]]]].
  exists st2. split; [exact Hrun|].
  split; [rewrite Hcalls; vm_compute; reflexivity|].
  assert (Hes : streams st1 !! 0
                = Some (EventStream.mk
                          [message_start (MAssistant (replyMessage ReplyAborted));
                           message_end (MAssistant (replyMessage ReplyAborted))]
                          false None)) by (vm_compute; reflexivity).
  rewrite (Hstream _ Hes eq_refl). vm_compute. reflexivity.
Defined.

(** The C6 theorem on three logs: an empty one, one that ends with an
    assistant message, and one that ends with a user message. *)
Lemma continue_entry_preconditions_witness :
  mockContinue 5 echoContext steeredConfig None None (startState [] [ReplyText] [] [])
    = inl (JsError "Cannot continue: no messages in context") /\
  mockContinue 5 echoContext steeredConfig None None
    (startState [createUserMessage "go"; MAssistant (replyMessage ReplyText)]
       [ReplyText] [] [])
    = inl (JsError "Cannot continue from message role: assistant") /\
  exists out st' es rest,
    mockContinue 5 echoContext steeredConfig None None
      (startState [createUserMessage "go"] [ReplyText] [] [])
    = inr ((0, out), st') /\
    streams st' !! 0 = Some es /\
    EventStream.queue es = agent_start :: turn_start :: rest.
Proof.
  split; [|split].
  - apply (continue_entry_preconditions mockNow acceptArguments
             createMultiModelStreamFn 5 echoContext steeredConfig None None
             (startState [] [ReplyText] [] [])).
    reflexivity.
  - apply (continue_entry_preconditions mockNow acceptArguments
             createMultiModelStreamFn 5 echoContext steeredConfig None None
             (startState [createUserMessage "go"; MAssistant (replyMessage ReplyText)]
                [ReplyText] [] [])) with (a := replyMessage ReplyText).
    reflexivity.
  - apply (continue_entry_preconditions mockNow acceptArguments
             createMultiModelStreamFn 5 echoContext steeredConfig None None
             (startState [createUserMessage "go"] [ReplyText] [] [])).
    + discriminate.
    + intros a. discriminate.
Defined.

(** An echo tool that throws, and one that rejects. *)
Definition createThrowingTool : @AgentTool MockWorld :=
  mkAgentTool "echo" "Echo" "Echo tool" "{}"
    (fun _ _ _ w => (([], ThrowsSync (JsError "boom")), w)).

Definition createRejectingTool : @AgentTool MockWorld :=
  mkAgentTool "echo" "Echo" "Echo tool" "{}"
    (fun _ _ _ w => (([], Rejects (JsError "boom")), w)).


(** The C9 theorem on [continuedRun]: the caller's array has grown by
    what [agent_end] reports. *)
Lemma caller_array_mutated_only_by_continue_witness :
  exists seg es,
    arrays continuedEnd !! messages echoContext
      = Some ([createUserMessage "go"] ++ seg) /\
    streams continuedEnd !! 0 = Some es /\ reported es seg.
Proof.
  destruct (caller_array_mutated_only_by_continue mockNow acceptArguments
              createMultiModelStreamFn 5) as [Hcontinue _].
  destruct (Hcontinue echoContext steeredConfig None None
              (startState [createUserMessage "go"] [ReplyText] [] [["steer"]])
              0 (Done tt) continuedEnd [createUserMessage "go"] eq_refl)
    as [_ Hdone]; [vm_compute; reflexivity|].
  exact (Hdone eq_refl mock_responsesWellFormed).
Defined.

(** A run started on a caller's log that holds one earlier message. *)
Definition startedRun :=
  mockLoop 5 [createUserMessage "go"] echoContext steeredConfig None None
    (startState [createUserMessage "earlier"] [ReplyText] [] []).

(** C9, counterexample to the claim as stated: after a run started
    with [agentLoop] the caller's array holds what it held before,
    while the run reports the prompt and the assistant's answer. *)
Lemma start_entry_leaves_caller_array_alone :
  snd (fst startedRun) = Done tt /\
  arrays (snd startedRun) !! messages echoContext
    = Some [createUserMessage "earlier"] /\
  exists es,
    streams (snd startedRun) !! fst (fst startedRun) = Some es /\
    reported es [createUserMessage "go"; MAssistant (replyMessage ReplyText)].
Proof.
  split; [vm_compute; reflexivity|]. split; [vm_compute; reflexivity|].
  eexists. split; [vm_compute; reflexivity|].
  split; [vm_compute; reflexivity|]. split; vm_compute; reflexivity.
Qed.

(** An advisor that reviews every call of the echo tool. *)
Definition reviewer : @AdvisorConfig MockWorld :=
  mkAdvisorConfig "reviewer" createAdvisorModel
    (fun p w => (Returns (String.eqb (tp_toolName p) "echo"), w))
    None None
    (fun _ w => (Returns (mkAdvisorContext "Review." [createUserMessage "check"]), w))
    None None None None None.

Definition advisorTurnState : @State MockWorld :=
  mkState (mkMockWorld 100 [] [ReplyText] []) []
    [[createUserMessage "check"]; [createUserMessage "check"]] [EventStream.create].

Definition advisorContext : @AgentContext MockWorld := mkAgentContext "Review." 0 None.

(** The C10 theorem on the first turn of a run of [reviewer]: the
    assistant answers without tool calls and the run ends there. *)
Lemma advisor_run_polls_nothing_witness :
  toolCallsOf (am_content (replyMessage ReplyText)) = [] /\
  exists st2,
    runLoopFrom mockNow acceptArguments createMultiModelStreamFn noFuel 1
      advisorContext 1 (advisorConfigOf reviewer) None 0 None true true [] None
      advisorTurnState
    = (Done tt, st2) /\
    calls st2 = [CallConvertToLlm; CallStreamFn "mock-advisor"].
Proof.
  split; [reflexivity|].
  destruct (advisor_run_polls_nothing mockNow acceptArguments createMultiModelStreamFn
              reviewer) as [_ [_ [_ Hturn]]].
  set (st1 := snd (beginTurn createMultiModelStreamFn advisorContext 1
                     (advisorConfigOf reviewer) None 0 None true []
                     advisorTurnState)).
  assert (Hbegin : beginTurn createMultiModelStreamFn advisorContext 1
                     (advisorConfigOf reviewer) None 0 None true [] advisorTurnState
                   = (Done (replyMessage ReplyText), st1))
    by (vm_compute; reflexivity).
  destruct (Hturn noFuel 0 advisorContext 1 None 0 None true true []
              advisorTurnState (replyMessage ReplyText) st1 eq_refl Hbegin eq_refl)
    as [st2 [Hrun [Hcalls _]]].
  exists st2. split; [exact Hrun|]. rewrite Hcalls. vm_compute. reflexivity.
Defined.

(** A parent run with one advisor on the echo tool. *)
Definition advisedRun (advisor : @AdvisorConfig MockWorld) (advice : list Reply) :=
  mockLoop 5 [createUserMessage "go"] echoContext (advisedConfig advisor) None None
    (startState [] [ReplyOneCall; ReplyText] advice []).

Definition streamOf (r : (sid * Outcome unit) * @State MockWorld) : EventStream.t :=
  default EventStream.create (streams (snd r) !! fst (fst r)).

Definition countEvents (p : AgentEvent -> bool) (es : EventStream.t) : nat :=
  List.length (filter (fun e => p e = true) (EventStream.queue es)).

(** C3. With an advisor whose [trigger] throws, the body of the parent
    run ends with that exception: its stream holds neither an
    [advisor_error] nor an [agent_end] and is never sealed. With an
    advisor whose [createContext] throws, the same run reports one
    [advisor_error] and ends with its [agent_end]. With an advisor
    whose nested run throws, the parent waits for the end of a stream
    that never ends. *)
Theorem advisor_trigger_error_is_fatal :
  (snd (fst (advisedRun failingTrigger [])) = Threw (JsError "advisor trigger failed") /\
   countEvents isAdvisorError (streamOf (advisedRun failingTrigger [])) = 0 /\
   countEvents isAgentEnd (streamOf (advisedRun failingTrigger [])) = 0 /\
   EventStream.sealed (streamOf (advisedRun failingTrigger [])) = false) /\
  (snd (fst (advisedRun failingCreateContext [])) = Done tt /\
   In (advisor_error "failing-advisor" "advisor createContext failed")
     (EventStream.queue (streamOf (advisedRun failingCreateContext []))) /\
   countEvents isAgentEnd (streamOf (advisedRun failingCreateContext [])) = 1 /\
   EventStream.sealed (streamOf (advisedRun failingCreateContext [])) = true) /\
  (snd (fst (advisedRun reviewer [])) = Hung /\
   countEvents isAdvisorError (streamOf (advisedRun reviewer [])) = 0 /\
   countEvents isAgentEnd (streamOf (advisedRun reviewer [])) = 0) /\
  (snd (fst (advisedRun reviewer [ReplyText])) = Done tt /\
   countEvents isAgentEnd (streamOf (advisedRun reviewer [ReplyText])) = 1).
Proof.
  split; [|split; [|split]].
  - split; [vm_compute; reflexivity|]. split; [vm_compute; reflexivity|].
    split; vm_compute; reflexivity.
  - split; [vm_compute; reflexivity|]. split; [vm_compute; tauto|].
    split; vm_compute; reflexivity.
  - split; [vm_compute; reflexivity|]. split; vm_compute; reflexivity.
  - split; vm_compute; reflexivity.
Qed.

(** Handlers as the tests write them: each model answers its script
    and then plain text. Unlike [createMultiModelStreamFn] with a model
    that has no handler, this stream function always returns. *)
Definition createScriptedStreamFn : @StreamFn MockWorld := fun m _ _ w =>
  if String.eqb (model_id m) "mock-advisor" then
    match advisorReplies w with
    | [] => (Returns (respond ReplyText), w)
    | r :: rest =>
        (Returns (respond r), mkMockWorld (clock w) (replies w) rest (queued w))
    end
  else
    match replies w with
    | [] => (Returns (respond ReplyText), w)
    | r :: rest =>
        (Returns (respond r),
         mkMockWorld (clock w) rest (advisorReplies w) (queued w))
    end.

(** A handler that only ever answers plain text. *)
Definition createTextStreamFn : @StreamFn MockWorld := fun _ _ _ w =>
  (Returns (respond ReplyText), w).

Lemma reviewer_returns : advisorReturns reviewer.
Proof.
  cbn [advisorReturns reviewer]. split; [|split; [|split]];
    [|discriminate|discriminate|exact I].
  intros params w. eexists. eexists. split; [reflexivity|exact I].
Qed.

Lemma advisedConfig_requestCallbacksReturn advisor :
  requestCallbacksReturn (advisedConfig advisor).
Proof.
  split; [discriminate|]. split; [|discriminate].
  intros ms w. eexists. eexists. split; [reflexivity|exact I].
Qed.

Lemma scripted_callbacksReturn :
  callbacksReturn createMultiModelStreamFn (advisedConfig reviewer)
    (Some createScriptedStreamFn).
Proof.
  split; [apply advisedConfig_requestCallbacksReturn|].
  split; [|split; [discriminate|split; [discriminate|]]].
  - intros m c o w. unfold default, createScriptedStreamFn, id. cbn [from_option].
    match goal with |- context [if ?b then _ else _] => destruct b end;
      [destruct (advisorReplies w)|destruct (replies w)];
      eexists; eexists; (split; [reflexivity|exact I]).
  - cbn [advisors advisedConfig advisorsReturn].
    constructor; [exact reviewer_returns|constructor].
Qed.

Lemma text_answersWithoutTools :
  answersWithoutTools createMultiModelStreamFn (Some createTextStreamFn).
Proof.
  intros m c o w. eexists. eexists. split; reflexivity.
Qed.

Lemma advisedConfig_queuesEmpty advisor : queuesEmpty (advisedConfig advisor).
Proof. split; discriminate. Qed.

(** A run from the start entry with a tool call that the advisor
    [reviewer] comments on, under handlers that always return. *)
Definition reviewedRun :=
  agentLoop mockNow acceptArguments createMultiModelStreamFn 5
    [createUserMessage "go"] echoContext (advisedConfig reviewer) None
    (Some createScriptedStreamFn) (startState [] [ReplyOneCall] [] []).

(** A run from the start entry that only chats, with fuel for one turn. *)
Definition chatRun :=
  agentLoop mockNow acceptArguments createMultiModelStreamFn 1
    [createUserMessage "hi"] echoContext (advisedConfig reviewer) None
    (Some createTextStreamFn) (startState [] [] [] []).

(** Runs whose model has no handler: the stream function throws. *)
Definition unansweredRun :=
  mockLoop 5 [createUserMessage "go"] echoContext steeredConfig None None
    (startState [] [] [] []).

(** A model that asks for the echo tool at every turn, for three turns
    of fuel. *)
Definition createInsistentStreamFn : @StreamFn MockWorld := fun _ _ _ w =>
  (Returns (respond ReplyOneCall), w).

Definition insistentRun :=
  agentLoop mockNow acceptArguments createMultiModelStreamFn 3
    [createUserMessage "go"] echoContext steeredConfig None
    (Some createInsistentStreamFn) (startState [] [] [] []).

Definition unansweredContinue :=
  mockContinue 5 echoContext steeredConfig None None
    (startState [createUserMessage "go"] [] [] []).

Definition unansweredEnd : @State MockWorld :=
  match unansweredContinue with
  | inr (_, st') => st'
  | inl _ => startState [] [] [] []
  end.


(** The claim as the specification states it: the stream holds exactly
    one [agent_end], and it is its last event. *)
Definition emitsOneAgentEndLast (es : EventStream.t) : Prop :=
  exists pre v, EventStream.queue es = pre ++ [agent_end v] /\ quietEvents pre.


(** ** More scripted checks *)

Definition echoParams : AdvisorTriggerParams :=
  mkTriggerParams [createUserMessage "go"] "echo" "x" echoedA.

Definition idleWorld : MockWorld := mkMockWorld 100 [] [] [].

(** The X4 theorem on [onTools "read"] and [onTools "echo"], asked
    about a call of the echo tool. *)
Lemma anyOf_allOf_of_plain_triggers_witness :
  anyOf [onTools ["read"]; onTools ["echo"]] echoParams idleWorld
    = (Returns true, idleWorld) /\
  allOf [onTools ["read"]; onTools ["echo"]] echoParams idleWorld
    = (Returns false, idleWorld).
Proof.
  apply (anyOf_allOf_of_plain_triggers [onTools ["read"]; onTools ["echo"]]
           [false; true] echoParams).
  repeat constructor.
Defined.

(** An advisor that only reviews calls of the write tool. *)
Definition writeReviewer : @AdvisorConfig MockWorld :=
  mkAdvisorConfig "write-reviewer" createAdvisorModel (onTools ["write"])
    None None
    (fun _ w => (Returns (mkAdvisorContext "Review." [createUserMessage "check"]), w))
    None None None None None.

(** The X7 theorem on [writeReviewer] after a call of the echo tool. *)
Lemma quiet_advisors_leave_no_trace_witness :
  handleAdvisors mockNow noFuel (Some [writeReviewer]) echoContext 1
    (mkToolCall "tc-a" "echo" "x") echoedA 0 None None midTurn
  = (Done tt,
     mkState (world midTurn) (calls midTurn ++ [CallTrigger "write-reviewer"])
       (arrays midTurn) (streams midTurn)).
Proof.
  apply (quiet_advisors_leave_no_trace mockNow noFuel [writeReviewer] echoContext 1
           (mkToolCall "tc-a" "echo" "x") echoedA 0 None None midTurn).
  repeat constructor.
Defined.

Definition skippedB : ToolResultMessage :=
  mkToolResultMessage "tc-b" "echo" [TextContent skippedText] emptyObject true 101.

(** The X10 theorem on the two calls of [midTurn], the second of which
    is skipped. *)
Lemma executeToolCalls_results_follow_calls_witness :
  map toolCallId [echoedA; skippedB] = toolCallIds (replyMessage ReplyTwoCalls) /\
  map toolName [echoedA; skippedB]
    = map tc_name (toolCallsOf (am_content (replyMessage ReplyTwoCalls))) /\
  (Some [createUserMessage "stop and do X"] = None \/
   exists m ms,
     Some [createUserMessage "stop and do X"] = Some (m :: ms) /\
     getSteeringMessages steeredConfig <> None).
Proof.
  apply (executeToolCalls_results_follow_calls mockNow acceptArguments noFuel
           echoContext 1 (replyMessage ReplyTwoCalls) steeredConfig None 0 None midTurn
           [echoedA; skippedB] (Some [createUserMessage "stop and do X"])
           (snd (executeToolCalls mockNow acceptArguments noFuel echoContext 1
                   (replyMessage ReplyTwoCalls) steeredConfig None 0 None midTurn))).
  vm_compute. reflexivity.
Defined.

(** A validator that refuses every argument. *)
Definition rejectArguments (t : @AgentTool MockWorld) (tc : ToolCall) : JsValue + Json :=
  inl (JsError "Validation failed").

(** The X11 theorem on the echo tool with refused arguments. *)
Lemma invalid_arguments_are_not_executed_witness :
  exists t st',
    dispatchToolCall mockNow rejectArguments echoContext 1
      (mkToolCall "tc-a" "echo" "x") None 0 midTurn
    = (Done (mkToolResultMessage "tc-a" "echo" [TextContent "Validation failed"]
               emptyObject true t), st') /\
    calls st' = calls midTurn /\
    mockNow (world midTurn) = (t, world st').
Proof.
  apply (invalid_arguments_are_not_executed mockNow rejectArguments echoContext 1
           (mkToolCall "tc-a" "echo" "x") None 0 midTurn createEchoTool
           (JsError "Validation failed"));
    reflexivity.
Defined.


(** The X13 theorem on the answer of the scripted model. *)
Lemma assistant_response_events_witness :
  exists first updates,
    streams (snd (streamAssistantResponse createMultiModelStreamFn echoContext
                    steeredConfig None 0 None (firstTurnState [ReplyText]))) !! 0
      = Some (EventStream.mk
                ([] ++ message_start (MAssistant first) :: updates
                 ++ [message_end (MAssistant (replyMessage ReplyText))])
                false None) /\
    Forall (fun e => isMessageUpdate e = true) updates /\
    arrays (snd (streamAssistantResponse createMultiModelStreamFn echoContext
                   steeredConfig None 0 None (firstTurnState [ReplyText])))
      !! messages echoContext
      = Some ([createUserMessage "go"] ++ [MAssistant (replyMessage ReplyText)]).
Proof.
  apply (assistant_response_events createMultiModelStreamFn echoContext steeredConfig
           None 0 None (firstTurnState [ReplyText]) (replyMessage ReplyText) _
           EventStream.create [createUserMessage "go"] mock_responsesWellFormed);
    [vm_compute; reflexivity|reflexivity|reflexivity|reflexivity].
Defined.

(** An adapter whose responses hold no event at all. *)
Definition createSilentStreamFn : @StreamFn MockWorld := fun _ _ _ w =>
  (Returns (mkStreamResponse [] (replyMessage ReplyText)), w).

(** The X14 theorem on [createSilentStreamFn]. *)
Lemma response_without_start_or_end_witness :
  arrays (snd (streamAssistantResponse createMultiModelStreamFn echoContext
                 steeredConfig None 0 (Some createSilentStreamFn)
                 (firstTurnState [])))
    = arrays (firstTurnState []) /\
  streams (snd (streamAssistantResponse createMultiModelStreamFn echoContext
                  steeredConfig None 0 (Some createSilentStreamFn)
                  (firstTurnState [])))
    = streams (firstTurnState []) /\
  exists m c o w response w',
    default createMultiModelStreamFn (Some createSilentStreamFn) m c o w
      = (Returns response, w') /\
    replyMessage ReplyText = resp_result response.
Proof.
  apply (response_without_start_or_end createMultiModelStreamFn echoContext
           steeredConfig None 0 (Some createSilentStreamFn) (firstTurnState [])
           (replyMessage ReplyText)).
  - intros m c o w response w' [= <- _]. constructor.
  - vm_compute. reflexivity.
Defined.

(** A tool call that [reviewer] comments on. *)
Definition reviewedTurn : @State MockWorld :=
  mkState (mkMockWorld 100 [] [ReplyText] []) []
    [[createUserMessage "go"; MAssistant (replyMessage ReplyOneCall)];
     [createUserMessage "go"; MAssistant (replyMessage ReplyOneCall)]]
    [EventStream.create].

Definition reviewedStep :=
  toolStep mockNow acceptArguments (nestedAt mockNow acceptArguments
                                      createMultiModelStreamFn 2)
    echoContext 1 (mkToolCall "tc-1" "echo" "x") (advisedConfig reviewer) None 0 None
    reviewedTurn.

Definition echoed1 : ToolResultMessage :=
  mkToolResultMessage "tc-1" "echo" [TextContent "echoed: x"] "x" false 100.

(** The X15 theorem on [reviewedStep]. *)
Lemma advisor_messages_follow_their_tool_result_witness :
  exists advice,
    arrays (snd reviewedStep) !! messages echoContext
      = Some ([createUserMessage "go"; MAssistant (replyMessage ReplyOneCall)]
              ++ MToolResult echoed1 :: map MAdvisor advice) /\
    arrays (snd reviewedStep) !! 1
      = Some ([createUserMessage "go"; MAssistant (replyMessage ReplyOneCall)]
              ++ MToolResult echoed1 :: map MAdvisor advice) /\
    sublist (map advisorName advice)
      (map adv_name (default [] (advisors (advisedConfig reviewer)))) /\
    Forall (fun m => adv_content m <> "") advice.
Proof.
  apply (advisor_messages_follow_their_tool_result mockNow acceptArguments
           createMultiModelStreamFn 2 echoContext 1 (mkToolCall "tc-1" "echo" "x")
           (advisedConfig reviewer) None 0 None reviewedTurn echoed1 (snd reviewedStep));
    [discriminate|reflexivity|reflexivity|vm_compute; reflexivity].
Defined.

(** A caller that queues a follow-up message. *)
Definition followUpConfig : @AgentLoopConfig MockWorld :=
  mkAgentLoopConfig createModel identityConverter None None None
    None (Some pollQueued) None None.

Definition followedRun :=
  mockLoop 5 [createUserMessage "go"] echoContext followUpConfig None None
    (startState [] [ReplyText; ReplyText] [] [["and then?"]]).

(** The X16 theorem on [followedRun]. *)
Lemma run_ends_after_follow_up_poll_witness :
  endsWith followUpConfig (snd followedRun).
Proof.
  destruct (run_ends_after_follow_up_poll mockNow acceptArguments
              createMultiModelStreamFn 5 followUpConfig None None pollQueued eq_refl)
    as [Hstart _].
  apply (Hstart [createUserMessage "go"] echoContext
           (startState [] [ReplyText; ReplyText] [] [["and then?"]])
           (fst (fst followedRun))).
  vm_compute. reflexivity.
Defined.

(** The state in which the first turn of [followedRun] has ended. *)
Definition idleState : @State MockWorld :=
  mkState (mkMockWorld 100 [ReplyText] [] [["and then?"]]) []
    [[createUserMessage "go"; MAssistant (replyMessage ReplyText)];
     [createUserMessage "go"; MAssistant (replyMessage ReplyText)]]
    [EventStream.create].

(** The X17 theorem on [idleState]. *)
Lemma follow_up_messages_start_a_new_turn_witness :
  exists st1,
    calls st1 = calls idleState ++ [CallGetFollowUpMessages] /\
    logStep (messages echoContext) 1 [createUserMessage "and then?"]
      [createUserMessage "and then?"] idleState st1 /\
    runLoopFrom mockNow acceptArguments createMultiModelStreamFn noFuel 2 echoContext 1
      followUpConfig None 0 None false false [] None idleState
    = runLoopFrom mockNow acceptArguments createMultiModelStreamFn noFuel 1 echoContext 1
        followUpConfig None 0 None true true [] None st1.
Proof.
  destruct (follow_up_messages_start_a_new_turn mockNow acceptArguments
              createMultiModelStreamFn noFuel 0 echoContext 1 followUpConfig None 0 None
              pollQueued false None idleState [createUserMessage "and then?"]
              (mkMockWorld 100 [ReplyText] [] []))
    as [_ Hsome]; [discriminate|reflexivity|reflexivity|].
  destruct (Hsome eq_refl) as [st1 [_ [Hcalls [Hlog Hrun]]]].
  exists st1. split; [exact Hcalls|]. split; [exact Hlog|exact Hrun].
Defined.
